(** * pukka: schema-driven validation and coercion

    A shallow embedding of [src/helper.ts] and [src/validator.ts] together
    with the part of the JavaScript runtime these two files rely on, and the
    properties of the specification proved about it.

    Conventions of the embedding.
    - A JavaScript value is a term of [JsValue]: a primitive, a [File], an
      array, a plain object, or an instance of another class, of which only
      the name of the class is kept.  No value is a function.  An object is
      the list of its own properties in insertion order; an array is a list,
      a hole reads as [undefined].
    - Property lookup is own-property lookup.  The members that every
      object inherits from [Object.prototype] are named by [Js.inherited];
      where the source depends on one of them ([value.constructor],
      [errors[path]] on the error map, [String] and [Number] of an object)
      the embedding says so, and the statements that read or write fields
      by name keep to names that are none of them and no array index
      ([plain_name]).
    - [String(v)] and [Number(v)] throw a [TypeError] on an object that
      yields no primitive ([Js.converts]); what they return on an instance
      of a class is the class's own affair and is kept out of the
      statements by [plain].
    - A JavaScript number is an exact decimal ([JsNumber]); the rounding
      and the overflow of binary64 are left out, the statements that print
      a number keep to the numbers that binary64 holds and prints digit
      for digit ([exact]).
    - A parsed schema is an object for [isObject] unless it declares a
      field named [constructor]; the statements that descend into the
      fields of a schema keep to schemas without one ([plain_type],
      [plain_schema]).
    - Strings are byte strings; the character classes [\s], [\d], [a-z]
      and [A-Z] are the ASCII ones.
    - Mutation of [target], [safeTarget] and [errors] is explicit state
      passing: a function returns the objects it has written to.
    - A call that may throw returns an [Outcome], or, where the source
      leaves written state behind when it throws, that state together with
      what was thrown.  A function that throws in few places is given by the
      value it returns and by the test of when it throws instead
      ([coerce] and [coerce_throws], [addError] and [addError_throws]).
    - A callback is a function in the monad [Eff] over the error map of the
      call: it returns, or it throws an [Error] or any other value.  The
      override [errorMessage] of the options is a function that returns.
      The messages of the errors the runtime throws are those of V8. *)

From Stdlib Require Import ZArith NArith Ascii String List.
From Stdlib Require Import Decimal DecimalString DecimalPos DecimalN.
From stdpp Require Import base strings list gmap.

Local Open Scope string_scope.
Local Open Scope Z_scope.

#[local] Set Warnings "-register-all".

(* ------------------------------------------------------------------ *)
(** ** Characters and strings *)

Module Chars.

Definition code (c : ascii) : N := N_of_ascii c.

Definition between (lo hi : N) (c : ascii) : bool :=
  ((lo <=? code c) && (code c <=? hi))%N.

(** [\d] *)
Definition is_digit : ascii -> bool := between 48 57.
(** [a-z] and [A-Z] *)
Definition is_lower : ascii -> bool := between 97 122.
Definition is_upper : ascii -> bool := between 65 90.
(** [\s]: tab, line feed, vertical tab, form feed, carriage return, space *)
Definition is_space (c : ascii) : bool :=
  between 9 13 c || (code c =? 32)%N.

Definition to_upper (c : ascii) : ascii :=
  if is_lower c then ascii_of_N (code c - 32) else c.

(** Value of a digit in a base up to 16, [None] when the character is no
    digit of that base. *)
Definition digit_in (base : N) (c : ascii) : option N :=
  let d :=
    if is_digit c then Some (code c - 48)%N
    else if between 97 102 c then Some (code c - 87)%N
    else if between 65 70 c then Some (code c - 55)%N
    else None in
  match d with
  | Some v => if (v <? base)%N then Some v else None
  | None => None
  end.

End Chars.

Module Str.

(** Longest prefix whose characters satisfy [p], and the rest. *)
Fixpoint span (p : ascii -> bool) (s : string) : string * string :=
  match s with
  | EmptyString => (EmptyString, EmptyString)
  | String c r =>
      if p c then let '(a, b) := span p r in (String c a, b)
      else (EmptyString, s)
  end.

Fixpoint drop_while (p : ascii -> bool) (s : string) : string :=
  match s with
  | EmptyString => EmptyString
  | String c r => if p c then drop_while p r else s
  end.

Fixpoint take (n : nat) (s : string) : string :=
  match n, s with
  | S n', String c r => String c (take n' r)
  | _, _ => EmptyString
  end.

Fixpoint drop (n : nat) (s : string) : string :=
  match n, s with
  | S n', String _ r => drop n' r
  | _, _ => s
  end.

Fixpoint replicate (n : nat) (c : ascii) : string :=
  match n with
  | O => EmptyString
  | S n' => String c (replicate n' c)
  end.

Fixpoint contains_char (c : ascii) (s : string) : bool :=
  match s with
  | EmptyString => false
  | String d r => if Ascii.eqb c d then true else contains_char c r
  end.

(** [s.trim()] *)
Definition trim (s : string) : string :=
  String.rev (drop_while Chars.is_space
                (String.rev (drop_while Chars.is_space s))).

(** [s.endsWith(c)] for a one-character [c] *)
Fixpoint ends_with_char (c : ascii) (s : string) : bool :=
  match s with
  | EmptyString => false
  | String d EmptyString => Ascii.eqb c d
  | String _ r => ends_with_char c r
  end.

(** [s.replace(c, "")] for a one-character pattern: the first occurrence
    only. *)
Fixpoint remove_first (c : ascii) (s : string) : string :=
  match s with
  | EmptyString => EmptyString
  | String d r => if Ascii.eqb c d then r else String d (remove_first c r)
  end.

(** [s.split(c)]: never empty, [""] splits to [[""]]. *)
Fixpoint split (c : ascii) (s : string) : list string :=
  match s with
  | EmptyString => [EmptyString]
  | String d r =>
      if Ascii.eqb c d then EmptyString :: split c r
      else match split c r with
           | h :: t => String d h :: t
           | [] => [String d EmptyString]
           end
  end.

(** [xs.join(sep)] *)
Fixpoint join (sep : string) (xs : list string) : string :=
  match xs with
  | [] => EmptyString
  | [x] => x
  | x :: r => x +:+ sep +:+ join sep r
  end.

Definition to_upper (s : string) : string :=
  string_of_list_ascii (List.map Chars.to_upper (list_ascii_of_string s)).

(** Digits of a natural number in base ten, ["0"] for zero. *)
Definition of_N (n : N) : string := NilZero.string_of_uint (N.to_uint n).
Definition of_nat (n : nat) : string := of_N (N.of_nat n).
Definition of_Z (z : Z) : string :=
  if z <? 0 then "-" +:+ of_N (Z.abs_N z) else of_N (Z.abs_N z).

(** The number a non-empty string of digits of [base] writes. *)
Fixpoint digits_from (base acc : N) (s : string) : option N :=
  match s with
  | EmptyString => Some acc
  | String c r =>
      match Chars.digit_in base c with
      | Some d => digits_from base (acc * base + d)%N r
      | None => None
      end
  end.

Definition digits (base : N) (s : string) : option N :=
  match s with
  | EmptyString => None
  | _ => digits_from base 0%N s
  end.

End Str.

(* ------------------------------------------------------------------ *)
(** ** JavaScript numbers *)

(** A number is [NaN], an infinity, negative zero, an integer, or a
    non-integer decimal [± mant / 10 ^ scale] whose [mant] does not end in
    a zero digit. *)
Inductive JsNumber : Type :=
| NNaN
| NInf (neg : bool)
| NNegZero
| NInt (z : Z)
| NFrac (neg : bool) (mant scale : positive).

Module Num.

Definition isNaN (n : JsNumber) : bool :=
  match n with NNaN => true | _ => false end.

(** Cancel up to [fuel] trailing zero digits of [mant] against [scale]. *)
Fixpoint reduce (fuel : nat) (mant : N) (scale : N) : N * N :=
  match fuel with
  | O => (mant, scale)
  | S fuel' =>
      if ((0 <? scale) && (mant mod 10 =? 0))%N
      then reduce fuel' (mant / 10)%N (scale - 1)%N
      else (mant, scale)
  end.

(** The number [± mant * 10 ^ exp]. *)
Definition make (neg : bool) (mant : N) (exp : Z) : JsNumber :=
  if (mant =? 0)%N then (if neg then NNegZero else NInt 0)
  else if 0 <=? exp then
    let v := Z.of_N mant * 10 ^ exp in NInt (if neg then - v else v)
  else
    let '(m, s) := reduce (Z.to_nat (- exp)) mant (Z.to_N (- exp)) in
    match m, s with
    | Npos mp, Npos sp => NFrac neg mp sp
    | _, _ => NInt (if neg then - Z.of_N m else Z.of_N m)
    end.

Definition of_nat (n : nat) : JsNumber := NInt (Z.of_nat n).

(** The exponent part of a decimal literal: [""], or [e], an optional
    sign and digits. *)
Definition exponent (s : string) : option Z :=
  match s with
  | EmptyString => Some 0
  | String c r =>
      if Ascii.eqb c "e" || Ascii.eqb c "E" then
        match r with
        | String "+" d => Z.of_N <$> Str.digits 10 d
        | String "-" d => (fun n => - Z.of_N n) <$> Str.digits 10 d
        | _ => Z.of_N <$> Str.digits 10 r
        end
      else None
  end.

(** An unsigned decimal literal: digits, an optional fraction, an
    optional exponent; digits on one side of the dot at least. *)
Definition decimal (neg : bool) (s : string) : JsNumber :=
  let '(int, r1) := Str.span Chars.is_digit s in
  let '(frac, r2) :=
    match r1 with
    | String "." r => Str.span Chars.is_digit r
    | _ => (EmptyString, r1)
    end in
  match int +:+ frac with
  | EmptyString => NNaN
  | ds =>
      match Str.digits 10 ds, exponent r2 with
      | Some m, Some e => make neg m (e - Z.of_nat (String.length frac))
      | _, _ => NNaN
      end
  end.

Definition signed (neg : bool) (s : string) : JsNumber :=
  if String.eqb s "Infinity" then NInf neg else decimal neg s.

Definition radix (base : N) (s : string) : JsNumber :=
  match Str.digits base s with
  | Some n => NInt (Z.of_N n)
  | None => NNaN
  end.

(** [Number(s)] for a string [s] (StringToNumber). *)
Definition of_string (s : string) : JsNumber :=
  match Str.trim s with
  | EmptyString => NInt 0
  | String "+" r => signed false r
  | String "-" r => signed true r
  | String "0" (String "x" r) | String "0" (String "X" r) => radix 16 r
  | String "0" (String "o" r) | String "0" (String "O" r) => radix 8 r
  | String "0" (String "b" r) | String "0" (String "B" r) => radix 2 r
  | t => signed false t
  end.

(** The digits [s], their count [k] and the position [n] of the decimal
    point of Number::toString, as a string laid out by its four cases. *)
Definition layout (s : string) (n : Z) : string :=
  let k := Z.of_nat (String.length s) in
  if (k <=? n) && (n <=? 21) then
    s +:+ Str.replicate (Z.to_nat (n - k)) "0"
  else if (0 <? n) && (n <=? 21) then
    Str.take (Z.to_nat n) s +:+ "." +:+ Str.drop (Z.to_nat n) s
  else if (-6 <? n) && (n <=? 0) then
    "0." +:+ Str.replicate (Z.to_nat (- n)) "0" +:+ s
  else
    let e := n - 1 in
    let es := (if e <? 0 then "-" else "+") +:+ Str.of_N (Z.abs_N e) in
    if k =? 1 then s +:+ "e" +:+ es
    else Str.take 1 s +:+ "." +:+ Str.drop 1 s +:+ "e" +:+ es.

Definition strip_zeros (s : string) : string :=
  String.rev (Str.drop_while (Ascii.eqb "0") (String.rev s)).

(** [String(n)] for a number [n] (Number::toString, radix ten). *)
Definition to_string (n : JsNumber) : string :=
  match n with
  | NNaN => "NaN"
  | NInf neg => if neg then "-Infinity" else "Infinity"
  | NNegZero => "0"
  | NInt z =>
      if z =? 0 then "0"
      else
        let ds := Str.of_N (Z.abs_N z) in
        let body := layout (strip_zeros ds) (Z.of_nat (String.length ds)) in
        if z <? 0 then "-" +:+ body else body
  | NFrac neg m sc =>
      let ds := Str.of_N (Npos m) in
      let body := layout ds (Z.of_nat (String.length ds) - Zpos sc) in
      if neg then "-" +:+ body else body
  end.

(** [len > limit] for an array length [len]. *)
Definition lt_nat (limit : JsNumber) (len : nat) : bool :=
  match limit with
  | NNaN => false
  | NInf neg => neg
  | NNegZero => 0 <? Z.of_nat len
  | NInt z => z <? Z.of_nat len
  | NFrac neg m sc =>
      if neg then true else Zpos m <? Z.of_nat len * 10 ^ Zpos sc
  end.

(** [x * 0 !== 0]: the product is [NaN] for [NaN] and the infinities. *)
Definition times_zero_is_not_zero (n : JsNumber) : bool :=
  match n with
  | NNaN | NInf _ => true
  | _ => false
  end.

(** SameValueZero on numbers, as [Array.prototype.includes] compares. *)
Definition same_value_zero (a b : JsNumber) : bool :=
  match a, b with
  | NNaN, NNaN => true
  | NInf x, NInf y => Bool.eqb x y
  | (NNegZero | NInt 0), (NNegZero | NInt 0) => true
  | NInt x, NInt y => x =? y
  | NFrac n1 m1 s1, NFrac n2 m2 s2 =>
      Bool.eqb n1 n2 && (m1 =? m2)%positive && (s1 =? s2)%positive
  | _, _ => false
  end.

End Num.

(* ------------------------------------------------------------------ *)
(** ** JavaScript values *)

Record JsFile : Type := mkFile { file_name : string; file_bits : list string }.

(** An [Error] with its message. *)
Record JsError : Type := mkError { message : string }.

(** [VInstance c] is an object built by a constructor [c] other than
    [Object], [Array] and [File]; the library never reads its fields. *)
Inductive JsValue : Type :=
| VUndefined
| VNull
| VBool (b : bool)
| VNumber (n : JsNumber)
| VString (s : string)
| VBigInt (z : Z)
| VFile (f : JsFile)
| VInstance (ctor : string)
| VArray (items : list JsValue)
| VObject (fields : list (string * JsValue)).

(** A property key: a string, or the number the array loop assigns to
    [itemType.key]. *)
Inductive PropKey : Type :=
| KStr (s : string)
| KIdx (i : nat).

(** What a [throw] hands to a [catch]: an [Error] with its message, or any
    other value. *)
Inductive Thrown : Type :=
| ThrownError (e : JsError)
| ThrownValue (v : JsValue).

(** A call returns, or throws. *)
Inductive Outcome (A : Type) : Type :=
| Returned (a : A)
| Threw (e : Thrown).
Arguments Returned {A}.
Arguments Threw {A}.

Module Js.

(** [v == null] *)
Definition is_nullish (v : JsValue) : bool :=
  match v with VUndefined | VNull => true | _ => false end.

(** [typeof v] *)
Definition typeof (v : JsValue) : string :=
  match v with
  | VUndefined => "undefined"
  | VBool _ => "boolean"
  | VNumber _ => "number"
  | VString _ => "string"
  | VBigInt _ => "bigint"
  | VNull | VFile _ | VInstance _ | VArray _ | VObject _ => "object"
  end.

(** [String(v)], where it returns ([converts]); an array joins its
    elements with a comma, [null] and [undefined] elements printing as
    nothing.  An instance is printed as [Object.prototype.toString] prints
    it. *)
Fixpoint to_string (v : JsValue) : string :=
  match v with
  | VUndefined => "undefined"
  | VNull => "null"
  | VBool b => if b then "true" else "false"
  | VNumber n => Num.to_string n
  | VString s => s
  | VBigInt z => Str.of_Z z
  | VFile _ => "[object File]"
  | VInstance _ | VObject _ => "[object Object]"
  | VArray items =>
      Str.join ","
        (List.map (fun x => if is_nullish x then "" else to_string x) items)
  end.

(** [Number(v)], where it returns ([converts]) *)
Definition to_number (v : JsValue) : JsNumber :=
  match v with
  | VUndefined => NNaN
  | VNull => NInt 0
  | VBool b => NInt (if b then 1 else 0)
  | VNumber n => n
  | VBigInt z => NInt z
  | VString _ | VFile _ | VInstance _ | VArray _ | VObject _ =>
      Num.of_string (to_string v)
  end.

(** StringToBigInt: [None] where [BigInt] throws a SyntaxError. *)
Definition bigint_of_string (s : string) : option Z :=
  match Str.trim s with
  | EmptyString => Some 0
  | String "+" r => Z.of_N <$> Str.digits 10 r
  | String "-" r => (fun n => - Z.of_N n) <$> Str.digits 10 r
  | String "0" (String "x" r) | String "0" (String "X" r) =>
      Z.of_N <$> Str.digits 16 r
  | String "0" (String "o" r) | String "0" (String "O" r) =>
      Z.of_N <$> Str.digits 8 r
  | String "0" (String "b" r) | String "0" (String "B" r) =>
      Z.of_N <$> Str.digits 2 r
  | t => Z.of_N <$> Str.digits 10 t
  end.

(** [BigInt(v)]: [None] where it throws (a TypeError for [undefined] and
    [null], a RangeError for a number that is no integer, a SyntaxError
    for a string that writes none). *)
Definition to_bigint (v : JsValue) : option Z :=
  match v with
  | VUndefined | VNull => None
  | VBool b => Some (if b then 1 else 0)
  | VNumber (NInt z) => Some z
  | VNumber NNegZero => Some 0
  | VNumber _ => None
  | VBigInt z => Some z
  | VString _ | VFile _ | VInstance _ | VArray _ | VObject _ =>
      bigint_of_string (to_string v)
  end.

(** [String(k)] for a property key. *)
Definition key_string (k : PropKey) : string :=
  match k with
  | KStr s => s
  | KIdx i => Str.of_nat i
  end.

(** The array index a property key names, if it names one: a number, or
    the canonical decimal string of one. *)
Definition key_index (k : PropKey) : option nat :=
  match k with
  | KIdx i => Some i
  | KStr s =>
      match Str.digits 10 s with
      | Some n => if String.eqb (Str.of_N n) s then Some (N.to_nat n) else None
      | None => None
      end
  end.

(** Own property [k] of an object. *)
Fixpoint field (k : string) (fs : list (string * JsValue)) : option JsValue :=
  match fs with
  | [] => None
  | (k', v) :: r => if String.eqb k k' then Some v else field k r
  end.

(** [o[k] = v] on the fields of an object: in place when [k] is there,
    at the end otherwise. *)
Fixpoint set_field (k : string) (v : JsValue) (fs : list (string * JsValue))
  : list (string * JsValue) :=
  match fs with
  | [] => [(k, v)]
  | (k', v') :: r =>
      if String.eqb k k' then (k, v) :: r else (k', v') :: set_field k v r
  end.

(** [a[i] = v] on the elements of an array; writing past the end
    extends the array, the holes reading as [undefined]. *)
Definition set_item (i : nat) (v : JsValue) (xs : list JsValue)
  : list JsValue :=
  if (i <? length xs)%nat then <[i := v]> xs
  else xs ++ List.repeat VUndefined (i - length xs) ++ [v].

(** [o[k]], for a [k] that [Object.prototype] does not define *)
Definition get (o : JsValue) (k : PropKey) : JsValue :=
  match o with
  | VObject fs => default VUndefined (field (key_string k) fs)
  | VArray xs =>
      match key_index k with
      | Some i => default VUndefined (xs !! i)
      | None =>
          if String.eqb (key_string k) "length"
          then VNumber (Num.of_nat (length xs)) else VUndefined
      end
  | _ => VUndefined
  end.

(** [o[k] = v].  The library writes to objects by name and to arrays by
    index; a named property of an array has no place in [JsValue] and
    is dropped, and so is a write to anything else. *)
Definition set (o : JsValue) (k : PropKey) (v : JsValue) : JsValue :=
  match o with
  | VObject fs => VObject (set_field (key_string k) v fs)
  | VArray xs =>
      match key_index k with
      | Some i => VArray (set_item i v xs)
      | None => o
      end
  | _ => o
  end.

(** [Object.fromEntries(es)] *)
Definition from_entries (es : list (string * JsValue)) : JsValue :=
  VObject (fold_left (fun fs '(k, v) => set_field k v fs) es []).

(** The members of [Object.prototype]: under these names every object has
    a property without having one of its own. *)
Definition inherited (name : string) : bool :=
  existsb (String.eqb name)
    ["constructor"; "__defineGetter__"; "__defineSetter__"; "hasOwnProperty";
     "__lookupGetter__"; "__lookupSetter__"; "isPrototypeOf";
     "propertyIsEnumerable"; "toString"; "valueOf"; "__proto__";
     "toLocaleString"].

(** [String(v)] and [Number(v)] return.  They turn an object into a
    primitive by its [toString] and [valueOf]; an own property [toString],
    which in [JsValue] is no function, hides the inherited one and leaves
    [valueOf] to hand back the object itself: a [TypeError].  An array joins
    the strings of its elements, [null] and [undefined] apart. *)
Fixpoint converts (v : JsValue) : bool :=
  match v with
  | VObject fields =>
      match field "toString" fields with
      | Some _ => false
      | None => true
      end
  | VArray items => forallb converts items
  | _ => true
  end.

(** The [TypeError]s of the runtime. *)
Definition no_primitive : JsError :=
  mkError "Cannot convert object to primitive value".

Definition cannot_read (what prop : string) : JsError :=
  mkError ("Cannot read properties of " +:+ what +:+ " (reading '" +:+ prop
             +:+ "')").

Definition no_number_of_symbol : JsError :=
  mkError "Cannot convert a Symbol value to a number".

(** [c.name] of a value that is no function: the name of a [File], an own
    property of an object. *)
Definition name_of (c : JsValue) : JsValue :=
  match c with
  | VObject fs => default VUndefined (field "name" fs)
  | VFile f => VString (file_name f)
  | _ => VUndefined
  end.

(** [v?.constructor?.name ?? typeof v]; an own property [constructor]
    hides the inherited one. *)
Definition constructor_name (v : JsValue) : JsValue :=
  match v with
  | VUndefined | VNull => VString (typeof v)
  | VBool _ => VString "Boolean"
  | VNumber _ => VString "Number"
  | VString _ => VString "String"
  | VBigInt _ => VString "BigInt"
  | VFile _ => VString "File"
  | VInstance c => VString c
  | VArray _ => VString "Array"
  | VObject fs =>
      match field "constructor" fs with
      | None => VString "Object"
      | Some c =>
          if is_nullish (name_of c) then VString (typeof v) else name_of c
      end
  end.

(** [`${error.message}`] of what was thrown.  Reading a property of [null]
    or [undefined] throws; so does printing a message that yields no
    primitive. *)
Definition message_text (error : Thrown) : Outcome string :=
  match error with
  | ThrownError e => Returned (message e)
  | ThrownValue v =>
      if is_nullish v then
        Threw (ThrownError (cannot_read (to_string v) "message"))
      else
        let m :=
          match v with
          | VObject fs => default VUndefined (field "message" fs)
          | _ => VUndefined
          end in
        if converts m then Returned (to_string m)
        else Threw (ThrownError no_primitive)
  end.

End Js.

(* ------------------------------------------------------------------ *)
(** ** helper.ts *)

(** One entry of [Errors]: [{ value: string; errors: string[] }]. *)
Record ErrorEntry : Type := mkEntry { value : string; errors : list string }.

(** [Errors = Record<string, { value, errors }>] *)
Abbreviation Errors := (gmap string ErrorEntry).

(** The argument of [push]: a message, or a function from the
    localization key to a message. *)
Inductive PushArg : Type :=
| Message (error : string)
| KeyToMessage (f : string -> string).

(** The target of a proxy: [{ path: string; value: any }]. *)
Record Target : Type := mkTarget { path : string; raw : JsValue }.

(** What the [get] trap of the proxy hands back for a property name: the
    length of an array, the [push] closure of a target, a path, a value,
    a list of errors, or the proxy of a child target. *)
Inductive Access : Type :=
| ALength (n : nat)
| APush (t : Target)
| APath (p : string)
| AValue (v : string)
| AErrors (es : list string)
| AChild (t : Target).

(** A property key: a name, [Symbol.iterator], or another symbol. *)
Inductive PropName : Type :=
| Named (name : string)
| SymbolIterator
| OtherSymbol.

(** What the [get] trap hands back: one of the above, or the iterator of
    an array, given by what it yields. *)
Inductive Answer : Type :=
| One (a : Access)
| Iterator (items : list Access).

Module Helper.

(** [value != null && typeof value === "object" &&
    value.constructor === Object]: an own property [constructor], which in
    [JsValue] is never the function [Object], makes the test fail. *)
Definition isObject (v : JsValue) : bool :=
  match v with
  | VObject fs =>
      match Js.field "constructor" fs with
      | Some _ => false
      | None => true
      end
  | _ => false
  end.

Definition isArray (v : JsValue) : bool :=
  match v with VArray _ => true | _ => false end.

(** primitives to string *)
Definition stringify (v : JsValue) : string :=
  if Js.is_nullish v || String.eqb (Js.typeof v) "object" then ""
  else Js.to_string v.

(** [addError] throws: [errors] is a plain [{}], so that at a path naming
    a member of [Object.prototype] without an entry [errors[path]] is that
    member, not [null], and [errors[path].errors.push] is a call on
    [undefined]. *)
Definition addError_throws (errs : Errors) (p : string) : bool :=
  match errs !! p with
  | None => Js.inherited p
  | Some _ => false
  end.

(** The error map [addError] leaves when it returns. *)
Definition addError (errs : Errors) (p : string) (error : string)
    (v : JsValue) : Errors :=
  match errs !! p with
  | None => <[p := mkEntry (stringify v) [error]]> errs
  | Some e => <[p := mkEntry (value e) (errors e ++ [error])]> errs
  end.

(** After an opening bracket: [\s*(\d+)\s*\]], giving the digits and
    what follows the closing bracket. *)
Definition match_index (s : string) : option (string * string) :=
  let '(ds, r) := Str.span Chars.is_digit (Str.drop_while Chars.is_space s) in
  match ds, Str.drop_while Chars.is_space r with
  | String _ _, String "]" rest => Some (ds, rest)
  | _, _ => None
  end.

(** [s.replace(/\[\s*(\d+)\s*\]/g, f)], [f] reading the group;
    [String.length s] steps are enough. *)
Fixpoint replace_indices (f : string -> string) (fuel : nat) (s : string)
  : string :=
  match fuel, s with
  | S fuel', String c r =>
      match (if Ascii.eqb c "[" then match_index r else None) with
      | Some (ds, rest) => f ds +:+ replace_indices f fuel' rest
      | None => String c (replace_indices f fuel' r)
      end
  | _, _ => s
  end.

Definition makePath (currentPath : string) (prop : string) : string :=
  let index := Num.of_string prop in
  let isArrayIndex := negb (Num.isNaN index) in
  let key := if isArrayIndex then "[" +:+ Num.to_string index +:+ "]" else prop in
  let dot :=
    if String.eqb currentPath "" || isArrayIndex then "" else "." in
  currentPath +:+ dot +:+ key.

(** key for translations: foo[1].bar => foo.bar *)
Definition getKey (p : string) : string :=
  replace_indices (fun _ => "") (String.length p) p.

(** The closure [push] of a target throws where its [addError] does. *)
Definition push_throws (t : Target) (errs : Errors) : bool :=
  addError_throws errs (path t).

(** The closure [push] of a target: the error map it leaves when it
    returns. *)
Definition push (t : Target) (error : PushArg) (errs : Errors) : Errors :=
  let error :=
    match error with
    | KeyToMessage f => f (getKey (path t))
    | Message s => s
    end in
  addError errs (path t) error (raw t).

(** The [get] trap of the proxy handler at a property name. *)
Definition get (errs : Errors) (t : Target) (prop : string) : Access :=
  match (match raw t with
         | VArray xs =>
             if String.eqb prop "length" then Some (length xs) else None
         | _ => None
         end) with
  | Some n => ALength n
  | None =>
      if String.eqb prop "push" then APush t
      else if String.eqb prop "path" then APath (path t)
      else if String.eqb prop "value" then
        let v :=
          if Js.is_nullish (raw t)
          then from_option (fun e => VString (value e)) VUndefined
                 (errs !! path t)
          else raw t in
        AValue (stringify v)
      else if String.eqb prop "errors" then
        AErrors (from_option errors [] (errs !! path t))
      else
        let p := makePath (path t) prop in
        let v :=
          if isArray (raw t) || isObject (raw t)
          then Js.get (raw t) (KStr prop) else VUndefined in
        AChild (mkTarget p v)
  end.

(** The array iterator of the proxy: [this[i]] for each index. *)
Definition iterate (errs : Errors) (t : Target) : list Access :=
  match raw t with
  | VArray xs => List.map (fun i => get errs t (Str.of_nat i)) (seq 0 (length xs))
  | _ => []
  end.

(** The [get] trap of the proxy handler at any property key.  At
    [Symbol.iterator] over an array it hands back the iterator; every
    other symbol falls through to [makePath], where [Number(prop)]
    throws. *)
Definition trap (errs : Errors) (t : Target) (prop : PropName)
  : Outcome Answer :=
  match prop with
  | Named name => Returned (One (get errs t name))
  | SymbolIterator =>
      if isArray (raw t) then Returned (Iterator (iterate errs t))
      else Threw (ThrownError Js.no_number_of_symbol)
  | OtherSymbol => Threw (ThrownError Js.no_number_of_symbol)
  end.

(** Proxy used by both issues and form.helper: its root target. *)
Definition proxy (input : JsValue) : Target := mkTarget "" input.

Definition createIssues (input : JsValue) : Target := proxy input.

Definition form_helper (data : JsValue) : Target := proxy data.

(** The child a chain of property reads [t.p1.p2...] arrives at, [None]
    once a read hands back something else than a proxy. *)
Fixpoint navigate (errs : Errors) (t : Target) (props : list string)
  : option Target :=
  match props with
  | [] => Some t
  | p :: ps =>
      match get errs t p with
      | AChild c => navigate errs c ps
      | _ => None
      end
  end.

End Helper.

(* ------------------------------------------------------------------ *)
(** ** types.ts *)

Inductive PrimitiveType : Type := PString | PBoolean | PNumber | PBigint | PFile.

(** The kind [coerce] is asked for: [PrimitiveType | "array" | "object"]. *)
Inductive Expected : Type :=
| EPrimitive (k : PrimitiveType)
| EArray
| EObject.

(** [PropertyType]: a primitive, a nested schema, or a one-element array
    of a primitive or of a nested schema. *)
Inductive PropertyType : Type :=
| SPrimitive (k : PrimitiveType)
| SObject (fields : list (string * PropertyType))
| SArrayOfPrimitive (k : PrimitiveType)
| SArrayOfObject (fields : list (string * PropertyType)).

(** [Schema = Record<string, PropertyType>] *)
Abbreviation Schema := (list (string * PropertyType)).

(** [Property], over the type [T] of its [type] field. *)
Record PropertyOf (T : Type) : Type := mkProperty {
  key : PropKey;
  alias : option string;
  type : T;
  optional : bool
}.
Arguments mkProperty {T}.
Arguments key {T}.
Arguments alias {T}.
Arguments type {T}.
Arguments optional {T}.

(** The [type] of a property: a primitive, the properties of a nested
    object, or [[item]].  (The declared type keeps arrays out of [item];
    [validate] reads whatever is there.) *)
Inductive PType : Type :=
| TPrimitive (k : PrimitiveType)
| TObject (props : list (string * PropertyOf PType))
| TArray (item : PType).

Abbreviation Property := (PropertyOf PType).

(** [BasicError] *)
Inductive BasicError : Type :=
| ErrException (error : Thrown)
| ErrRequired (received : string)
| ErrType (expected received : string)
| ErrArray (limit length : JsNumber).

(** [ErrorMessageOverride]: [(key, error) => string | undefined] *)
Definition ErrorMessageOverride : Type := string -> BasicError -> option string.

Record ValidatorOptions : Type := mkOptions {
  arrayLimit : option JsNumber;
  errorMessage : option ErrorMessageOverride
}.

Record ValidationResult : Type := mkResult {
  success : bool;
  data : JsValue;
  result_errors : Errors
}.

(** What is handed to a validator: a value, or the entries of a
    [FormData] or of a [URLSearchParams] in their order. *)
Inductive Input : Type :=
| Plain (v : JsValue)
| KeyValues (entries : list (string * JsValue)).

(** A computation over the error map of one call that returns or throws. *)
Definition Eff (A : Type) : Type := Errors -> Errors * (A + Thrown).

Module Eff.

Definition ret {A} (a : A) : Eff A := fun errs => (errs, inl a).

Definition throw {A} (e : Thrown) : Eff A := fun errs => (errs, inr e).

Definition bind {A B} (m : Eff A) (k : A -> Eff B) : Eff B :=
  fun errs =>
    match m errs with
    | (errs', inl a) => k a errs'
    | (errs', inr e) => (errs', inr e)
    end.

(** [issues.a.b.push(error)] *)
Definition push (t : Target) (error : PushArg) : Eff unit :=
  fun errs =>
    if Helper.push_throws t errs
    then (errs, inr (ThrownError (Js.cannot_read "undefined" "push")))
    else (Helper.push t error errs, inl tt).

(** [issues.a.b]: reading properties never throws, a read that hands
    back no proxy leaves nothing to push to. *)
Definition at_path (issues : Target) (props : list string)
  : Eff (option Target) :=
  fun errs => (errs, inl (Helper.navigate errs issues props)).

End Eff.

#[global] Instance eff_ret : MRet Eff := @Eff.ret.
#[global] Instance eff_bind : MBind Eff := fun A B k m => Eff.bind m k.

(** [ValidatorCallback]: [(data, issues, ctx) => void] *)
Definition ValidatorCallback : Type :=
  JsValue -> Target -> ValidatorOptions -> Eff unit.

(* ------------------------------------------------------------------ *)
(** ** validator.ts *)

(** What [getErrorMessage] is asked to word: its [code] together with the
    [inputOrException] and the [expected] that the callers pass with it. *)
Inductive Problem : Type :=
| Required (input : JsValue)
| TypeMismatch (input : JsValue) (expected : Expected)
| ArrayTooLong (sourceArr : list JsValue) (limit : JsNumber)
| Exception (error : Thrown).

Module Validator.

Import Helper.

Definition TRUE : list JsValue := [VString "true"; VString "1"; VNumber (NInt 1)].
Definition FALSE : list JsValue := [VString "false"; VString "0"; VNumber (NInt 0)].
Definition DEFAULT_ARRAY_LIMIT : JsNumber := NInt 50.

(** [xs.includes(v)] for a list [xs] of strings and numbers. *)
Definition includes (xs : list JsValue) (v : JsValue) : bool :=
  existsb (fun x =>
    match x, v with
    | VString a, VString b => String.eqb a b
    | VNumber a, VNumber b => Num.same_value_zero a b
    | _, _ => false
    end) xs.

Definition object (schema : Schema) : Schema := schema.

(** [Object.fromEntries] over properties. *)
Fixpoint set_entry {V} (k : string) (v : V) (es : list (string * V))
  : list (string * V) :=
  match es with
  | [] => [(k, v)]
  | (k', v') :: r =>
      if String.eqb k k' then (k, v) :: r else (k', v') :: set_entry k v r
  end.

Definition fromEntries {V} (es : list (string * V)) : list (string * V) :=
  fold_left (fun acc '(k, v) => set_entry k v acc) es [].

(** One entry of [parseSchema]: the body of its [map]. *)
Fixpoint parseEntry (k : string) (t : PropertyType) {struct t}
  : string * Property :=
  let optional := Str.ends_with_char "?" k in
  let parts := Str.split ":" (Str.remove_first "?" k) in
  let name := hd "" parts in
  let alias := hd_error (tl parts) in
  let nested fs :=
    TObject (fromEntries (List.map (fun '(k', t') => parseEntry k' t') fs)) in
  let propertyType :=
    match t with
    | SPrimitive p => TPrimitive p
    | SObject fs => nested fs
    | SArrayOfPrimitive p => TArray (TPrimitive p)
    | SArrayOfObject fs => TArray (nested fs)
    end in
  (name, mkProperty (KStr name) alias propertyType optional).

Definition parseSchema (schema : Schema) : list (string * Property) :=
  fromEntries (List.map (fun '(k, t) => parseEntry k t) schema).

(** [coerce] throws: [String(input)] and [Number(input)] stand outside any
    [try], the one around [BigInt(input)] catches what that throws. *)
Definition coerce_throws (input : JsValue) (type : Expected) : bool :=
  match type with
  | EObject | EArray => false
  | EPrimitive p =>
      let input :=
        match input with
        | VArray [x] => x
        | _ => input
        end in
      match p, input with
      | PString, VString _ => false
      | PString, _ => negb (Js.converts input)
      | PNumber, VNumber _ => false
      | PNumber, _ => negb (Js.converts input)
      | _, _ => false
      end
  end.

(** What [coerce] returns, when it returns. *)
Definition coerce (input : JsValue) (type : Expected) : JsValue :=
  match type with
  | EObject => if isObject input then input else VUndefined
  | EArray => if isArray input then input else VArray [input]
  | EPrimitive p =>
      let input :=
        match input with
        | VArray [x] => x
        | _ => input
        end in
      match p with
      | PString =>
          match input with
          | VString _ => input
          | _ => VString (Js.to_string input)
          end
      | PBoolean =>
          match input with
          | VBool _ => input
          | _ =>
              if includes TRUE input then VBool true
              else if includes FALSE input then VBool false
              else VUndefined
          end
      | PNumber =>
          match input with
          | VNumber _ => input
          | _ =>
              let value := Js.to_number input in
              if Num.isNaN value then VUndefined else VNumber value
          end
      | PBigint =>
          match input with
          | VBigInt _ => input
          | _ => from_option VBigInt VUndefined (Js.to_bigint input)
          end
      | PFile =>
          match input with
          | VFile _ => input
          | _ => VUndefined
          end
      end
  end.

Fixpoint defaultValueOf (type : PType) : JsValue :=
  match type with
  | TPrimitive PString => VString ""
  | TPrimitive PBoolean => VBool false
  | TPrimitive PNumber => VNumber (NInt 0)
  | TPrimitive PFile => VFile (mkFile "" [])
  | TPrimitive PBigint => VBigInt 0
  | TArray _ => VArray []
  | TObject props =>
      Js.from_entries
        (List.map (fun '(k, mkProperty _ _ childType _) =>
                     (k, defaultValueOf childType)) props)
  end.

Definition defaultValue (property : Property) : JsValue :=
  defaultValueOf (type property).

(** [s.replace(/([a-z])([A-Z])/g, ([l, u]) => `${l} ${u}`)] *)
Fixpoint space_words (s : string) : string :=
  match s with
  | String l (String u _ as r) =>
      if Chars.is_lower l && Chars.is_upper u
      then String l (String " " (space_words r))
      else String l (space_words r)
  | _ => s
  end.

Definition getDisplayName (p : string) : string :=
  let arr := Str.split "." p in
  let name := List.last arr "" in
  let first := Str.to_upper (Str.take 1 name) in
  let rest := space_words (Str.drop 1 name) in
  first +:+ rest.

Definition expected_name (e : Expected) : string :=
  match e with
  | EPrimitive PString => "string"
  | EPrimitive PBoolean => "boolean"
  | EPrimitive PNumber => "number"
  | EPrimitive PBigint => "bigint"
  | EPrimitive PFile => "file"
  | EArray => "array"
  | EObject => "object"
  end.

(** [override?.(key, error) ?? fallback] *)
Definition overridden (override : option ErrorMessageOverride)
    (k : string) (error : BasicError) (fallback : string) : string :=
  match override with
  | Some f => default fallback (f k error)
  | None => fallback
  end.

(** What [getErrorMessage] hands back: a string; only the wording of an
    exception reads a property of what was thrown, and so may throw
    itself. *)
Definition Worded (problem : Problem) : Type :=
  match problem with
  | Exception _ => Outcome string
  | _ => string
  end.

Definition getErrorMessage (p : string) (problem : Problem)
    (override : option ErrorMessageOverride) : Worded problem :=
  let k := getKey p in
  match problem as problem return Worded problem with
  | Required input =>
      let name := getDisplayName k in
      overridden override k (ErrRequired (Js.typeof input))
        (name +:+ " is required")
  | TypeMismatch input expected =>
      let received :=
        match stringify input with
        | EmptyString => Js.typeof input
        | s => s
        end in
      overridden override k (ErrType (expected_name expected) received)
        ("Expected '" +:+ expected_name expected +:+ "', received '"
           +:+ received +:+ "'")
  | ArrayTooLong sourceArr limit =>
      let len := Num.of_nat (length sourceArr) in
      overridden override k (ErrArray limit len)
        ("Array length " +:+ Num.to_string len +:+ " is greater than limit "
           +:+ Num.to_string limit)
  | Exception error =>
      match from_option (fun f => f k (ErrException error)) None override with
      | Some answer => Returned answer
      | None =>
          match Js.message_text error with
          | Returned text => Returned ("Exception: " +:+ text)
          | Threw e => Threw e
          end
      end
  end.

(** [isArray(type) ? "array" : isObject(type) ? "object" : type] *)
Definition expected_of (type : PType) : Expected :=
  match type with
  | TArray _ => EArray
  | TObject _ => EObject
  | TPrimitive p => EPrimitive p
  end.

Definition is_array_type (type : PType) : bool :=
  match type with TArray _ => true | _ => false end.

Definition elements (v : JsValue) : list JsValue :=
  match v with VArray xs => xs | _ => [] end.

(** [`${path}[${i}]`] and [isRoot ? childKey : `${path}.${childKey}`] *)
Definition itemPath (p : string) (i : nat) : string :=
  p +:+ "[" +:+ Num.to_string (Num.of_nat i) +:+ "]".

Definition childPath (p : string) (childKey : string) : string :=
  if String.eqb p "" then childKey else p +:+ "." +:+ childKey.

(** [validate], the fields of [property] taken one by one so that the
    recursion is on its [type].  It returns [target], [safeTarget] and
    [errors] as it leaves them, and what it threw if it threw: [coerce] and
    [addError] can throw, and after a throw nothing more is done.  An array
    or an object that the source assigns to [target[key]] first and fills
    afterwards is assigned here once it is filled, as far as it was
    filled. *)
Fixpoint validate_type (type : PType) (p : string) (k : PropKey)
    (alias : option string) (optional : bool)
    (source target safeTarget : JsValue) (options : ValidatorOptions)
    (errs : Errors) {struct type}
  : JsValue * JsValue * Errors * option Thrown :=
  let property := mkProperty k alias type optional in
  let isRoot := String.eqb p "" in
  let errorMessage := errorMessage options in
  let arrayLimit := default DEFAULT_ARRAY_LIMIT (arrayLimit options) in
  let thrown := Some (ThrownError (Js.cannot_read "undefined" "push")) in
  let input :=
    if isRoot then source else Js.get source (from_option KStr k alias) in
  if Js.is_nullish input then
    if negb optional && addError_throws errs p
    then (target, safeTarget, errs, thrown)
    else
      let errs :=
        if optional then errs
        else addError errs p (getErrorMessage p (Required input) errorMessage)
               input in
      if isRoot then (target, safeTarget, errs, None)
      else (Js.set target k (if is_array_type type then VArray [] else input),
            Js.set safeTarget k (defaultValue property), errs, None)
  else
    let expected := expected_of type in
    if coerce_throws input expected
    then (target, safeTarget, errs, Some (ThrownError Js.no_primitive))
    else
      let value := coerce input expected in
      if Js.is_nullish value then
        if addError_throws errs p then (target, safeTarget, errs, thrown)
        else
          let errs :=
            addError errs p
              (getErrorMessage p (TypeMismatch input expected) errorMessage)
              input in
          if isRoot then (target, safeTarget, errs, None)
          else (Js.set target k value,
                Js.set safeTarget k (defaultValue property), errs, None)
      else
        match type with
        | TPrimitive _ =>
            (Js.set target k value,
             Js.set safeTarget k (defaultValue property), errs, None)
        | TArray item =>
            let sourceArr := elements value in
            if Num.lt_nat arrayLimit (length sourceArr) then
              if addError_throws errs p
              then (Js.set target k (VArray []),
                    Js.set safeTarget k (VArray []), errs, thrown)
              else (Js.set target k (VArray []),
                    Js.set safeTarget k (VArray []),
                    addError errs p
                      (getErrorMessage p (ArrayTooLong sourceArr arrayLimit)
                         errorMessage)
                      VUndefined,
                    None)
            else
              let '(targetArr, safeTargetArr, errs, x) :=
                fold_left
                  (fun '(t, s, e, x) i =>
                     match x with
                     | Some _ => (t, s, e, x)
                     | None =>
                         validate_type item (itemPath p i) (KIdx i) None false
                           (VArray sourceArr) t s options e
                     end)
                  (seq 0 (length sourceArr))
                  (VArray [], VArray [], errs, None) in
              (Js.set target k targetArr, Js.set safeTarget k safeTargetArr,
               errs, x)
        | TObject props =>
            let sourceObj := value in
            let '(targetObj, safeTargetObj, errs, x) :=
              fold_left
                (fun '(t, s, e, x) '(childKey, mkProperty ck ca childType co) =>
                   match x with
                   | Some _ => (t, s, e, x)
                   | None =>
                       validate_type childType (childPath p childKey) ck ca co
                         sourceObj t s options e
                   end)
                props
                (if isRoot then target else VObject [],
                 if isRoot then safeTarget else VObject [],
                 errs, None) in
            if isRoot then (targetObj, safeTargetObj, errs, x)
            else (Js.set target k targetObj, Js.set safeTarget k safeTargetObj,
                  errs, x)
        end.

Definition validate (p : string) (property : Property)
    (source target safeTarget : JsValue) (options : ValidatorOptions)
    (errs : Errors) : JsValue * JsValue * Errors * option Thrown :=
  validate_type (type property) p (key property) (alias property)
    (optional property) source target safeTarget options errs.

End Validator.

Module Dset.

(** Modelled from the spec: [dset(obj, keys, val)] of the package [dset],
    which [normalizeInput] imports and [src/] does not hold.  It assigns
    [val] at the dotted path [keys] of [obj], "building intermediate
    objects/arrays as needed by numeric-segment detection": a missing
    intermediate value becomes an array when the next segment reads as a
    finite number and has no dot, an object otherwise; the walk stops
    at a segment named [__proto__], [constructor] or [prototype]. *)
Fixpoint assign (t : JsValue) (keys : list string) (val : JsValue)
  : JsValue :=
  match keys with
  | [] => t
  | k :: rest =>
      if String.eqb k "__proto__" || String.eqb k "constructor"
         || String.eqb k "prototype"
      then t
      else
        match rest with
        | [] => Js.set t (KStr k) val
        | next :: _ =>
            let x := Js.get t (KStr k) in
            let child :=
              if String.eqb (Js.typeof x) "object" then x
              else if Num.times_zero_is_not_zero (Num.of_string next)
                      || Str.contains_char "." next
              then VObject []
              else VArray [] in
            Js.set t (KStr k) (assign child rest val)
        end
  end.

Definition dset (obj : JsValue) (keys : string) (val : JsValue) : JsValue :=
  assign obj (Str.split "." keys) val.

End Dset.

Module Entry.

Import Helper Validator.

(** [input.getAll(key)] *)
Definition getAll (entries : list (string * JsValue)) (k : string)
  : list JsValue :=
  List.map snd (List.filter (fun e => String.eqb (fst e) k) entries).

Definition normalizeInput (input : Input) : JsValue :=
  match input with
  | KeyValues entries =>
      fold_left
        (fun source k =>
           let value := VArray (getAll entries k) in
           (* foo[0] => foo.0 *)
           let p := replace_indices (fun ds => "." +:+ ds) (String.length k) k in
           Dset.dset source p value)
        (List.map fst entries) (VObject [])
  | Plain v => v
  end.

Definition isValidInput (input : JsValue) (errs : Errors)
    (options : ValidatorOptions) : bool * Errors :=
  if isObject input then (true, errs)
  else
    let type :=
      if isArray input then VString "array"
      else match input with
           | VNull => VString "null"
           | _ => Js.constructor_name input
           end in
    let msg :=
      getErrorMessage "" (TypeMismatch type EObject) (errorMessage options) in
    (false, addError errs "" msg VUndefined).

(** [Object.keys(errors)] *)
Definition keys (errs : Errors) : list string := (map_to_list errs).*1.

(** The [try] block of [schemaValidator]: [data] and the error map as the
    block leaves them, with what it threw if it threw, be it in [validate]
    or in the callback. *)
Definition attempt (root : Property) (callback : option ValidatorCallback)
    (input : JsValue) (ctx : ValidatorOptions)
    (data safeData : JsValue) (errs : Errors)
  : JsValue * Errors * option Thrown :=
  match isValidInput input errs ctx with
  | (true, errs) =>
      match validate "" root input data safeData ctx errs with
      | (data, _, errs, Some error) => (data, errs, Some error)
      | (data, safeData, errs, None) =>
          match callback with
          | Some callback =>
              let issues := createIssues input in
              match callback safeData issues ctx errs with
              | (errs, inl _) => (data, errs, None)
              | (errs, inr error) => (data, errs, Some error)
              end
          | None => (data, errs, None)
          end
      end
  | (false, errs) => (data, errs, None)
  end.

(** A call of the validator returns a result, or throws what the [catch]
    block throws when it cannot word what it caught. *)
Definition schemaValidator (schema : Schema)
    (callback : option ValidatorCallback)
    (input : Input) (ctx : option ValidatorOptions)
  : Outcome ValidationResult :=
  let type := parseSchema schema in
  let ctx := default (mkOptions None None) ctx in
  let input := normalizeInput input in
  let data := VObject [] in
  let safeData := VObject [] in
  let root := mkProperty (KStr "") None (TObject type) false in
  let errs : Errors := ∅ in
  match attempt root callback input ctx data safeData errs with
  | (data, errs, None) =>
      Returned (mkResult (length (keys errs) =? 0)%nat data errs)
  | (data, errs, Some error) =>
      match getErrorMessage "" (Exception error) (errorMessage ctx) with
      | Returned message =>
          let errs := addError errs "" message VUndefined in
          Returned (mkResult (length (keys errs) =? 0)%nat data errs)
      | Threw e => Threw e
      end
  end.

(** [validator.for(schema, callback)] *)
Definition createValidator (schema : Schema)
    (callback : option ValidatorCallback) :=
  schemaValidator schema callback.

End Entry.

(* ------------------------------------------------------------------ *)
(** ** Vocabulary of the statements *)

Import Helper Validator Entry.

(** A run of recordings [(path, message, raw input)] in their order. *)
Definition record_all (errs : Errors)
    (rs : list (string * string * JsValue)) : Errors :=
  fold_left (fun e '(p, m, v) => addError e p m v) rs errs.

(** The raw inputs recorded at [p], in their order. *)
Definition inputs_at (p : string) (rs : list (string * string * JsValue))
  : list JsValue :=
  List.map snd (List.filter (fun r => String.eqb (fst (fst r)) p) rs).

(** The root property [{ key: "", type }] of [schemaValidator]. *)
Definition root_of (schema : Schema) : Property :=
  mkProperty (KStr "") None (TObject (parseSchema schema)) false.

(** [ctx ??= {}] *)
Definition ctx_of (ctx : option ValidatorOptions) : ValidatorOptions :=
  default (mkOptions None None) ctx.

(** The structural pass of a call: [validate("", root, input, {}, {}, ctx,
    {})] on the normalized input. *)
Definition structural_pass (schema : Schema) (input : Input)
    (ctx : option ValidatorOptions)
  : JsValue * JsValue * Errors * option Thrown :=
  validate "" (root_of schema) (normalizeInput input) (VObject []) (VObject [])
    (ctx_of ctx) ∅.

(** The message of the root error a thrown [error] is demoted to, where
    wording it returns. *)
Definition exception_message (ctx : option ValidatorOptions)
    (error : Thrown) : Outcome string :=
  getErrorMessage "" (Exception error) (errorMessage (ctx_of ctx)).

(** The input a field reads: [isRoot ? source : source[alias ?? key]]. *)
Definition field_input (p : string) (k : PropKey) (alias : option string)
    (source : JsValue) : JsValue :=
  if String.eqb p "" then source else Js.get source (from_option KStr k alias).

(** The names the [get] trap answers itself instead of descending:
    [length] on an array, and [push], [path], [value] and [errors]. *)
Definition is_terminal (parent : JsValue) (prop : string) : bool :=
  (isArray parent && String.eqb prop "length")
  || existsb (String.eqb prop) ["push"; "path"; "value"; "errors"].

(** The value a child proxy is over: [parent[prop]] under an array or an
    object, [undefined] under anything else. *)
Definition child_value (parent : JsValue) (prop : string) : JsValue :=
  if isArray parent || isObject parent then Js.get parent (KStr prop)
  else VUndefined.

(** The target of the child proxy that reading [prop] creates. *)
Definition child_of (t : Target) (prop : string) : Target :=
  mkTarget (makePath (path t) prop) (child_value (raw t) prop).

(** The target a chain of reads ends at when every read descends. *)
Definition walk (t : Target) (props : list string) : Target :=
  fold_left child_of props t.

(** No read of the chain is one the trap answers itself. *)
Fixpoint fields_only (t : Target) (props : list string) : bool :=
  match props with
  | [] => true
  | prop :: rest =>
      negb (is_terminal (raw t) prop) && fields_only (child_of t prop) rest
  end.

(** The loop of [validate] over the elements of an array, as far as the
    index [n]: [validate] at [`${path}[${i}]`] with the item property
    [{ key: i, optional: false, type: type[0] }], for [i] from [0] up,
    writing to two fresh arrays, until one of them throws. *)
Definition validate_upto (n : nat) (item : PType) (p : string)
    (sourceArr : list JsValue) (options : ValidatorOptions) (errs : Errors)
  : JsValue * JsValue * Errors * option Thrown :=
  fold_left
    (fun '(targetArr, safeTargetArr, errs, x) i =>
       match x with
       | Some _ => (targetArr, safeTargetArr, errs, x)
       | None =>
           validate (itemPath p i) (mkProperty (KIdx i) None item false)
             (VArray sourceArr) targetArr safeTargetArr options errs
       end)
    (seq 0 n)
    (VArray [], VArray [], errs, None).

(** The whole loop. *)
Definition validate_items (item : PType) (p : string)
    (sourceArr : list JsValue) (options : ValidatorOptions) (errs : Errors)
  : JsValue * JsValue * Errors * option Thrown :=
  validate_upto (length sourceArr) item p sourceArr options errs.

(** [q] is [p] followed by something. *)
Definition extends (p q : string) : Prop := ∃ sfx, q = p +:+ sfx.

Module Examples.

(** [{ name: "string", age: "number", "nickname?": "string" }] *)
Definition person : Schema :=
  [("name", SPrimitive PString); ("age", SPrimitive PNumber);
   ("nickname?", SPrimitive PString)].

(** [{ name: "Jo", age: "20x" }] *)
Definition jo : Input :=
  Plain (VObject [("name", VString "Jo"); ("age", VString "20x")]).

(** [{ age: "number" }] and [{ age: "25" }] *)
Definition aged : Schema := [("age", SPrimitive PNumber)].
Definition twenty_five : Input := Plain (VObject [("age", VString "25")]).

(** The callback of the README and of the JSDoc of [validator.for]:
    [(data, issues) => { if (data.age < 18) issues.age.push("Must be 18 or
    older") }] *)
Definition adults_only : ValidatorCallback :=
  fun data issues _ =>
    match Js.get data (KStr "age") with
    | VNumber (NInt age) =>
        if age <? 18 then
          t ← Eff.at_path issues ["age"];
          from_option (fun t => Eff.push t (Message "Must be 18 or older"))
            (mret tt) t
        else mret tt
    | _ => mret tt
    end.

(** [{ foo: ["string"] }], [foo[0]=a&foo[1]=b] and [{ foo: [a, b] }] *)
Definition foos : Schema := [("foo", SArrayOfPrimitive PString)].
Definition foo_flat (a b : string) : Input :=
  KeyValues [("foo[0]", VString a); ("foo[1]", VString b)].
Definition foo_nested (a b : string) : Input :=
  Plain (VObject [("foo", VArray [VString a; VString b])]).

(** [() => { throw new Error("boom") }] *)
Definition boom : ValidatorCallback :=
  fun _ _ _ => Eff.throw (ThrownError (mkError "boom")).

(** [() => { throw null }] *)
Definition throw_null : ValidatorCallback :=
  fun _ _ _ => Eff.throw (ThrownValue VNull).


(** [(key, err) => key === "" && err.code === "exception"
      ? "An error occurred" : undefined] *)
Definition exception_override : ErrorMessageOverride :=
  fun k err =>
    match err with
    | ErrException _ => if String.eqb k "" then Some "An error occurred" else None
    | _ => None
    end.

(** [{ "alias:aka": "number" }] and [{ aka: "x", alias: "y" }] *)
Definition aliased : Schema := [("alias:aka", SPrimitive PNumber)].
Definition two_spellings : Input :=
  Plain (VObject [("aka", VString "x"); ("alias", VString "y")]).

(** [(data, issues) => issues.alias.push("bad")] *)
Definition push_alias : ValidatorCallback :=
  fun _ issues _ =>
    t ← Eff.at_path issues ["alias"];
    from_option (fun t => Eff.push t (Message "bad")) (mret tt) t.

(** [{ tags: ["string"] }] and [{ tags: ["a", "b", "c"] }] *)
Definition tags : PType := TArray (TPrimitive PString).
Definition three_tags : JsValue :=
  VObject [("tags", VArray [VString "a"; VString "b"; VString "c"])].

(** [{ value: "string" }] and [{ value: "v" }] *)
Definition valued : Schema := [("value", SPrimitive PString)].
Definition a_value : JsValue := VObject [("value", VString "v")].

(** The schema and the inputs of [index.test.ts]. *)
Definition schema : Schema :=
  [("string", SPrimitive PString);
   ("number", SPrimitive PNumber);
   ("boolean", SPrimitive PBoolean);
   ("file", SPrimitive PFile);
   ("bigint", SPrimitive PBigint);
   ("array", SArrayOfPrimitive PString);
   ("object",
    SObject [("a", SPrimitive PNumber);
             ("b", SObject [("c", SPrimitive PString);
                            ("d", SArrayOfObject [("e", SPrimitive PString)])])]);
   ("optional?", SPrimitive PNumber);
   ("alias:aka", SPrimitive PString)].

Definition a_txt : JsValue := VFile (mkFile "a.txt" []).

Definition input : list (string * JsValue) :=
  [("string", VString "string");
   ("number", VNumber (NInt 1));
   ("boolean", VBool true);
   ("file", a_txt);
   ("bigint", VBigInt 1);
   ("array", VArray [VString "a"; VString "b"; VString "c"]);
   ("object",
    VObject [("a", VNumber (NInt 1));
             ("b", VObject [("c", VString "c");
                            ("d", VArray [VObject [("e", VString "e")]])])]);
   ("aka", VString "jdoe")].

(** [{ ...rest, optional: undefined, alias: "jdoe" }] *)
Definition expected_data : JsValue :=
  VObject
    [("string", VString "string");
     ("number", VNumber (NInt 1));
     ("boolean", VBool true);
     ("file", a_txt);
     ("bigint", VBigInt 1);
     ("array", VArray [VString "a"; VString "b"; VString "c"]);
     ("object",
      VObject [("a", VNumber (NInt 1));
               ("b", VObject [("c", VString "c");
                              ("d", VArray [VObject [("e", VString "e")]])])]);
     ("optional", VUndefined);
     ("alias", VString "jdoe")].

Definition formdata : Input :=
  KeyValues
    [("string", VString "string"); ("number", VString "1");
     ("boolean", VString "true"); ("file", a_txt); ("bigint", VString "1");
     ("array", VString "a"); ("array", VString "b"); ("array", VString "c");
     ("object.a", VString "1"); ("object.b.c", VString "c");
     ("object.b.d[0].e", VString "e"); ("aka", VString "jdoe")].

Definition invalid : JsValue :=
  VObject
    [("number", VObject []);
     ("boolean", VString "b");
     ("array", VArray [VUndefined; VNull]);
     ("object",
      VObject [("a", VString "a");
               ("b", VObject [("d", VArray [VNull; VObject []])])]);
     ("extra", VBool true)].

(** [{ object: { b: { d: [null] } } }] *)
Definition sparse : JsValue :=
  VObject [("object", VObject [("b", VObject [("d", VArray [VNull])])])].

(** [issues.object.b.d[0].e.push(...)], twice *)
Definition push_twice : ValidatorCallback :=
  fun _ issues _ =>
    t ← Eff.at_path issues ["object"; "b"; "d"; "0"; "e"];
    from_option
      (fun t =>
         Eff.push t (Message "string cannot be empty");;
         Eff.push t (KeyToMessage
                       (fun k => "translated error for key '" +:+ k +:+ "'")))
      (mret tt) t.

End Examples.

(** Every character of [s] satisfies [p]. *)
Fixpoint chars_all (p : ascii → bool) (s : string) : bool :=
  match s with
  | EmptyString => true
  | String c r => p c && chars_all p r
  end.

(** A character at which an index segment under way breaks off. *)
Definition breaks (b : ascii) : Prop :=
  Chars.is_space b = false ∧ Chars.is_digit b = false ∧ b ≠ "]"%char.

(** [v] is a value of the kind [e]: what [typeof], [Array.isArray],
    [isObject] and [instanceof File] tell apart. *)
Definition has_kind (e : Expected) (v : JsValue) : bool :=
  match e, v with
  | EPrimitive PString, VString _
  | EPrimitive PBoolean, VBool _
  | EPrimitive PNumber, VNumber _
  | EPrimitive PBigint, VBigInt _
  | EPrimitive PFile, VFile _
  | EArray, VArray _ => true
  | EObject, _ => isObject v
  | _, _ => false
  end.



(** The declaration [k: t] of a schema gives the field [name] with the
    alias [al] and the optionality [opt]. *)
Definition declares (k : string) (t : PropertyType)
    (name : string) (al : option string) (opt : bool) : Prop :=
  fst (parseEntry k t) = name
  ∧ key (snd (parseEntry k t)) = KStr name
  ∧ alias (snd (parseEntry k t)) = al
  ∧ optional (snd (parseEntry k t)) = opt.

(** [errs'] holds all of [errs]: every entry of [errs] is in [errs'] with
    the same value and with its messages, in their order, at the front. *)
Definition grows (errs errs' : Errors) : Prop :=
  ∀ q e, errs !! q = Some e →
    ∃ e', errs' !! q = Some e' ∧ value e' = value e
          ∧ ∃ more, errors e' = (errors e ++ more)%list.

(** The messages recorded at [q], none when [q] has no entry. *)
Definition messages_at (errs : Errors) (q : string) : list string :=
  from_option errors [] (errs !! q).

(** The input conforms to the type: it is there unless the field is
    optional, it coerces to the expected kind, an array is within the limit
    and each of its elements conforms, an object has a conforming value
    under the alias or the key of each declared child. *)
Fixpoint accepts (limit : JsNumber) (type : PType) (optional : bool)
    (input : JsValue) {struct type} : bool :=
  if Js.is_nullish input then optional
  else
    let value := coerce input (expected_of type) in
    if Js.is_nullish value then false
    else
      match type with
      | TPrimitive _ => true
      | TArray item =>
          negb (Num.lt_nat limit (length (elements value)))
          && forallb (accepts limit item false) (elements value)
      | TObject props =>
          forallb
            (fun '(_, mkProperty ck ca childType co) =>
               accepts limit childType co (Js.get value (from_option KStr ck ca)))
            props
      end.

(** A plain object conforms to a schema under the options of a call. *)
Definition conforms (schema : Schema) (ctx : option ValidatorOptions)
    (v : JsValue) : bool :=
  accepts (default DEFAULT_ARRAY_LIMIT (arrayLimit (ctx_of ctx)))
    (TObject (parseSchema schema)) false v.

(** No top-level field of the schema has the empty name. *)
Definition all_named (schema : Schema) : bool :=
  forallb (fun e => negb (String.eqb (fst e) "")) (parseSchema schema).

(** [Object.keys(v)] of an object. *)
Definition object_keys (v : JsValue) : list string :=
  match v with VObject fs => fs.*1 | _ => [] end.

(** The properties of an object type, and of the object types below it,
    are declared once each and carry their names as keys: what
    [parseSchema] builds. *)
Fixpoint well_keyed (type : PType) : Prop :=
  match type with
  | TPrimitive _ => True
  | TArray item => well_keyed item
  | TObject props =>
      NoDup props.*1
      ∧ (fix each (l : list (string * Property)) : Prop :=
           match l with
           | [] => True
           | (n, mkProperty ck _ childType _) :: r =>
               ck = KStr n ∧ well_keyed childType ∧ each r
           end) props
  end.

(** [v] has the shape of the type: a primitive of the kind, an array of
    shaped elements, an object with exactly the declared names, in their
    order, each bound to a shaped value. *)
Fixpoint shaped (type : PType) (v : JsValue) {struct type} : bool :=
  match type with
  | TPrimitive kind => has_kind (EPrimitive kind) v
  | TArray item =>
      match v with
      | VArray xs => forallb (shaped item) xs
      | _ => false
      end
  | TObject props =>
      match v with
      | VObject fs =>
          bool_decide (fs.*1 = props.*1)
          && forallb
               (fun '(n, mkProperty _ _ childType _) =>
                  shaped childType (default VUndefined (Js.field n fs)))
               props
      | _ => false
      end
  end.

(** A form key that is one plain name: no dot, no bracket, and none of
    the names [dset] stops at. *)
Definition simple_key (k : string) : bool :=
  negb (Str.contains_char "." k) && negb (Str.contains_char "[" k)
  && negb (String.eqb k "__proto__" || String.eqb k "constructor"
           || String.eqb k "prototype").

(** A schema of primitive fields only, as a form without nesting has. *)
Definition flat (schema : Schema) : bool :=
  forallb (fun e => match snd e with SPrimitive _ => true | _ => false end)
    schema.

(** What [validate] leaves in [target[key]] for the [input] of a primitive
    field: the input itself when it is missing, what [coerce] made of it
    otherwise. *)
Definition leaf_data (kind : PrimitiveType) (input : JsValue) : JsValue :=
  if Js.is_nullish input then input else coerce input (EPrimitive kind).

(** The text a form shows for the [input] of a primitive field: the
    accepted value, or the input as it was sent when it was rejected. *)
Definition shown (kind : PrimitiveType) (input : JsValue) : string :=
  if Js.is_nullish (leaf_data kind input) then stringify input
  else stringify (leaf_data kind input).

(** A value built of primitives, files, arrays and plain objects: no
    instance of another class, whose conversions are its class's own. *)
Fixpoint plain (v : JsValue) : bool :=
  match v with
  | VInstance _ => false
  | VArray items => forallb plain items
  | VObject fields => forallb (fun e => plain (snd e)) fields
  | _ => true
  end.


(** A value whose numbers binary64 holds and prints digit for digit: the
    whole numbers up to [2^53], the decimals of at most fifteen significant
    digits, [NaN], the infinities and the zeros. *)
Fixpoint exact (v : JsValue) : bool :=
  match v with
  | VNumber (NInt z) => Z.abs z <=? 2 ^ 53
  | VNumber (NFrac _ m sc) =>
      (Zpos m <? 10 ^ 15) && negb (Zpos m mod 10 =? 0) && (Zpos sc <=? 300)
  | VArray items => forallb exact items
  | _ => true
  end.

(** A field name that is read and written as an own property and keeps
    its place among the keys: none that [Object.prototype] defines, and no
    array index. *)
Definition plain_name (n : string) : bool :=
  negb (Js.inherited n)
  && match Js.key_index (KStr n) with Some _ => false | None => true end.

(** The names, keys and aliases of a type are plain, at every depth. *)
Fixpoint plain_type (type : PType) : bool :=
  match type with
  | TPrimitive _ => true
  | TArray item => plain_type item
  | TObject props =>
      forallb
        (fun '(n, mkProperty ck ca childType _) =>
           plain_name n && plain_name (Js.key_string ck)
           && from_option plain_name true ca && plain_type childType)
        props
  end.

Definition plain_schema (schema : Schema) : bool :=
  plain_type (TObject (parseSchema schema)).
(* ================================================================== *)
(** * Properties *)

Local Open Scope list_scope.

(** ** The error map *)

Section ErrorMap.

Implicit Types (errs : Errors) (p q error : string) (v : JsValue).

Lemma addError_lookup errs p error v :
  addError errs p error v !! p
  = Some (mkEntry (from_option value (stringify v) (errs !! p))
            (from_option errors [] (errs !! p) ++ [error])).
Proof.
  unfold addError. destruct (errs !! p) as [e|]; simpl;
    by rewrite lookup_insert_eq.
Qed.

Lemma addError_lookup_ne errs p q error v :
  p ≠ q → addError errs p error v !! q = errs !! q.
Proof.
  intros Hne. unfold addError.
  destruct (errs !! p); by rewrite lookup_insert_ne.
Qed.

Lemma addError_fresh errs p error v :
  errs !! p = None →
  addError errs p error v !! p = Some (mkEntry (stringify v) [error]).
Proof. intros H. by rewrite addError_lookup, H. Qed.


Lemma keys_empty_iff errs : (length (keys errs) =? 0)%nat = true ↔ errs = ∅.
Proof.
  unfold keys. rewrite Nat.eqb_eq, length_fmap, length_zero_iff_nil.
  apply map_to_list_empty_iff.
Qed.

End ErrorMap.

Lemma record_all_value errs rs p :
  value <$> (record_all errs rs !! p)
  = match errs !! p with
    | Some e => Some (value e)
    | None => stringify <$> head (inputs_at p rs)
    end.
Proof.
  revert errs. induction rs as [|[[q m] v] rs IH]; intros errs; simpl.
  - by destruct (errs !! p).
  - unfold record_all in *. simpl. rewrite IH. unfold inputs_at. simpl.
    destruct (String.eqb_spec q p) as [->|Hne].
    + rewrite addError_lookup. simpl. by destruct (errs !! p).
    + rewrite addError_lookup_ne by done. done.
Qed.

(** C9, as the specification words it, fails: with the schema
    [{ "alias:aka": "number" }] and the input [{ aka: "x", alias: "y" }] the
    structural pass records a type error at [alias] for the raw input ["x"]
    read through the alias; the callback then pushes at [issues.alias], whose
    raw input is ["y"].  The entry keeps the value ["x"] of the first error,
    not the ["y"] of the most recent one. *)
Lemma value_is_not_last_seen :
  match schemaValidator Examples.aliased (Some Examples.push_alias)
          Examples.two_spellings None with
  | Returned r =>
      result_errors r !! "alias"
      = Some (mkEntry "x" ["Expected 'number', received 'x'"; "bad"])
  | Threw _ => False
  end
  ∧ (raw <$> navigate ∅ (createIssues (normalizeInput Examples.two_spellings))
               ["alias"]) = Some (VString "y")
  ∧ stringify (VString "y") ≠ "x".
Proof. vm_compute. by repeat split. Qed.

(** C9 (amended): the [value] stored at a path is the stringified raw input
    supplied with the FIRST error recorded at that path.  Recording an error,
    through [addError] or through [push] of the issues navigator, leaves the
    value of an entry that is already there as it is and stringifies its own
    raw input only when it creates the entry; so after any run of recordings
    that starts from the empty map the value at a path is the stringified
    raw input of the first recording at that path. *)
Theorem error_value_is_first_seen :
  (∀ (errs : Errors) p error v,
      value <$> (addError errs p error v !! p)
      = Some (from_option value (stringify v) (errs !! p)))
  ∧ (∀ (errs : Errors) t arg,
      value <$> (push t arg errs !! path t)
      = Some (from_option value (stringify (raw t)) (errs !! path t)))
  ∧ (∀ rs p,
      value <$> (record_all ∅ rs !! p) = stringify <$> head (inputs_at p rs)).
Proof.
  split; [|split].
  - intros. by rewrite addError_lookup.
  - intros. unfold push. by rewrite addError_lookup.
  - intros. by rewrite record_all_value, lookup_empty.
Qed.

(** ** The result of a call *)

(** A call in terms of its [try] block: the result is built from what the
    block leaves, with the root error of what was thrown added where the
    [catch] block can word it; where it cannot, the call throws. *)
Lemma schemaValidator_unfold schema callback input ctx :
  schemaValidator schema callback input ctx
  = match attempt (root_of schema) callback (normalizeInput input) (ctx_of ctx)
            (VObject []) (VObject []) ∅ with
    | (d, errs, None) => Returned (mkResult (length (keys errs) =? 0)%nat d errs)
    | (d, errs, Some error) =>
        match exception_message ctx error with
        | Returned msg =>
            Returned
              (mkResult
                 (length (keys (addError errs "" msg VUndefined)) =? 0)%nat d
                 (addError errs "" msg VUndefined))
        | Threw e => Threw e
        end
    end.
Proof. reflexivity. Qed.

Lemma schemaValidator_success schema callback input ctx r :
  schemaValidator schema callback input ctx = Returned r →
  success r = (length (keys (result_errors r)) =? 0)%nat.
Proof.
  rewrite schemaValidator_unfold.
  destruct (attempt _ _ _ _ _ _ _) as [[d e] [x|]].
  - destruct (exception_message ctx x); [|discriminate]. by intros [= <-].
  - by intros [= <-].
Qed.

(** The [try] block over an object: the structural pass, and the callback
    when the pass has not thrown. *)
Lemma attempt_object schema callback input ctx :
  isObject (normalizeInput input) = true →
  attempt (root_of schema) callback (normalizeInput input) (ctx_of ctx)
    (VObject []) (VObject []) ∅
  = match structural_pass schema input ctx with
    | (d, _, errs, Some error) => (d, errs, Some error)
    | (d, safe, errs, None) =>
        match callback with
        | Some callback =>
            match callback safe (createIssues (normalizeInput input))
                    (ctx_of ctx) errs with
            | (errs, inl _) => (d, errs, None)
            | (errs, inr error) => (d, errs, Some error)
            end
        | None => (d, errs, None)
        end
    end.
Proof.
  intros Hobj. unfold attempt, isValidInput, structural_pass. by rewrite Hobj.
Qed.

(** The [data] of a result is the render data of the structural pass,
    whatever the callback does. *)
Lemma schemaValidator_data schema callback input ctx r :
  isObject (normalizeInput input) = true →
  schemaValidator schema callback input ctx = Returned r →
  data r = (structural_pass schema input ctx).1.1.1.
Proof.
  intros Hobj. rewrite schemaValidator_unfold, attempt_object by done.
  destruct (structural_pass schema input ctx) as [[[d safe] errs1] [x|]].
  - simpl. destruct (exception_message ctx x); [|discriminate]. by intros [= <-].
  - simpl. destruct callback as [callback|]; [|by intros [= <-]].
    destruct (callback _ _ _ _) as [errs2 [[]|error]]; [by intros [= <-]|].
    destruct (exception_message ctx error); [|discriminate]. by intros [= <-].
Qed.

(** C2: for every schema, callback (or none), input and options, a call
    that returns returns a result whose [success] is [true] exactly when its
    error map is empty; that map is the one left by the structural pass
    followed by the callback, with the root error of a thrown exception
    added to it.  The call throws only where the [catch] block cannot word
    what it caught. *)
Theorem success_iff_no_errors schema callback input ctx :
  match schemaValidator schema callback input ctx,
        attempt (root_of schema) callback (normalizeInput input)
          (ctx_of ctx) (VObject []) (VObject []) ∅ with
  | Returned r, (_, errs, None) =>
      (success r = true ↔ result_errors r = ∅) ∧ result_errors r = errs
  | Returned r, (_, errs, Some error) =>
      (success r = true ↔ result_errors r = ∅)
      ∧ ∃ msg, exception_message ctx error = Returned msg
               ∧ result_errors r = addError errs "" msg VUndefined
  | Threw e, (_, _, Some error) => exception_message ctx error = Threw e
  | Threw _, (_, _, None) => False
  end.
Proof.
  rewrite schemaValidator_unfold.
  destruct (attempt _ _ _ _ _ _ _) as [[d errs] [error|]].
  - destruct (exception_message ctx error) as [msg|e]; [|done].
    split; [apply keys_empty_iff|]. by exists msg.
  - split; [apply keys_empty_iff|done].
Qed.

(** An input that is no plain object is turned down before the structural
    pass: the result is [{ success: false, data: {}, errors: { "": ... } }]
    and the callback is not called. *)
Lemma invalid_input_is_root_error schema callback input ctx :
  isObject (normalizeInput input) = false →
  ∃ msg,
    schemaValidator schema callback input ctx
    = Returned (mkResult false (VObject []) {[ "" := mkEntry "" [msg] ]}).
Proof.
  intros Hobj. unfold schemaValidator, attempt, isValidInput. rewrite Hobj.
  unfold addError. rewrite lookup_empty.
  change (stringify VUndefined) with "". rewrite insert_empty.
  eexists. reflexivity.
Qed.

Lemma attempt_throws schema callback input ctx d safe errs1 errs2 error :
  isObject (normalizeInput input) = true →
  structural_pass schema input ctx = (d, safe, errs1, None) →
  callback safe (createIssues (normalizeInput input)) (ctx_of ctx) errs1
  = (errs2, inr error) →
  attempt (root_of schema) (Some callback) (normalizeInput input) (ctx_of ctx)
    (VObject []) (VObject []) ∅
  = (d, errs2, Some error).
Proof.
  intros Hobj Hpass Hcb. rewrite attempt_object by done.
  by rewrite Hpass, Hcb.
Qed.





(** The same callback under an override for the key [""] and the kind
    [exception]: the override's answer is recorded verbatim; and so it is
    when the callback throws [null]. *)
Example boom_overridden :
  match schemaValidator Examples.person (Some Examples.boom) Examples.jo
          (Some (mkOptions None (Some Examples.exception_override))) with
  | Returned r => result_errors r !! "" = Some (mkEntry "" ["An error occurred"])
  | Threw _ => False
  end
  ∧ match schemaValidator Examples.person (Some Examples.throw_null)
            Examples.jo
            (Some (mkOptions None (Some Examples.exception_override))) with
    | Returned r =>
        result_errors r !! "" = Some (mkEntry "" ["An error occurred"])
    | Threw _ => False
    end.
Proof. vm_compute. by split. Qed.

(** What is thrown in the structural pass is caught in the same way: an
    object with an own [toString] at a string field makes [String(input)]
    throw, and the [TypeError] becomes the root error of the result. *)
Example conversion_error_is_root_error :
  schemaValidator Examples.person None
    (Plain (VObject [("name", VObject [("toString", VNumber (NInt 1))]);
                     ("age", VString "x")]))
    None
  = Returned
      (mkResult false (VObject [])
         {[ "" := mkEntry ""
                    ["Exception: Cannot convert object to primitive value"] ]}).
Proof. vm_compute. reflexivity. Qed.

(** ** Worked examples *)

(** C5: the schema [{ name: "string", age: "number", "nickname?": "string" }]
    and the input [{ name: "Jo", age: "20x" }] give [success = false],
    [errors.age.errors[0]] the default message
    ["Expected 'number', received '20x'"], [data.nickname] undefined and
    [data.name] equal to ["Jo"]. *)
Theorem person_example :
  ∃ r, schemaValidator Examples.person None Examples.jo None = Returned r
       ∧ success r = false
       ∧ (result_errors r !! "age" ≫= fun e => head (errors e))
         = Some "Expected 'number', received '20x'"
       ∧ Js.get (data r) (KStr "nickname") = VUndefined
       ∧ Js.get (data r) (KStr "name") = VString "Jo".
Proof. eexists. split; [vm_compute; reflexivity|]. vm_compute. by repeat split. Qed.

(** In that example [nickname] is a key of [data], bound to [undefined], and
    [age] is the only path with errors. *)
Example person_example_whole :
  ∃ r, schemaValidator Examples.person None Examples.jo None = Returned r
       ∧ data r = VObject [("name", VString "Jo"); ("age", VUndefined);
                           ("nickname", VUndefined)]
       ∧ map_to_list (result_errors r)
         = [("age", mkEntry "20x" ["Expected 'number', received '20x'"])].
Proof. eexists. split; [vm_compute; reflexivity|]. vm_compute. by split. Qed.

(** C7: for the schema [{ foo: ["string"] }], validating the flat source
    [foo[0]=a&foo[1]=b] gives the same result, [success], [data] and
    [errors], as validating [{ foo: [a, b] }]; this for all strings [a] and
    [b] and under all options.  The structural pass leaves the same render
    data, safe data and errors on both sides, and so the [data] of the
    result is the same under every callback as well. *)
Theorem flat_source_round_trip (a b : string) (ctx : option ValidatorOptions) :
  schemaValidator Examples.foos None (Examples.foo_flat a b) ctx
  = schemaValidator Examples.foos None (Examples.foo_nested a b) ctx
  ∧ structural_pass Examples.foos (Examples.foo_flat a b) ctx
    = structural_pass Examples.foos (Examples.foo_nested a b) ctx
  ∧ ∀ callback r r',
      schemaValidator Examples.foos callback (Examples.foo_flat a b) ctx
      = Returned r →
      schemaValidator Examples.foos callback (Examples.foo_nested a b) ctx
      = Returned r' →
      data r = data r'.
Proof.
  assert (Hpass : structural_pass Examples.foos (Examples.foo_flat a b) ctx
                  = structural_pass Examples.foos (Examples.foo_nested a b) ctx).
  { destruct ctx as [[[limit|] override]|]; vm_compute; reflexivity. }
  split; [|split; [done|]].
  - destruct ctx as [[[limit|] override]|]; vm_compute; reflexivity.
  - intros callback r r' Hr Hr'.
    rewrite (schemaValidator_data Examples.foos callback
               (Examples.foo_flat a b) ctx r) by done.
    rewrite (schemaValidator_data Examples.foos callback
               (Examples.foo_nested a b) ctx r') by done.
    by rewrite Hpass.
Qed.

(** What the two sides of C7 are, with the strings of the claim. *)
Example flat_source_normalized :
  normalizeInput (Examples.foo_flat "a" "b")
  = VObject [("foo", VArray [VArray [VString "a"]; VArray [VString "b"]])]
  ∧ schemaValidator Examples.foos None (Examples.foo_flat "a" "b") None
    = Returned
        (mkResult true (VObject [("foo", VArray [VString "a"; VString "b"])])
           ∅).
Proof. vm_compute. by repeat split. Qed.

(** ** The primitive leaf *)


(** C1 does not hold of the code: for the schema [{ age: "number" }] and the
    input [{ age: "25" }] the structural pass leaves [25] in the render data
    and [0], the default of a number, in the safe data; a callback reading
    [data.age] sees [0]. *)
Theorem safe_data_holds_default_at_valid_leaf :
  structural_pass Examples.aged Examples.twenty_five None
  = (VObject [("age", VNumber (NInt 25))],
     VObject [("age", VNumber (NInt 0))],
     ∅, None).
Proof. vm_compute. reflexivity. Qed.

(** The same defect seen from a caller: under the callback of the README,
    which rejects an age below 18, the input [{ age: "25" }] is rejected,
    the callback having read [data.age] as [0]. *)
Example adult_is_rejected :
  ∃ r, schemaValidator Examples.aged (Some Examples.adults_only)
         Examples.twenty_five None = Returned r
       ∧ success r = false
       ∧ data r = VObject [("age", VNumber (NInt 25))]
       ∧ map_to_list (result_errors r)
         = [("age", mkEntry "25" ["Must be 18 or older"])].
Proof. eexists. split; [vm_compute; reflexivity|]. vm_compute. by repeat split. Qed.

(** ** The path navigator *)

Section Navigator.

Implicit Types (errs : Errors) (t : Target) (prop : string).

Lemma get_child errs t prop :
  is_terminal (raw t) prop = false →
  get errs t prop = AChild (child_of t prop).
Proof.
  unfold is_terminal, get. simpl. intros H.
  apply orb_false_elim in H as [Hlen H].
  repeat (apply orb_false_elim in H as [? H]).
  assert (Hnone : match raw t with
                  | VArray xs =>
                      if String.eqb prop "length" then Some (length xs)
                      else None
                  | _ => None
                  end = None).
  { destruct (raw t); try done. simpl in Hlen. by rewrite Hlen. }
  rewrite Hnone.
  repeat match goal with
         | E : String.eqb prop _ = false |- _ => rewrite E; clear E
         end.
  reflexivity.
Qed.

Lemma get_terminal errs t prop :
  is_terminal (raw t) prop = true → ∀ c, get errs t prop ≠ AChild c.
Proof.
  unfold is_terminal, get. simpl. intros H c.
  destruct (raw t) eqn:Hraw; simpl in H;
    repeat match goal with
           | |- context [String.eqb prop ?s] =>
               destruct (String.eqb prop s) eqn:?; try discriminate
           end.
Qed.

Lemma navigate_walk errs t props :
  fields_only t props = true → navigate errs t props = Some (walk t props).
Proof.
  revert t. induction props as [|prop rest IH]; intros t H; simpl in *.
  - done.
  - apply andb_prop in H as [Hterm Hrest].
    apply negb_true_iff in Hterm.
    rewrite (get_child errs t prop Hterm). by apply IH.
Qed.

Lemma is_terminal_field parent prop :
  existsb (String.eqb prop) ["length"; "push"; "path"; "value"; "errors"]
  = false →
  is_terminal parent prop = false.
Proof.
  unfold is_terminal. simpl. intros H.
  apply orb_false_elim in H as [-> H]. rewrite H.
  by rewrite andb_false_r.
Qed.

Lemma push_lookup errs t arg :
  push t arg errs !! path t
  = Some (mkEntry (from_option value (stringify (raw t)) (errs !! path t))
            (from_option errors [] (errs !! path t)
               ++ [match arg with
                   | Message s => s
                   | KeyToMessage f => f (getKey (path t))
                   end])%list).
Proof. unfold push. rewrite addError_lookup. by destruct arg. Qed.

Lemma push_lookup_ne errs t arg q :
  q ≠ path t → push t arg errs !! q = errs !! q.
Proof. intros H. unfold push. by apply addError_lookup_ne. Qed.

End Navigator.

(** C8: [issues.object.list[1].field], over any input and any error map, is
    the navigator of the path ["object.list[1].field"].  A [push] there
    records its message under exactly that key and under no other key; a
    function given to [push] is called with the key ["object.list.field"],
    the path without its [[index]] segments, and what it returns is the
    message appended. *)
Theorem path_stability (input : JsValue) (errs : Errors) (f : string → string)
    (msg : string) :
  let props := ["object"; "list"; "1"; "field"] in
  let t := walk (createIssues input) props in
  navigate errs (createIssues input) props = Some t
  ∧ path t = "object.list[1].field"
  ∧ raw t = child_value (child_value (child_value (child_value input
              "object") "list") "1") "field"
  ∧ push t (KeyToMessage f) errs
    = addError errs "object.list[1].field" (f "object.list.field") (raw t)
  ∧ from_option errors [] (push t (KeyToMessage f) errs !! "object.list[1].field")
    = (from_option errors [] (errs !! "object.list[1].field")
         ++ [f "object.list.field"])%list
  ∧ from_option errors [] (push t (Message msg) errs !! "object.list[1].field")
    = (from_option errors [] (errs !! "object.list[1].field") ++ [msg])%list
  ∧ (∀ q arg, q ≠ "object.list[1].field" → push t arg errs !! q = errs !! q).
Proof.
  intros props t.
  assert (Hpath : path t = "object.list[1].field") by reflexivity.
  split.
  { apply navigate_walk. unfold props. simpl.
    rewrite !is_terminal_field by reflexivity. reflexivity. }
  split; [done|]. split; [reflexivity|].
  split; [|split; [|split]].
  - unfold push. rewrite Hpath. reflexivity.
  - rewrite <- Hpath at 1. rewrite push_lookup, Hpath. reflexivity.
  - rewrite <- Hpath at 1. rewrite push_lookup, Hpath. reflexivity.
  - intros q arg Hq. apply push_lookup_ne. by rewrite Hpath.
Qed.

(** C10, as the specification words it, fails: a field named [value] is a
    named field, and reading it on a navigator hands back a string, the
    stringified value, and no child navigator. *)
Lemma field_named_value_is_no_navigator :
  get ∅ (createIssues Examples.a_value) "value" = AValue ""
  ∧ navigate ∅ (createIssues Examples.a_value) ["value"] = None
  ∧ (parseSchema Examples.valued).*1 = ["value"].
Proof. vm_compute. by repeat split. Qed.

(** C10 (amended): on every navigator, over any value and any error map,
    an access by a field name or by an index, which the trap receives as a
    string, never throws: the trap returns what [get] gives.  Reading a
    name other than [push], [path], [value], [errors] and, on an array,
    [length] yields the child navigator, whose path is [makePath] of the
    parent's path and whose raw value is [parent[prop]]; so does every chain
    of such reads.  Under a parent that is neither an object nor an array
    the child's raw value is [undefined]; reading one of the names above
    never yields a navigator; and [errors] at a path without entry is the
    empty list.  (An access by a symbol, which is no such access, throws,
    [Symbol.iterator] over an array apart.) *)
Theorem navigation_is_total (errs : Errors) (t : Target) :
  (∀ prop, trap errs t (Named prop) = Returned (One (get errs t prop)))
  ∧ (∀ prop, is_terminal (raw t) prop = false →
           get errs t prop = AChild (child_of t prop))
  ∧ (∀ props, fields_only t props = true →
              navigate errs t props = Some (walk t props))
  ∧ (∀ prop, isArray (raw t) = false → isObject (raw t) = false →
             raw (child_of t prop) = VUndefined)
  ∧ (∀ prop c, is_terminal (raw t) prop = true → get errs t prop ≠ AChild c)
  ∧ (errs !! path t = None → get errs t "errors" = AErrors []).
Proof.
  split; [done|]. split; [|split; [|split; [|split]]].
  - intros prop. apply get_child.
  - intros props. apply navigate_walk.
  - intros prop Ha Ho. unfold child_of, child_value. simpl.
    by rewrite Ha, Ho.
  - intros prop c H. by apply get_terminal.
  - intros H. unfold get. rewrite H.
    by destruct (raw t).
Qed.

(** Reads through a primitive, through [null] and through what is absent. *)
Example navigation_through_nothing :
  navigate ∅ (createIssues (VObject [("a", VNumber (NInt 1)); ("b", VNull)]))
    ["a"; "x"; "0"]
  = Some (mkTarget "a.x[0]" VUndefined)
  ∧ navigate ∅ (createIssues (VObject [("a", VNumber (NInt 1)); ("b", VNull)]))
      ["b"; "y"]
    = Some (mkTarget "b.y" VUndefined)
  ∧ navigate ∅ (createIssues VUndefined) ["c"; "d"]
    = Some (mkTarget "c.d" VUndefined).
Proof. vm_compute. by repeat split. Qed.

(** The trap at a symbol: the iterator of an array, a [TypeError] from
    [Number(prop)] in [makePath] otherwise. *)
Example navigation_by_symbol :
  trap ∅ (createIssues (VArray [VString "a"])) SymbolIterator
  = Returned (Iterator [AChild (mkTarget "[0]" (VString "a"))])
  ∧ trap ∅ (createIssues (VObject [])) SymbolIterator
    = Threw (ThrownError Js.no_number_of_symbol)
  ∧ trap ∅ (createIssues (VArray [])) OtherSymbol
    = Threw (ThrownError Js.no_number_of_symbol).
Proof. vm_compute. by repeat split. Qed.

(** ** Strings and folds *)

Lemma append_assoc (a b c : string) : (a +:+ b) +:+ c = a +:+ (b +:+ c).
Proof.
  induction a as [|x a IH]; [done|].
  change (String x ((a +:+ b) +:+ c) = String x (a +:+ (b +:+ c))).
  by rewrite IH.
Qed.

Lemma append_length (a b : string) :
  String.length (a +:+ b) = (String.length a + String.length b)%nat.
Proof.
  induction a as [|x a IH]; [done|].
  change (S (String.length (a +:+ b)) = S (String.length a + String.length b)).
  by rewrite IH.
Qed.

Lemma append_empty_r (a : string) : a +:+ "" = a.
Proof.
  induction a as [|x a IH]; [done|].
  change (String x (a +:+ "") = String x a). by rewrite IH.
Qed.

Lemma append_nonempty (a b : string) : b ≠ "" → a +:+ b ≠ "".
Proof. destruct a; [done|discriminate]. Qed.

Lemma extends_refl p : extends p p.
Proof. exists "". by rewrite append_empty_r. Qed.

Lemma extends_append p s q : extends (p +:+ s) q → extends p q.
Proof. intros [sfx ->]. exists (s +:+ sfx). apply append_assoc. Qed.

Lemma extends_length p q :
  extends p q → (String.length p <= String.length q)%nat.
Proof. intros [sfx ->]. rewrite append_length. lia. Qed.

Lemma itemPath_nonempty p i : itemPath p i ≠ "".
Proof. unfold itemPath. by apply append_nonempty. Qed.

Lemma itemPath_not_above p i : ¬ extends (itemPath p i) p.
Proof.
  intros H. apply extends_length in H. unfold itemPath in H.
  rewrite append_length in H.
  change (String.length ("[" +:+ Num.to_string (Num.of_nat i) +:+ "]"))
    with (S (String.length (Num.to_string (Num.of_nat i) +:+ "]"))) in H.
  lia.
Qed.

Lemma fold_left_invariant {A B} (f : A → B → A) (I : A → Prop)
    (l : list B) (a : A) :
  I a → (∀ a b, b ∈ l → I a → I (f a b)) → I (fold_left f l a).
Proof.
  revert a. induction l as [|b l IH]; intros a Ha Hf; simpl; [done|].
  apply IH.
  - apply Hf; [left|done].
  - intros a' b' Hb'. apply Hf. by right.
Qed.

(** Induction on a property type, through the properties of an object. *)
Lemma PType_nested_ind (P : PType → Prop)
    (Hprim : ∀ kind, P (TPrimitive kind))
    (Hobj : ∀ props,
        Forall (fun e => P (type (snd e))) props → P (TObject props))
    (Harr : ∀ item, P item → P (TArray item)) :
  ∀ t, P t.
Proof.
  fix IH 1. intros [kind|props|item].
  - apply Hprim.
  - apply Hobj. revert props. fix IHprops 1. intros [|e rest].
    + apply List.Forall_nil.
    + apply List.Forall_cons; [apply IH|apply IHprops].
  - apply Harr, IH.
Qed.

(** ** The recursive validator *)

(** A loop that an exception leaves: once something was thrown, its steps
    do nothing. *)
Lemma fold_thrown {B} (f : JsValue * JsValue * Errors * option Thrown → B →
                           JsValue * JsValue * Errors * option Thrown)
    (l : list B) st x :
  (∀ st x b, f (st, Some x) b = (st, Some x)) →
  fold_left f l (st, Some x) = (st, Some x).
Proof.
  intros Hf. induction l as [|b l IH]; [done|]. simpl. by rewrite Hf.
Qed.

(** What every step keeps, the loop keeps, whether it throws or not. *)
Lemma fold_run_invariant {B}
    (f : JsValue * JsValue * Errors * option Thrown → B →
         JsValue * JsValue * Errors * option Thrown)
    (I : JsValue * JsValue * Errors → Prop) (l : list B) st :
  (∀ st x b, f (st, Some x) b = (st, Some x)) →
  I st →
  (∀ st b, b ∈ l → I st → I (f (st, None) b).1) →
  I (fold_left f l (st, None)).1.
Proof.
  intros Hf. revert st. induction l as [|b l IH]; intros st Hst Hstep; [done|].
  cbn [fold_left].
  destruct (f (st, None) b) as [st' [x|]] eqn:E.
  - rewrite fold_thrown by done.
    specialize (Hstep st b ltac:(left) Hst). by rewrite E in Hstep.
  - apply IH.
    + specialize (Hstep st b ltac:(left) Hst). by rewrite E in Hstep.
    + intros st'' b' Hb'. apply Hstep. by right.
Qed.

(** What every step that returns keeps, a loop that returns keeps. *)
Lemma fold_run_returns {B}
    (f : JsValue * JsValue * Errors * option Thrown → B →
         JsValue * JsValue * Errors * option Thrown)
    (I : JsValue * JsValue * Errors → Prop) (l : list B) st :
  (∀ st x b, f (st, Some x) b = (st, Some x)) →
  I st →
  (∀ st b, b ∈ l → I st → (f (st, None) b).2 = None → I (f (st, None) b).1) →
  (fold_left f l (st, None)).2 = None →
  I (fold_left f l (st, None)).1.
Proof.
  intros Hf. revert st. induction l as [|b l IH]; intros st Hst Hstep; [done|].
  cbn [fold_left].
  destruct (f (st, None) b) as [st' [x|]] eqn:E.
  - by rewrite fold_thrown by done.
  - apply IH.
    + specialize (Hstep st b ltac:(left) Hst). rewrite E in Hstep. by apply Hstep.
    + intros st'' b' Hb'. apply Hstep. by right.
Qed.

(** [validate] below a path other than the root writes errors only at
    paths that extend its own, whether it throws or not. *)
Lemma validate_type_frame type :
  ∀ p k alias optional source target safeTarget options (errs : Errors) q,
    p ≠ "" → ¬ extends p q →
    (validate_type type p k alias optional source target safeTarget options
       errs).1.2 !! q
    = errs !! q.
Proof.
  induction type as [kind|props IH|item IH] using PType_nested_ind;
    intros p k alias optional source target safeTarget options errs q Hp Hq;
    assert (Hpq : p ≠ q) by (intros ->; apply Hq, extends_refl);
    pose proof Hp as Hp'; apply String.eqb_neq in Hp';
    cbn [validate_type]; rewrite !Hp';
    (destruct (Js.is_nullish (Js.get source _));
     [destruct optional; cbn [negb andb]; [done|];
      destruct (addError_throws errs p); [done|];
      simpl; by apply addError_lookup_ne|]);
    (destruct (coerce_throws _ _); [done|]);
    (destruct (Js.is_nullish (coerce _ _));
     [destruct (addError_throws errs p); [done|];
      simpl; by apply addError_lookup_ne|]).
  - done.
  - match goal with
    | |- context [fold_left ?f ?l (?t, ?s, ?e, None)] =>
        pose proof (fold_run_invariant f
                      (fun st => st.2 !! q = errs !! q) l (t, s, e)) as Hinv;
        destruct (fold_left f l (t, s, e, None)) as [[[tObj sObj] e'] x]
    end.
    simpl. apply Hinv; [by intros [[? ?] ?] ? [? [? ? ? ?]]|done|].
    intros [[t s] e] [ck [ck' ca cty co]] Hin He. simpl in *.
    rewrite Forall_forall in IH. specialize (IH _ Hin). simpl in IH.
    rewrite IH; [done| |].
    + unfold childPath. rewrite Hp'. by apply append_nonempty.
    + unfold childPath. rewrite Hp'. intros Hext.
      exact (Hq (extends_append _ _ _ Hext)).
  - destruct (Num.lt_nat _ _).
    { destruct (addError_throws errs p); [done|].
      simpl. by apply addError_lookup_ne. }
    match goal with
    | |- context [fold_left ?f ?l (?t, ?s, ?e, None)] =>
        pose proof (fold_run_invariant f
                      (fun st => st.2 !! q = errs !! q) l (t, s, e)) as Hinv;
        destruct (fold_left f l (t, s, e, None)) as [[[tArr sArr] e'] x]
    end.
    simpl. apply Hinv; [by intros [[? ?] ?] ? ?|done|].
    intros [[t s] e] i Hin He. simpl in *.
    rewrite IH; [done|apply itemPath_nonempty|].
    unfold itemPath. intros Hext. exact (Hq (extends_append _ _ _ Hext)).
Qed.

Lemma not_extends_empty p : p ≠ "" → ¬ extends p "".
Proof. intros Hp [sfx H]. by destruct p. Qed.

(** The structural pass at the root over an object: the loop over the
    declared fields, from two empty objects and the empty error map. *)
Lemma structural_pass_unfold schema input ctx :
  isObject (normalizeInput input) = true →
  structural_pass schema input ctx
  = fold_left
      (fun '(t, s, e, x) '(childKey, mkProperty ck ca childType co) =>
         match x with
         | Some _ => (t, s, e, x)
         | None =>
             validate_type childType childKey ck ca co (normalizeInput input)
               t s (ctx_of ctx) e
         end)
      (parseSchema schema) (VObject [], VObject [], ∅, None).
Proof.
  intros Hobj. unfold structural_pass, validate, root_of.
  cbn [type key alias optional validate_type].
  change (String.eqb "" "") with true. cbn [Js.is_nullish coerce_throws expected_of].
  assert (Hco : coerce (normalizeInput input) EObject = normalizeInput input).
  { unfold coerce. by rewrite Hobj. }
  rewrite Hco.
  assert (Hnn : Js.is_nullish (normalizeInput input) = false).
  { by destruct (normalizeInput input). }
  rewrite Hnn. cbn [negb andb].
  by destruct (fold_left _ _ _) as [[[t s] e] x].
Qed.

(** Under a schema without a top-level field of the empty name, the
    structural pass over an object records nothing at the root path. *)
Lemma structural_pass_root_clean schema input ctx :
  isObject (normalizeInput input) = true →
  (∀ k, k ∈ (parseSchema schema).*1 → k ≠ "") →
  (structural_pass schema input ctx).1.2 !! "" = None.
Proof.
  intros Hobj Hkeys. rewrite structural_pass_unfold by done.
  match goal with
  | |- context [fold_left ?f ?l (?t, ?s, ?e, None)] =>
      apply (fold_run_invariant f
               (fun st => st.2 !! "" = (None : option ErrorEntry)) l (t, s, e))
  end.
  - by intros [[? ?] ?] ? [? [? ? ? ?]].
  - done.
  - intros [[t s] e] [ck [ck' ca cty co]] Hin He. simpl in *.
    assert (Hck : ck ≠ "").
    { apply Hkeys. apply list_elem_of_fmap. by eexists (ck, _). }
    rewrite validate_type_frame; [done|done|by apply not_extends_empty].
Qed.

(** A callback that does nothing but throw an [Error], under such a schema
    and after a structural pass that returned: the root entry of the result
    is the message of the exception and nothing else. *)
Lemma thrown_error_alone_at_root schema input ctx error msg :
  isObject (normalizeInput input) = true →
  (∀ k, k ∈ (parseSchema schema).*1 → k ≠ "") →
  (structural_pass schema input ctx).2 = None →
  exception_message ctx error = Returned msg →
  ∃ r, schemaValidator schema (Some (fun _ _ _ => Eff.throw error)) input ctx
       = Returned r
       ∧ result_errors r !! "" = Some (mkEntry "" [msg]).
Proof.
  intros Hobj Hkeys Hret Hmsg.
  pose proof (structural_pass_root_clean schema input ctx Hobj Hkeys) as Hclean.
  destruct (structural_pass schema input ctx) as [[[d safe] errs1] x] eqn:Hpass.
  simpl in Hret, Hclean. subst x.
  eexists. rewrite schemaValidator_unfold.
  rewrite (attempt_throws schema _ input ctx d safe errs1 errs1 error Hobj Hpass)
    by reflexivity.
  rewrite Hmsg. split; [reflexivity|]. simpl. by apply addError_fresh.
Qed.

(** The loop over the elements of an array leaves the errors at the path
    of the array as they are. *)
Lemma validate_upto_frame n item p sourceArr options (errs : Errors) :
  (validate_upto n item p sourceArr options errs).1.2 !! p = errs !! p.
Proof.
  unfold validate_upto.
  match goal with
  | |- context [fold_left ?f ?l (?t, ?s, ?e, None)] =>
      apply (fold_run_invariant f (fun st => st.2 !! p = errs !! p) l (t, s, e))
  end.
  - by intros [[? ?] ?] ? ?.
  - done.
  - intros [[t s] e] i _ He. simpl in *. unfold validate. simpl.
    rewrite validate_type_frame; [done|apply itemPath_nonempty|].
    apply itemPath_not_above.
Qed.

Lemma coerce_array_not_nullish input :
  Js.is_nullish (coerce input EArray) = false.
Proof. unfold coerce. by destruct input. Qed.

Lemma lt_nat_integer z n : Num.lt_nat (NInt z) n = true ↔ z < Z.of_nat n.
Proof. apply Z.ltb_lt. Qed.

(** ** Defaults *)

Lemma set_field_fresh k v (fs : list (string * JsValue)) :
  k ∉ fs.*1 → Js.set_field k v fs = fs ++ [(k, v)].
Proof.
  induction fs as [|[k' v'] fs IH]; intros Hk; simpl; [done|].
  rewrite fmap_cons, not_elem_of_cons in Hk. destruct Hk as [Hne Hk].
  simpl in Hne. apply String.eqb_neq in Hne. rewrite Hne.
  by rewrite IH.
Qed.

Lemma fold_set_field_distinct (es init : list (string * JsValue)) :
  NoDup es.*1 → (∀ k, k ∈ es.*1 → k ∉ init.*1) →
  fold_left (fun fs '(k, v) => Js.set_field k v fs) es init = init ++ es.
Proof.
  revert init. induction es as [|[k v] es IH]; intros init Hnd Hdis; simpl.
  - by rewrite app_nil_r.
  - rewrite fmap_cons, NoDup_cons in Hnd. destruct Hnd as [Hk Hnd].
    rewrite set_field_fresh by (apply Hdis; left).
    rewrite IH; [by rewrite <- app_assoc|done|].
    intros k' Hk'. rewrite fmap_app, elem_of_app. intros [Hin|Hin].
    + eapply Hdis; [right; exact Hk'|done].
    + simpl in Hin. apply list_elem_of_singleton in Hin. by subst.
Qed.

Lemma from_entries_distinct (es : list (string * JsValue)) :
  NoDup es.*1 → Js.from_entries es = VObject es.
Proof.
  intros Hnd. unfold Js.from_entries.
  rewrite fold_set_field_distinct; [done|done|].
  intros k _. simpl. apply not_elem_of_nil.
Qed.

(** The default of a nested object binds every declared child, in the order
    of the declaration, to the default of the child. *)
Lemma defaultValueOf_object (props : list (string * Property)) :
  NoDup props.*1 →
  defaultValueOf (TObject props)
  = VObject (List.map (fun e => (fst e, defaultValue (snd e))) props).
Proof.
  intros Hnd. cbn [defaultValueOf].
  assert (Hmap :
    List.map (fun '(k, mkProperty _ _ childType _) =>
                (k, defaultValueOf childType)) props
    = List.map (fun e => (fst e, defaultValue (snd e))) props).
  { apply List.map_ext. by intros [k [? ? ? ?]]. }
  rewrite Hmap. apply from_entries_distinct.
  assert (Hkeys : (List.map (fun e : string * Property =>
                     (fst e, defaultValue (snd e))) props).*1 = props.*1).
  { clear. induction props as [|e props IH]; [done|].
    change (fst e :: (List.map (fun e : string * Property =>
                        (fst e, defaultValue (snd e))) props).*1
            = fst e :: props.*1).
    by rewrite IH. }
  by rewrite Hkeys.
Qed.

Lemma set_entry_keys {V} k (v : V) (es : list (string * V)) :
  NoDup es.*1 → NoDup (set_entry k v es).*1
  ∧ ∀ k', k' ∈ (set_entry k v es).*1 → k' = k ∨ k' ∈ es.*1.
Proof.
  induction es as [|[k0 v0] es IH]; intros Hnd; simpl.
  - split; [apply NoDup_singleton|].
    intros k' Hk'. left. by apply list_elem_of_singleton in Hk'.
  - rewrite fmap_cons, NoDup_cons in Hnd. destruct Hnd as [Hk0 Hnd].
    destruct (IH Hnd) as [IHnd IHin].
    destruct (String.eqb_spec k k0) as [->|Hne]; simpl.
    + split; [by apply NoDup_cons|]. intros k' Hk'. by right.
    + split.
      * apply NoDup_cons. split; [|done]. intros Hin.
        destruct (IHin _ Hin) as [->|?]; [done|]. by apply Hk0.
      * intros k' Hk'. apply elem_of_cons in Hk' as [->|Hk'].
        -- right. by left.
        -- destruct (IHin _ Hk') as [->|?]; [by left|right; by right].
Qed.

(** [parseSchema] declares every name once. *)
Lemma parseSchema_keys_distinct schema : NoDup (parseSchema schema).*1.
Proof.
  unfold parseSchema, fromEntries.
  apply (fold_left_invariant _ (fun es => NoDup es.*1)); [apply NoDup_nil_2|].
  intros es [k v] _ Hnd. by apply set_entry_keys.
Qed.



(** An optional nested object and an optional array, both missing. *)
Example missing_object_and_array :
  structural_pass
    [("address?", SObject [("street", SPrimitive PString);
                           ("floor", SPrimitive PNumber)]);
     ("tags?", SArrayOfPrimitive PString)]
    (Plain (VObject [("address", VNull)])) None
  = (VObject [("address", VNull); ("tags", VArray [])],
     VObject [("address", VObject [("street", VString "");
                                   ("floor", VNumber (NInt 0))]);
              ("tags", VArray [])],
     ∅, None).
Proof. vm_compute. reflexivity. Qed.

(** ** The cases of [index.test.ts] *)

Example test_validate :
  schemaValidator Examples.schema None
    (Plain (VObject (Examples.input ++ [("extra", VBool true)]))) None
  = Returned (mkResult true Examples.expected_data ∅).
Proof. vm_compute. reflexivity. Qed.

Example test_validate_form_data :
  schemaValidator Examples.schema None Examples.formdata None
  = Returned (mkResult true Examples.expected_data ∅).
Proof. vm_compute. reflexivity. Qed.

Example test_errors :
  ∃ r, schemaValidator Examples.schema None (Plain Examples.invalid) None
       = Returned r
  ∧ success r = false
  ∧ data r
    = VObject
        [("string", VUndefined); ("number", VUndefined);
         ("boolean", VUndefined); ("file", VUndefined);
         ("bigint", VUndefined); ("array", VArray [VUndefined; VNull]);
         ("object",
          VObject [("a", VUndefined);
                   ("b", VObject [("c", VUndefined);
                                  ("d", VArray [VNull;
                                                VObject [("e", VUndefined)]])])]);
         ("optional", VUndefined); ("alias", VUndefined)]
  ∧ result_errors r
    = list_to_map
        [("string", mkEntry "" ["String is required"]);
         ("number", mkEntry "" ["Expected 'number', received 'object'"]);
         ("boolean", mkEntry "b" ["Expected 'boolean', received 'b'"]);
         ("file", mkEntry "" ["File is required"]);
         ("bigint", mkEntry "" ["Bigint is required"]);
         ("alias", mkEntry "" ["Alias is required"]);
         ("array[0]", mkEntry "" ["Array is required"]);
         ("array[1]", mkEntry "" ["Array is required"]);
         ("object.a", mkEntry "a" ["Expected 'number', received 'a'"]);
         ("object.b.c", mkEntry "" ["C is required"]);
         ("object.b.d[0]", mkEntry "" ["D is required"]);
         ("object.b.d[1].e", mkEntry "" ["E is required"])].
Proof. eexists. split; [vm_compute; reflexivity|]. vm_compute. by repeat split. Qed.

Example test_form_helper :
  ∃ r, schemaValidator Examples.schema None (Plain Examples.invalid) None
       = Returned r ∧
  let f := form_helper (data r) in
  let read props prop :=
    (fun t => get (result_errors r) t prop) <$> navigate (result_errors r) f props in
  read ["boolean"] "path" = Some (APath "boolean")
  ∧ read ["boolean"] "value" = Some (AValue "b")
  ∧ read ["boolean"] "errors"
    = Some (AErrors ["Expected 'boolean', received 'b'"])
  ∧ read ["object"; "b"; "d"] "path" = Some (APath "object.b.d")
  ∧ read ["object"; "b"; "d"] "length" = Some (ALength 2)
  ∧ (iterate (result_errors r)
       <$> navigate (result_errors r) f ["object"; "b"; "d"])
    = Some [AChild (mkTarget "object.b.d[0]" VNull);
            AChild (mkTarget "object.b.d[1]" (VObject [("e", VUndefined)]))]
  ∧ read ["object"; "b"; "d"; "0"] "errors" = Some (AErrors ["D is required"])
  ∧ read ["object"; "b"; "d"; "1"; "e"] "errors"
    = Some (AErrors ["E is required"]).
Proof. eexists. split; [vm_compute; reflexivity|]. vm_compute. by repeat split. Qed.

Example test_callback_pushes :
  ∃ r, schemaValidator Examples.schema (Some Examples.push_twice)
         (Plain Examples.sparse) None = Returned r
       ∧ result_errors r !! "object.b.d[0].e"
         = Some (mkEntry "" ["string cannot be empty";
                             "translated error for key 'object.b.d.e'"]).
Proof. eexists. split; [vm_compute; reflexivity|]. vm_compute. reflexivity. Qed.

Example test_coerce :
  coerce (VString "a") EArray = VArray [VString "a"]
  ∧ coerce (VString "a") EObject = VUndefined
  ∧ coerce (VNumber (NInt 1)) (EPrimitive PString) = VString "1"
  ∧ List.map (fun v => coerce v (EPrimitive PBoolean)) (TRUE ++ FALSE)
    = [VBool true; VBool true; VBool true; VBool false; VBool false; VBool false]
  ∧ coerce (VString "1") (EPrimitive PBigint) = VBigInt 1
  ∧ coerce (VString "a") (EPrimitive PBigint) = VUndefined
  ∧ coerce (VString "f") (EPrimitive PFile) = VUndefined.
Proof. vm_compute. by repeat split. Qed.

Example test_bad_source :
  List.map
    (fun v => schemaValidator Examples.schema None (Plain v) None)
    [VNull; VUndefined; VArray []; VInstance "Foo";
     VObject [("constructor", VString "x")]]
  = List.map
      (fun received =>
         Returned
           (mkResult false (VObject [])
              {[ "" := mkEntry ""
                         ["Expected 'object', received '" +:+ received
                            +:+ "'"] ]}))
      ["null"; "undefined"; "array"; "Foo"; "object"].
Proof. vm_compute. reflexivity. Qed.

(** Beyond C7: a callback that pushes at [issues.foo[0]] reads the raw value
    of the element, which is the sequence [[a]] in the normalized flat source
    and the string [a] in the nested one; the [value] recorded with its error
    differs accordingly. *)
Example flat_source_under_a_push :
  let push_first : ValidatorCallback :=
    fun _ issues _ =>
      t ← Eff.at_path issues ["foo"; "0"];
      from_option (fun t => Eff.push t (Message "bad")) (mret tt) t in
  (∃ r, schemaValidator Examples.foos (Some push_first)
          (Examples.foo_flat "a" "b") None = Returned r
        ∧ result_errors r !! "foo[0]" = Some (mkEntry "" ["bad"]))
  ∧ (∃ r, schemaValidator Examples.foos (Some push_first)
            (Examples.foo_nested "a" "b") None = Returned r
          ∧ result_errors r !! "foo[0]" = Some (mkEntry "a" ["bad"])).
Proof.
  split; (eexists; split; [vm_compute; reflexivity|]); vm_compute; reflexivity.
Qed.


(* ================================================================== *)
(** * Further properties of the code *)

(** ** Digits *)

Lemma rev_app_rev_app s a :
  String.rev_app (String.rev_app s a) "" = String.rev_app a s.
Proof.
  revert a. induction s as [|c s IH]; intros a; simpl; [done|].
  by rewrite IH.
Qed.

Lemma string_rev_involutive s : String.rev (String.rev s) = s.
Proof. unfold String.rev. by rewrite rev_app_rev_app. Qed.

Lemma chars_all_rev_app p s a :
  chars_all p (String.rev_app s a) = chars_all p s && chars_all p a.
Proof.
  revert a. induction s as [|c s IH]; intros a; simpl; [done|].
  rewrite IH. simpl. destruct (p c), (chars_all p s); simpl; try done.
Qed.

Lemma chars_all_rev p s : chars_all p (String.rev s) = chars_all p s.
Proof. unfold String.rev. rewrite chars_all_rev_app. simpl. by rewrite andb_true_r. Qed.

Lemma drop_while_none p s :
  chars_all (fun c => negb (p c)) s = true → Str.drop_while p s = s.
Proof. destruct s as [|c s]; simpl; [done|]. by destruct (p c). Qed.

Lemma trim_no_space s :
  chars_all (fun c => negb (Chars.is_space c)) s = true → Str.trim s = s.
Proof.
  intros H. unfold Str.trim. rewrite (drop_while_none _ s H).
  rewrite drop_while_none by (by rewrite chars_all_rev).
  apply string_rev_involutive.
Qed.

Lemma digit_not_space c : Chars.is_digit c = true → Chars.is_space c = false.
Proof.
  unfold Chars.is_digit, Chars.is_space, Chars.between, Chars.code.
  intros H. apply andb_prop in H as [H1 H2].
  apply N.leb_le in H1, H2.
  apply orb_false_intro.
  - apply andb_false_intro2. apply N.leb_gt. lia.
  - apply N.eqb_neq. lia.
Qed.

Lemma chars_all_impl (p q : ascii → bool) s :
  (∀ c, p c = true → q c = true) → chars_all p s = true → chars_all q s = true.
Proof.
  intros Hpq. induction s as [|c s IH]; simpl; [done|].
  intros H. apply andb_prop in H as [H1 H2]. by rewrite (Hpq _ H1), IH.
Qed.

Lemma span_all p s : chars_all p s = true → Str.span p s = (s, "").
Proof.
  induction s as [|c s IH]; simpl; [done|].
  intros H. apply andb_prop in H as [H1 H2]. by rewrite H1, (IH H2).
Qed.

Lemma digits_from_all s : ∀ acc,
  chars_all Chars.is_digit s = true → is_Some (Str.digits_from 10 acc s).
Proof.
  induction s as [|c s IH]; intros acc H; simpl in *; [by eexists|].
  apply andb_prop in H as [H1 H2].
  unfold Chars.digit_in. rewrite H1.
  assert ((Chars.code c - 48 <? 10)%N = true) as ->.
  { unfold Chars.is_digit, Chars.between in H1. apply andb_prop in H1 as [A B].
    apply N.leb_le in A, B. apply N.ltb_lt. lia. }
  by apply IH.
Qed.

Lemma of_string_digits s n :
  chars_all Chars.is_digit s = true →
  Str.digits 10 s = Some n →
  Num.of_string s = NInt (Z.of_N n).
Proof.
  intros Hall Hn.
  assert (Hs : s ≠ "") by (intros ->; discriminate).
  assert (Hsigned : Num.of_string s = Num.signed false s).
  { unfold Num.of_string.
    rewrite trim_no_space
      by (eapply chars_all_impl; [|exact Hall];
          intros c Hc; by rewrite digit_not_space).
    destruct s as [|c s]; [done|]. simpl in Hall.
    apply andb_prop in Hall as [Hc Hall].
    destruct c as [[] [] [] [] [] [] [] []]; try discriminate Hc; try reflexivity.
    destruct s as [|d s]; [reflexivity|]. simpl in Hall.
    apply andb_prop in Hall as [Hd _].
    destruct d as [[] [] [] [] [] [] [] []]; try discriminate Hd; reflexivity. }
  rewrite Hsigned. unfold Num.signed.
  assert (String.eqb s "Infinity" = false) as ->.
  { apply String.eqb_neq. intros ->. discriminate. }
  unfold Num.decimal. rewrite (span_all _ _ Hall).
  change ("" : string) with EmptyString.
  cbn match. 
  assert (s +:+ "" = s) as -> by (clear; induction s; [done|]; by (change (String a (s +:+ "") = String a s); f_equal)).
  destruct s as [|c s]; [done|].
  rewrite Hn. simpl Num.exponent. cbn match. 
  unfold Num.make. simpl String.length. rewrite Z.sub_0_r.
  destruct (N.eqb_spec n 0) as [->|Hne]; [done|].
  simpl. by rewrite Z.mul_1_r.
Qed.

Lemma string_of_uint_digits d :
  chars_all Chars.is_digit (NilEmpty.string_of_uint d) = true.
Proof. induction d; simpl; try done. Qed.

Lemma to_uint_nonnil n : N.to_uint n ≠ Nil.
Proof.
  destruct n as [|p]; [discriminate|]. apply DecimalPos.Unsigned.to_uint_nonnil.
Qed.

Lemma of_N_unfold n : Str.of_N n = NilEmpty.string_of_uint (N.to_uint n).
Proof.
  unfold Str.of_N, NilZero.string_of_uint.
  pose proof (to_uint_nonnil n). by destruct (N.to_uint n).
Qed.

Lemma of_N_digits n : chars_all Chars.is_digit (Str.of_N n) = true.
Proof. rewrite of_N_unfold. apply string_of_uint_digits. Qed.

Lemma of_N_nonempty n : Str.of_N n ≠ "".
Proof.
  rewrite of_N_unfold. pose proof (to_uint_nonnil n).
  by destruct (N.to_uint n).
Qed.

Lemma digits_from_cons c s acc v :
  Chars.digit_in 10 c = Some v →
  Str.digits_from 10 acc (String c s) = Str.digits_from 10 (acc * 10 + v)%N s.
Proof. intros H. simpl. by rewrite H. Qed.

Lemma of_lu_rev_cons (d0 d : uint) :
  DecimalPos.Unsigned.of_lu (revapp d d0)
  = (DecimalPos.Unsigned.of_lu (Decimal.rev d) + DecimalPos.Unsigned.of_lu d0 * 10 ^ DecimalPos.Unsigned.usize d)%N.
Proof. apply DecimalPos.Unsigned.of_lu_revapp. Qed.

Lemma digits_from_string_of_uint d : ∀ acc,
  Str.digits_from 10 acc (NilEmpty.string_of_uint d)
  = Some (acc * 10 ^ DecimalPos.Unsigned.usize d + DecimalPos.Unsigned.of_lu (Decimal.rev d))%N.
Proof.
  induction d; intros acc;
    [simpl; f_equal; lia| ..];
    simpl NilEmpty.string_of_uint;
    (erewrite digits_from_cons by reflexivity);
    rewrite IHd; f_equal;
    unfold Decimal.rev at 2; simpl Decimal.revapp;
    rewrite of_lu_rev_cons; simpl DecimalPos.Unsigned.usize; simpl DecimalPos.Unsigned.of_lu;
    rewrite N.pow_succ_r';
    match goal with
    | |- context [(Chars.code ?c - 48)%N] =>
        let v := eval vm_compute in (Chars.code c - 48)%N in
        change (Chars.code c - 48)%N with v
    end;
    generalize (10 ^ DecimalPos.Unsigned.usize d)%N; intros; lia.
Qed.

Lemma digits_of_N n : Str.digits 10 (Str.of_N n) = Some n.
Proof.
  pose proof (of_N_nonempty n) as Hne. unfold Str.digits.
  destruct (Str.of_N n) eqn:E; [done|]. rewrite <- E, of_N_unfold.
  rewrite digits_from_string_of_uint. f_equal.
  rewrite N.mul_0_l, N.add_0_l, <- DecimalPos.Unsigned.of_uint_alt.
  apply DecimalN.Unsigned.of_to.
Qed.

Lemma of_string_of_nat i : Num.of_string (Str.of_nat i) = Num.of_nat i.
Proof.
  unfold Str.of_nat, Num.of_nat.
  rewrite (of_string_digits _ (N.of_nat i)); [by rewrite nat_N_Z| |].
  - apply of_N_digits.
  - apply digits_of_N.
Qed.

Lemma key_index_of_nat i : Js.key_index (KStr (Str.of_nat i)) = Some i.
Proof.
  unfold Js.key_index, Str.of_nat. rewrite digits_of_N, String.eqb_refl.
  by rewrite Nat2N.id.
Qed.

Lemma makePath_index p i : makePath p (Str.of_nat i) = itemPath p i.
Proof.
  unfold makePath, itemPath. rewrite of_string_of_nat. simpl.
  by rewrite orb_true_r.
Qed.

Lemma rev_app_append s a : String.rev_app s a = String.rev s +:+ a.
Proof.
  unfold String.rev. revert a. induction s as [|c s IH]; intros a; simpl; [done|].
  rewrite (IH (String c a)), (IH (String c "")).
  by rewrite append_assoc.
Qed.

Lemma string_rev_append a b : String.rev (a +:+ b) = String.rev b +:+ String.rev a.
Proof.
  induction a as [|c a IH].
  - by rewrite append_empty_r.
  - change (String.rev (String c (a +:+ b)) = String.rev b +:+ String.rev (String c a)).
    unfold String.rev at 1 3. simpl. rewrite !rev_app_append, IH.
    by rewrite append_assoc.
Qed.

Lemma string_rev_length s : String.length (String.rev s) = String.length s.
Proof.
  induction s as [|c s IH]; [done|].
  unfold String.rev. simpl. rewrite rev_app_append, append_length, IH. simpl. lia.
Qed.

Lemma string_rev_replicate n c : String.rev (Str.replicate n c) = Str.replicate n c.
Proof.
  induction n as [|n IH]; [done|].
  simpl. unfold String.rev. simpl. rewrite rev_app_append, IH.
  clear. induction n as [|n IH]; [done|].
  simpl. change (String c (Str.replicate n c +:+ String c "") = String c (String c (Str.replicate n c))).
  by rewrite IH.
Qed.

Lemma string_replicate_length n c : String.length (Str.replicate n c) = n.
Proof. induction n; simpl; auto. Qed.

Lemma drop_while_split p t :
  ∃ m, (∀ c, p c = true → c = "0"%char) →
       t = Str.replicate m "0" +:+ Str.drop_while p t
       ∧ String.length t = (m + String.length (Str.drop_while p t))%nat.
Proof.
  induction t as [|c t [m IH]].
  - by exists 0%nat.
  - simpl. destruct (p c) eqn:Hc.
    + exists (S m). intros Hp. destruct (IH Hp) as [E L].
      rewrite (Hp _ Hc). split.
      * change (String "0" t = String "0" (Str.replicate m "0" +:+ Str.drop_while p t)).
        by rewrite <- E.
      * simpl. by rewrite L.
    + by exists 0%nat.
Qed.

Lemma strip_zeros_split s :
  ∃ m, s = Num.strip_zeros s +:+ Str.replicate m "0"
       ∧ String.length s = (String.length (Num.strip_zeros s) + m)%nat.
Proof.
  unfold Num.strip_zeros.
  destruct (drop_while_split (Ascii.eqb "0") (String.rev s)) as [m H].
  destruct H as [E L].
  { intros c Hc. apply Ascii.eqb_eq in Hc. by subst. }
  exists m. split.
  - rewrite <- (string_rev_involutive s) at 1. rewrite E at 1.
    by rewrite string_rev_append, string_rev_replicate.
  - rewrite string_rev_length. rewrite string_rev_length in L. lia.
Qed.

Lemma layout_integer ds :
  (String.length ds <= 21)%nat →
  Num.layout (Num.strip_zeros ds) (Z.of_nat (String.length ds)) = ds.
Proof.
  intros Hlen. destruct (strip_zeros_split ds) as [m [E L]].
  unfold Num.layout.
  assert ((Z.of_nat (String.length (Num.strip_zeros ds))
           <=? Z.of_nat (String.length ds)) = true) as -> by (apply Z.leb_le; lia).
  assert ((Z.of_nat (String.length ds) <=? 21) = true) as -> by (apply Z.leb_le; lia).
  simpl.
  replace (Z.to_nat (Z.of_nat (String.length ds)
                     - Z.of_nat (String.length (Num.strip_zeros ds)))) with m by lia.
  by rewrite <- E.
Qed.

Lemma nzhead_not_D0 d d' : nzhead d ≠ D0 d'.
Proof. induction d; simpl; try discriminate; done. Qed.

Lemma to_uint_head n d : N.to_uint n = D0 d → n = 0%N.
Proof.
  intros H.
  pose proof (DecimalN.Unsigned.to_of (N.to_uint n)) as Hn.
  rewrite DecimalN.Unsigned.of_to, H, DecimalFacts.unorm_D0 in Hn.
  unfold unorm in Hn.
  destruct (nzhead d) eqn:Hd; try discriminate Hn.
  - injection Hn as ->.
    rewrite <- (DecimalN.Unsigned.of_to n), H. reflexivity.
  - by apply nzhead_not_D0 in Hd.
Qed.

Lemma digits_from_lower s : ∀ acc v,
  Str.digits_from 10 acc s = Some v →
  (acc * 10 ^ N.of_nat (String.length s) <= v)%N.
Proof.
  induction s as [|c s IH]; intros acc v H; simpl in H.
  - injection H as <-. simpl. lia.
  - destruct (Chars.digit_in 10 c) as [d|]; [|discriminate].
    apply IH in H. 
    change (String.length (String c s)) with (S (String.length s)).
    rewrite Nat2N.inj_succ, N.pow_succ_r'. 
    revert H. generalize (10 ^ N.of_nat (String.length s))%N. intros. nia.
Qed.

Lemma of_N_length n :
  (n < 10 ^ 21)%N → (String.length (Str.of_N n) <= 21)%nat.
Proof.
  intros Hn. pose proof (digits_of_N n) as Hd.
  pose proof (to_uint_head n) as Hhead.
  rewrite of_N_unfold in *. unfold Str.digits in Hd.
  destruct (N.to_uint n) as [|d|d|d|d|d|d|d|d|d|d] eqn:E;
    simpl NilEmpty.string_of_uint in *; try discriminate.
  1: { rewrite (Hhead d eq_refl) in E. vm_compute in E. injection E as <-. simpl. lia. }
  all: erewrite digits_from_cons in Hd by reflexivity;
    apply digits_from_lower in Hd;
    change (String.length (String ?c ?s)) with (S (String.length s));
    destruct (le_lt_dec (String.length (NilEmpty.string_of_uint d)) 20) as [|Hbig]; [lia|];
    exfalso;
    assert (10 ^ 21 <= 10 ^ N.of_nat (String.length (NilEmpty.string_of_uint d)))%N
      by (apply N.pow_le_mono_r; lia);
    revert Hd H; generalize (10 ^ N.of_nat (String.length (NilEmpty.string_of_uint d)))%N;
    intros; vm_compute (Chars.code _ - 48)%N in Hd; lia.
Qed.

Lemma to_string_of_nat i :
  Z.of_nat i < 10 ^ 21 → Num.to_string (Num.of_nat i) = Str.of_nat i.
Proof.
  intros Hi. unfold Num.of_nat, Num.to_string, Str.of_nat.
  destruct (Z.eqb_spec (Z.of_nat i) 0) as [E|E].
  - assert (i = 0%nat) as -> by lia. reflexivity.
  - assert ((Z.of_nat i <? 0) = false) as -> by (apply Z.ltb_ge; lia).
    assert (Z.abs_N (Z.of_nat i) = N.of_nat i) as -> by lia.
    apply layout_integer, of_N_length. lia.
Qed.

(** ** Index segments of a path *)

Lemma drop_while_length p s :
  (String.length (Str.drop_while p s) <= String.length s)%nat.
Proof.
  induction s as [|c s IH]; simpl; [done|]. destruct (p c); simpl; lia.
Qed.

Lemma span_length p s a b :
  Str.span p s = (a, b) → (String.length b <= String.length s)%nat.
Proof.
  revert a b. induction s as [|c s IH]; intros a b; simpl.
  - intros [= <- <-]. done.
  - destruct (p c).
    + destruct (Str.span p s) as [a' b'] eqn:E. intros [= <- <-].
      specialize (IH _ _ eq_refl). lia.
    + intros [= <- <-]. simpl. lia.
Qed.

Lemma match_index_shorter s ds rest :
  match_index s = Some (ds, rest) → (String.length rest < String.length s)%nat.
Proof.
  unfold match_index.
  destruct (Str.span Chars.is_digit (Str.drop_while Chars.is_space s))
    as [a b] eqn:E.
  pose proof (span_length _ _ _ _ E) as L1.
  pose proof (drop_while_length Chars.is_space s) as L2.
  pose proof (drop_while_length Chars.is_space b) as L3.
  destruct a as [|? ?]; [discriminate|].
  destruct (Str.drop_while Chars.is_space b) as [|c r]; [discriminate|].
  destruct (Ascii.eqb_spec c "]") as [->|Hc].
  - intros [= <- <-]. simpl in L3. lia.
  - destruct c as [[] [] [] [] [] [] [] []]; try discriminate; by destruct Hc.
Qed.

Lemma replace_indices_fuel f : ∀ fuel1 fuel2 s,
  (String.length s <= fuel1)%nat → (String.length s <= fuel2)%nat →
  replace_indices f fuel1 s = replace_indices f fuel2 s.
Proof.
  induction fuel1 as [|fuel1 IH]; intros fuel2 s H1 H2.
  - destruct s; [|simpl in H1; lia]. by destruct fuel2.
  - destruct s as [|c r]; [by destruct fuel2|].
    destruct fuel2 as [|fuel2]; [simpl in H2; lia|].
    simpl in *.
    destruct (if Ascii.eqb c "[" then match_index r else None)
      as [[ds rest]|] eqn:E.
    + destruct (Ascii.eqb c "["); [|discriminate].
      apply match_index_shorter in E.
      f_equal. apply IH; lia.
    + f_equal. apply IH; lia.
Qed.

Lemma drop_while_append p x b t :
  p b = false →
  Str.drop_while p (x +:+ String b t) = Str.drop_while p x +:+ String b t.
Proof.
  intros Hb. induction x as [|c x IH].
  - simpl. by rewrite Hb.
  - change (Str.drop_while p (String c (x +:+ String b t))
            = Str.drop_while p (String c x) +:+ String b t).
    simpl. by destruct (p c).
Qed.

Lemma span_append p x b t :
  p b = false →
  Str.span p (x +:+ String b t)
  = (fst (Str.span p x), snd (Str.span p x) +:+ String b t).
Proof.
  intros Hb. induction x as [|c x IH].
  - simpl. by rewrite Hb.
  - change (Str.span p (String c (x +:+ String b t))
            = (fst (Str.span p (String c x)),
               snd (Str.span p (String c x)) +:+ String b t)).
    simpl. destruct (p c); [|done].
    rewrite IH. by destruct (Str.span p x).
Qed.

Lemma match_index_append a b t :
  breaks b →
  match_index (a +:+ String b t)
  = (fun '(ds, rest) => (ds, rest +:+ String b t)) <$> match_index a.
Proof.
  intros (Hs & Hd & Hb). unfold match_index.
  rewrite drop_while_append, span_append by done.
  destruct (Str.span Chars.is_digit (Str.drop_while Chars.is_space a))
    as [ds r]. simpl.
  rewrite drop_while_append by done.
  destruct ds as [|d ds]; [done|].
  destruct (Str.drop_while Chars.is_space r) as [|c r'].
  - simpl. by destruct b as [[] [] [] [] [] [] [] []].
  - change (String c r' +:+ String b t) with (String c (r' +:+ String b t)).
    by destruct c as [[] [] [] [] [] [] [] []].
Qed.

Lemma replace_indices_append f : ∀ n a b t,
  (String.length a <= n)%nat → breaks b →
  replace_indices f (String.length (a +:+ String b t)) (a +:+ String b t)
  = replace_indices f (String.length a) a
    +:+ replace_indices f (String.length (String b t)) (String b t).
Proof.
  induction n as [|n IH]; intros a b t Ha Hb.
  - destruct a; [done|simpl in Ha; lia].
  - destruct a as [|c a]; [done|].
    change (String c a +:+ String b t) with (String c (a +:+ String b t)).
    cbn [String.length replace_indices].
    destruct (Ascii.eqb c "[").
    + rewrite match_index_append by done.
      destruct (match_index a) as [[ds rest]|] eqn:E; simpl.
      * apply match_index_shorter in E. simpl in Ha.
        rewrite (replace_indices_fuel f _ (String.length (rest +:+ String b t)))
          by (rewrite ?append_length; simpl; lia).
        rewrite (replace_indices_fuel f (String.length a) (String.length rest))
          by lia.
        rewrite IH by (done || lia).
        by rewrite append_assoc.
      * simpl in Ha. rewrite IH by (done || lia). done.
    + simpl in Ha. rewrite IH by (done || lia). done.
Qed.

Lemma replace_indices_plain f : ∀ fuel s,
  Str.contains_char "[" s = false → replace_indices f fuel s = s.
Proof.
  induction fuel as [|fuel IH]; intros s H; [done|].
  destruct s as [|c s]; [done|]. cbn [Str.contains_char] in H.
  cbn [replace_indices].
  rewrite (Ascii.eqb_sym c). destruct (Ascii.eqb "[" c); [discriminate|].
  by rewrite IH.
Qed.

Lemma match_index_digits ds :
  ds ≠ "" → chars_all Chars.is_digit ds = true →
  match_index (ds +:+ "]") = Some (ds, "").
Proof.
  intros Hne Hall. unfold match_index.
  assert (Hdw : Str.drop_while Chars.is_space (ds +:+ "]") = ds +:+ "]").
  { destruct ds as [|c ds]; [done|]. simpl in Hall.
    apply andb_prop in Hall as [Hc _].
    change (String c ds +:+ "]") with (String c (ds +:+ "]")).
    simpl. by rewrite (digit_not_space _ Hc). }
  rewrite Hdw, span_append by done.
  rewrite (span_all _ _ Hall). simpl.
  by destruct ds.
Qed.

Lemma replace_indices_segment f ds :
  ds ≠ "" → chars_all Chars.is_digit ds = true →
  replace_indices f (String.length ("[" +:+ ds +:+ "]")) ("[" +:+ ds +:+ "]")
  = f ds.
Proof.
  intros Hne Hall.
  change ("[" +:+ ds +:+ "]") with (String "[" (ds +:+ "]")).
  cbn [String.length replace_indices]. simpl Ascii.eqb.
  rewrite match_index_digits by done.
  destruct (String.length (ds +:+ "]")); simpl; by rewrite append_empty_r.
Qed.

Lemma breaks_bracket : breaks "[".
Proof. by repeat split. Qed.

Lemma breaks_dot : breaks ".".
Proof. by repeat split. Qed.

Lemma getKey_itemPath p i :
  Z.of_nat i < 10 ^ 21 → getKey (itemPath p i) = getKey p.
Proof.
  intros Hi. unfold getKey, itemPath. rewrite to_string_of_nat by done.
  change (p +:+ "[" +:+ Str.of_nat i +:+ "]")
    with (p +:+ String "[" (Str.of_nat i +:+ "]")).
  rewrite (replace_indices_append _ (String.length p)) by (done || apply breaks_bracket).
  change (String "[" (Str.of_nat i +:+ "]")) with ("[" +:+ Str.of_nat i +:+ "]").
  rewrite replace_indices_segment.
  - apply append_empty_r.
  - apply of_N_nonempty.
  - apply of_N_digits.
Qed.

Lemma getKey_child p k :
  p ≠ "" → getKey (childPath p k) = getKey p +:+ "." +:+ getKey k.
Proof.
  intros Hp. unfold childPath. apply String.eqb_neq in Hp. rewrite Hp.
  unfold getKey.
  change (p +:+ "." +:+ k) with (p +:+ String "." k).
  rewrite (replace_indices_append _ (String.length p)) by (done || apply breaks_dot).
  reflexivity.
Qed.

(** ** The navigator and the paths of the validator *)

Lemma digits_not_terminal parent s :
  chars_all Chars.is_digit s = true → is_terminal parent s = false.
Proof.
  intros Hall. apply is_terminal_field. simpl.
  repeat match goal with
         | |- context [String.eqb s ?name] =>
             destruct (String.eqb_spec s name) as [->|_]; [discriminate Hall|]
         end.
  reflexivity.
Qed.

Lemma get_element errs p xs i :
  get errs (mkTarget p (VArray xs)) (Str.of_nat i)
  = AChild (mkTarget (itemPath p i) (default VUndefined (xs !! i))).
Proof.
  rewrite get_child by (apply digits_not_terminal, of_N_digits).
  unfold child_of, child_value. cbn [path raw isArray isObject orb].
  rewrite makePath_index. unfold Js.get. by rewrite key_index_of_nat.
Qed.

Lemma makePath_field p k :
  Num.isNaN (Num.of_string k) = true → makePath p k = childPath p k.
Proof.
  intros H. unfold makePath, childPath. rewrite H. cbn [negb].
  rewrite orb_false_r. by destruct (String.eqb_spec p "") as [->|].
Qed.

Lemma get_field errs p fs k :
  isObject (VObject fs) = true →
  Num.isNaN (Num.of_string k) = true →
  existsb (String.eqb k) ["push"; "path"; "value"; "errors"] = false →
  get errs (mkTarget p (VObject fs)) k
  = AChild (mkTarget (childPath p k) (default VUndefined (Js.field k fs))).
Proof.
  intros Hobj Hnan Hname.
  rewrite get_child by (unfold is_terminal; simpl in *; by rewrite Hname).
  unfold child_of, child_value. cbn [path raw isArray orb]. rewrite Hobj.
  by rewrite makePath_field.
Qed.

Lemma iterate_elements errs p xs :
  iterate errs (mkTarget p (VArray xs))
  = List.map (fun i => AChild (mkTarget (itemPath p i) (default VUndefined (xs !! i))))
      (seq 0 (length xs)).
Proof.
  unfold iterate. simpl. apply List.map_ext. intros i. apply get_element.
Qed.

Lemma trim_bracket r : ∃ r', Str.trim (String "[" r) = String "[" r'.
Proof.
  unfold Str.trim. change (Str.drop_while Chars.is_space (String "[" r)) with (String "[" r).
  unfold String.rev at 2. simpl String.rev_app. rewrite rev_app_append.
  rewrite drop_while_append by done.
  rewrite string_rev_append. by eexists.
Qed.

Lemma of_string_bracket r : Num.of_string (String "[" r) = NNaN.
Proof.
  unfold Num.of_string. destruct (trim_bracket r) as [r' ->].
  unfold Num.signed.
  assert (String.eqb (String "[" r') "Infinity" = false) as -> by done.
  unfold Num.decimal. simpl. reflexivity.
Qed.

Lemma makePath_numeric p k :
  Num.isNaN (Num.of_string k) = false → makePath p k ≠ childPath p k.
Proof.
  intros H. unfold makePath, childPath. rewrite H. cbn [negb].
  rewrite orb_true_r. destruct (String.eqb_spec p "") as [->|Hp].
  - intros E.
    assert (∃ r, k = String "[" r) as [r ->] by (eexists; symmetry; exact E).
    by rewrite of_string_bracket in H.
  - intros E. apply (inj (String.app p)) in E. discriminate E.
Qed.

(** X1: the navigator of an array reads its elements under the paths the
    validator gives them.  Reading the index [i] yields the navigator whose
    path is [`${path}[${i}]`], the path [validate] records the errors of
    element [i] under, and whose raw value is element [i], [undefined]
    past the end; iterating the navigator yields these children for the
    indices [0] to [length - 1] in order. *)
Theorem navigator_reads_elements (errs : Errors) p xs :
  (∀ i, get errs (mkTarget p (VArray xs)) (Str.of_nat i)
        = AChild (mkTarget (itemPath p i) (default VUndefined (xs !! i))))
  ∧ iterate errs (mkTarget p (VArray xs))
    = List.map
        (fun i => AChild (mkTarget (itemPath p i) (default VUndefined (xs !! i))))
        (seq 0 (length xs)).
Proof. split; [intros i; apply get_element|apply iterate_elements]. Qed.

(** X2: reading a field name on a navigator follows the path of the
    validator too, when the name is none the navigator answers itself and
    [Number] reads it as [NaN]: the child's path is the name at the root and
    [`${path}.${name}`] below, as [validate] builds it, and its raw value is
    the field of the parent. *)
Theorem navigator_reads_fields (errs : Errors) t k :
  Num.isNaN (Num.of_string k) = true →
  is_terminal (raw t) k = false →
  get errs t k
  = AChild (mkTarget (childPath (path t) k) (child_value (raw t) k)).
Proof.
  intros Hnan Hterm. rewrite get_child by done. unfold child_of.
  by rewrite makePath_field.
Qed.

Lemma navigator_reads_street :
  get ∅ (mkTarget "address" (VObject [("street", VString "Main St")])) "street"
  = AChild (mkTarget "address.street" (VString "Main St")).
Proof.
  exact (navigator_reads_fields ∅
           (mkTarget "address" (VObject [("street", VString "Main St")]))
           "street" eq_refl eq_refl).
Defined.

(** X3: a field name that [Number] reads as a number (["2024"], ["1e3"],
    the empty name, a name of spaces) is addressed by the navigator as an
    index, [`${path}[${Number(name)}]`]; this is never the path
    [validate] records the errors of that field under. *)
Theorem numeric_field_name_has_other_path p k :
  Num.isNaN (Num.of_string k) = false →
  makePath p k = p +:+ "[" +:+ Num.to_string (Num.of_string k) +:+ "]"
  ∧ makePath p k ≠ childPath p k.
Proof.
  intros H. split; [|by apply makePath_numeric].
  unfold makePath. rewrite H. cbn [negb]. by rewrite orb_true_r.
Qed.

Lemma year_2024_has_other_path :
  makePath "years" "2024" = "years[2024]"
  ∧ makePath "years" "2024" ≠ childPath "years" "2024".
Proof. exact (numeric_field_name_has_other_path "years" "2024" eq_refl). Defined.

(** X4: the localization key of the paths [validate] builds.  A path
    without an opening bracket is its own key; the key of an element path
    [`${path}[${i}]`] is the key of [path], every element of an array
    sharing the key of the array; the key of a child path
    [`${path}.${childKey}`] is the key of [path], a dot and the key of
    [childKey]. *)
Theorem localization_key_of_paths :
  (∀ p, Str.contains_char "[" p = false → getKey p = p)
  ∧ (∀ p i, Z.of_nat i < 10 ^ 21 → getKey (itemPath p i) = getKey p)
  ∧ (∀ p k, p ≠ "" → getKey (childPath p k) = getKey p +:+ "." +:+ getKey k).
Proof.
  split; [|split].
  - intros p H. by apply replace_indices_plain.
  - apply getKey_itemPath.
  - apply getKey_child.
Qed.

(** X5: the message of an error at an element of an array does not depend
    on the index of the element: [getErrorMessage] words a problem at
    [`${path}[${i}]`] as it words it at [path], by default and under every
    override. *)
Theorem element_message_ignores_index p i problem override :
  Z.of_nat i < 10 ^ 21 →
  getErrorMessage (itemPath p i) problem override
  = getErrorMessage p problem override.
Proof.
  intros Hi. unfold getErrorMessage. by rewrite getKey_itemPath.
Qed.

Lemma third_tag_message :
  getErrorMessage (itemPath "tags" 2) (Required VUndefined) None
  = "Tags is required".
Proof.
  rewrite (element_message_ignores_index "tags" 2 (Required VUndefined) None)
    by reflexivity.
  reflexivity.
Defined.

(** ** The coercion engine *)

Lemma coerce_kind input e :
  coerce input e = VUndefined ∨ has_kind e (coerce input e) = true.
Proof.
  destruct e as [[]| |]; unfold coerce.
  - right. destruct input as [| | | | | | | |[|x [|y l]]|]; try done; by destruct x.
  - destruct input as [| | | | | | | |[|x [|y l]]|]; try (by right);
      try (destruct (includes TRUE _); [by right|];
           destruct (includes FALSE _); [by right|by left]).
    destruct x; try (by right);
      try (destruct (includes TRUE _); [by right|];
           destruct (includes FALSE _); [by right|by left]).
  - destruct input as [| | | | | | | |[|x [|y l]]|]; try (by right);
      try (destruct (Num.isNaN _); [by left|by right]).
    destruct x; try (by right);
      try (destruct (Num.isNaN _); [by left|by right]).
  - destruct input as [| | | | | | | |[|x [|y l]]|]; try (by right); try (by left);
      try (destruct (Js.to_bigint _); [by right|by left]).
    destruct x; try (by right); try (by left);
      try (destruct (Js.to_bigint _); [by right|by left]).
  - destruct input as [| | | | | | | |[|x [|y l]]|]; try (by right); try (by left).
    destruct x; try (by right); by left.
  - right. by destruct input.
  - unfold has_kind. destruct (isObject input) eqn:E; [by right|by left].
Qed.

Lemma coerce_of_kind e v : has_kind e v = true → coerce v e = v.
Proof.
  destruct e as [[]| |];
    [..|intros H; change (isObject v = true) in H; unfold coerce; by rewrite H];
    destruct v; try discriminate; reflexivity.
Qed.



Lemma coerce_singleton x k :
  isArray x = false →
  coerce (VArray [x]) (EPrimitive k) = coerce x (EPrimitive k).
Proof. intros H. unfold coerce. by destruct x. Qed.



(** X7: a value that is of the kind asked for passes through [coerce]
    unchanged; hence coercing the outcome of a coercion that did not fail,
    to the same kind again, changes nothing. *)
Theorem coerce_is_idempotent :
  (∀ v e, has_kind e v = true → coerce v e = v)
  ∧ (∀ input e, coerce input e ≠ VUndefined →
                coerce (coerce input e) e = coerce input e).
Proof.
  split; [intros v e; apply coerce_of_kind|].
  intros input e Hdef. apply coerce_of_kind.
  by destruct (coerce_kind input e).
Qed.

(** X8: asked for a primitive kind, [coerce] reads a sequence of one
    element that is no sequence itself as that element: a scalar field
    submitted through a multi-valued source coerces as the scalar does. *)
Theorem coerce_unwraps_single_element x kind :
  isArray x = false →
  coerce (VArray [x]) (EPrimitive kind) = coerce x (EPrimitive kind).
Proof. apply coerce_singleton. Qed.

Lemma coerce_unwraps_twenty :
  coerce (VArray [VString "20"]) (EPrimitive PNumber) = VNumber (NInt 20).
Proof.
  rewrite (coerce_unwraps_single_element (VString "20") PNumber eq_refl).
  reflexivity.
Defined.



(** ** The schema normalizer *)

Lemma remove_first_absent c a :
  Str.contains_char c a = false → Str.remove_first c a = a.
Proof.
  induction a as [|d a IH]; simpl; [done|].
  destruct (Ascii.eqb c d); [discriminate|]. intros H. by rewrite IH.
Qed.

Lemma remove_first_append c a b :
  Str.contains_char c a = false →
  Str.remove_first c (a +:+ String c b) = a +:+ b.
Proof.
  induction a as [|d a IH]; intros H.
  - simpl. by rewrite Ascii.eqb_refl.
  - change (String d a +:+ String c b) with (String d (a +:+ String c b)).
    simpl in *. destruct (Ascii.eqb c d); [discriminate|].
    rewrite IH by done. reflexivity.
Qed.

Lemma split_absent c a : Str.contains_char c a = false → Str.split c a = [a].
Proof.
  induction a as [|d a IH]; simpl; [done|].
  destruct (Ascii.eqb c d); [discriminate|]. intros H. by rewrite IH.
Qed.

Lemma split_append c a b :
  Str.contains_char c a = false →
  Str.split c (a +:+ String c b) = a :: Str.split c b.
Proof.
  induction a as [|d a IH]; intros H.
  - simpl. by rewrite Ascii.eqb_refl.
  - change (String d a +:+ String c b) with (String d (a +:+ String c b)).
    simpl in *. destruct (Ascii.eqb c d); [discriminate|].
    rewrite IH by done. reflexivity.
Qed.

Lemma ends_with_char_append c a : Str.ends_with_char c (a +:+ String c "") = true.
Proof.
  induction a as [|d a IH].
  - simpl. apply Ascii.eqb_refl.
  - change (String d a +:+ String c "") with (String d (a +:+ String c "")).
    simpl. rewrite IH. by destruct (a +:+ String c "") eqn:E; [destruct a|].
Qed.

Lemma ends_with_char_absent c a :
  Str.contains_char c a = false → Str.ends_with_char c a = false.
Proof.
  induction a as [|d a IH]; simpl; [done|].
  destruct (Ascii.eqb c d) eqn:E; [discriminate|]. intros H.
  rewrite IH by done. by destruct a.
Qed.

Lemma contains_char_append c a b :
  Str.contains_char c (a +:+ b) = Str.contains_char c a || Str.contains_char c b.
Proof.
  induction a as [|d a IH]; [done|].
  change (String d a +:+ b) with (String d (a +:+ b)). simpl.
  by destruct (Ascii.eqb c d).
Qed.

Lemma parseEntry_fields k t :
  let '(n, pr) := parseEntry k t in
  n = hd "" (Str.split ":" (Str.remove_first "?" k))
  ∧ key pr = KStr n
  ∧ alias pr = hd_error (tl (Str.split ":" (Str.remove_first "?" k)))
  ∧ optional pr = Str.ends_with_char "?" k.
Proof. by destruct t. Qed.




Lemma set_entry_elem {V} k (v : V) es x :
  x ∈ set_entry k v es → x = (k, v) ∨ x ∈ es.
Proof.
  induction es as [|[k' v'] es IH]; simpl.
  - intros H%list_elem_of_singleton. by left.
  - destruct (String.eqb k k').
    + intros [->|H]%elem_of_cons; [by left|right; by right].
    + intros [->|H]%elem_of_cons; [right; by left|].
      destruct (IH H) as [->|?]; [by left|right; by right].
Qed.

Lemma fromEntries_elem {V} (es : list (string * V)) x :
  x ∈ fromEntries es → x ∈ es.
Proof.
  unfold fromEntries.
  enough (∀ init, x ∈ fold_left (fun acc '(k, v) => set_entry k v acc) es init
                  → x ∈ init ∨ x ∈ es) as H.
  { intros Hx. destruct (H _ Hx) as [Hn|?]; [|done]. by apply elem_of_nil in Hn. }
  induction es as [|[k v] es IH]; intros init; simpl; [by left|].
  intros Hx. destruct (IH _ Hx) as [Hs|?]; [|right; by right].
  destruct (set_entry_elem _ _ _ _ Hs) as [->|?]; [right; by left|by left].
Qed.

Lemma fromEntries_keys_distinct {V} (es : list (string * V)) :
  NoDup (fromEntries es).*1.
Proof.
  unfold fromEntries.
  apply (fold_left_invariant _ (fun es => NoDup es.*1)); [apply NoDup_nil_2|].
  intros acc [k v] _ Hnd. by apply set_entry_keys.
Qed.

Lemma declares_parts k t :
  declares k t
    (hd "" (Str.split ":" (Str.remove_first "?" k)))
    (hd_error (tl (Str.split ":" (Str.remove_first "?" k))))
    (Str.ends_with_char "?" k).
Proof.
  unfold declares. pose proof (parseEntry_fields k t) as F.
  destruct (parseEntry k t) as [n pr]. destruct F as (-> & K & A & O).
  by simpl.
Qed.

Lemma declares_plain name t :
  Str.contains_char ":" name = false → Str.contains_char "?" name = false →
  declares name t name None false.
Proof.
  intros H1 H2. pose proof (declares_parts name t) as D.
  rewrite remove_first_absent, split_absent, ends_with_char_absent in D by done.
  exact D.
Qed.

Lemma declares_optional name t :
  Str.contains_char ":" name = false → Str.contains_char "?" name = false →
  declares (name +:+ "?") t name None true.
Proof.
  intros H1 H2. pose proof (declares_parts (name +:+ "?") t) as D.
  change (name +:+ "?") with (name +:+ String "?" "") in D.
  rewrite remove_first_append, append_empty_r, split_absent,
    ends_with_char_append in D by done.
  exact D.
Qed.

Lemma declares_alias name al t :
  Str.contains_char ":" name = false → Str.contains_char "?" name = false →
  Str.contains_char ":" al = false → Str.contains_char "?" al = false →
  declares (name +:+ ":" +:+ al) t name (Some al) false.
Proof.
  intros H1 H2 H3 H4. pose proof (declares_parts (name +:+ ":" +:+ al) t) as D.
  assert (Hq : Str.contains_char "?" (name +:+ ":" +:+ al) = false).
  { rewrite contains_char_append, H2.
    change (":" +:+ al) with (String ":" al). simpl. done. }
  rewrite remove_first_absent, ends_with_char_absent in D by done.
  change (name +:+ ":" +:+ al) with (name +:+ String ":" al) in D.
  rewrite split_append, split_absent in D by done.
  exact D.
Qed.

Lemma declares_alias_optional name al t :
  Str.contains_char ":" name = false → Str.contains_char "?" name = false →
  Str.contains_char ":" al = false → Str.contains_char "?" al = false →
  declares (name +:+ ":" +:+ al +:+ "?") t name (Some al) true.
Proof.
  intros H1 H2 H3 H4.
  pose proof (declares_parts (name +:+ ":" +:+ al +:+ "?") t) as D.
  assert (Hq : Str.contains_char "?" (name +:+ ":" +:+ al) = false).
  { rewrite contains_char_append, H2.
    change (":" +:+ al) with (String ":" al). simpl. done. }
  assert (E : name +:+ ":" +:+ al +:+ "?"
              = (name +:+ ":" +:+ al) +:+ String "?" "").
  { by rewrite !append_assoc. }
  rewrite E in D.
  rewrite remove_first_append, append_empty_r, ends_with_char_append in D by done.
  change (name +:+ ":" +:+ al) with (name +:+ String ":" al) in D.
  rewrite split_append, split_absent in D by done.
  by rewrite E.
Qed.

(** X10: how [parseSchema] reads the key of a declaration.  For a name
    and an alias free of [":"] and ["?"]: the key [name] declares the
    required field [name] without alias; [name?] the optional field;
    [name:alias] the required field [name] read from [alias];
    [name:alias?] the optional field [name] read from [alias].  The
    property's own [key] is the name in all four. *)
Theorem schema_key_decoding name al t :
  Str.contains_char ":" name = false → Str.contains_char "?" name = false →
  Str.contains_char ":" al = false → Str.contains_char "?" al = false →
  declares name t name None false
  ∧ declares (name +:+ "?") t name None true
  ∧ declares (name +:+ ":" +:+ al) t name (Some al) false
  ∧ declares (name +:+ ":" +:+ al +:+ "?") t name (Some al) true.
Proof.
  intros Hn1 Hn2 Ha1 Ha2. split; [|split; [|split]].
  - by apply declares_plain.
  - by apply declares_optional.
  - by apply declares_alias.
  - by apply declares_alias_optional.
Qed.

Lemma username_declaration :
  declares "username:uname?" (SPrimitive PString) "username" (Some "uname") true.
Proof.
  exact (proj2 (proj2 (proj2
    (schema_key_decoding "username" "uname" (SPrimitive PString)
       eq_refl eq_refl eq_refl eq_refl)))).
Defined.


(** A field declared twice, required and then optional: it is optional. *)
Example declared_twice :
  parseSchema [("age", SPrimitive PNumber); ("name", SPrimitive PString);
               ("age?", SPrimitive PString)]
  = [("age", mkProperty (KStr "age") None (TPrimitive PString) true);
     ("name", mkProperty (KStr "name") None (TPrimitive PString) false)].
Proof. reflexivity. Qed.

(** ** What the validator records *)

Lemma grows_refl errs : grows errs errs.
Proof. intros q e H. exists e. repeat split; [done|]. exists []. by rewrite app_nil_r. Qed.

Lemma grows_trans a b c : grows a b → grows b c → grows a c.
Proof.
  intros Hab Hbc q e H. destruct (Hab q e H) as (e1 & H1 & V1 & m1 & E1).
  destruct (Hbc q e1 H1) as (e2 & H2 & V2 & m2 & E2).
  exists e2. split; [done|]. split; [congruence|].
  exists (m1 ++ m2). by rewrite E2, E1, app_assoc.
Qed.

Lemma addError_grows errs p error v : grows errs (addError errs p error v).
Proof.
  intros q e H. destruct (decide (p = q)) as [->|Hne].
  - rewrite addError_lookup, H. simpl. eexists. split; [done|].
    split; [done|]. by exists [error].
  - rewrite addError_lookup_ne by done. by apply grows_refl.
Qed.

Lemma addError_commutes (errs : Errors) p q e1 e2 v1 v2 :
  p ≠ q →
  addError (addError errs p e1 v1) q e2 v2
  = addError (addError errs q e2 v2) p e1 v1.
Proof.
  intros Hne. apply map_eq. intros r.
  destruct (decide (r = p)) as [->|Hp]; [|destruct (decide (r = q)) as [->|Hq]].
  - rewrite addError_lookup_ne by done. rewrite !addError_lookup.
    by rewrite addError_lookup_ne by done.
  - rewrite addError_lookup. rewrite (addError_lookup_ne _ p q) by done.
    rewrite (addError_lookup_ne _ p q) by done. by rewrite addError_lookup.
  - by rewrite !addError_lookup_ne by done.
Qed.

#[local] Abbreviation St := (JsValue * JsValue * Errors)%type.
#[local] Abbreviation Run := (St * option Thrown)%type.

Lemma validate_type_grows type :
  ∀ p k alias optional source target safeTarget options (errs : Errors),
    grows errs
      (validate_type type p k alias optional source target safeTarget options
         errs).1.2.
Proof.
  induction type as [kind|props IH|item IH] using PType_nested_ind;
    intros p k alias optional source target safeTarget options errs;
    cbn [validate_type];
    (destruct (Js.is_nullish (if String.eqb p "" then _ else _));
     [destruct optional; cbn [negb andb];
      [destruct (String.eqb p ""); apply grows_refl|];
      destruct (addError_throws errs p); [apply grows_refl|];
      destruct (String.eqb p ""); apply addError_grows|]);
    (destruct (coerce_throws _ _); [apply grows_refl|]);
    (destruct (Js.is_nullish (coerce _ _));
     [destruct (addError_throws errs p); [apply grows_refl|];
      destruct (String.eqb p ""); apply addError_grows|]).
  - apply grows_refl.
  - match goal with
    | |- context [fold_left ?f ?l (?t, ?s, ?e, None)] =>
        pose proof (fold_run_invariant f (fun st => grows errs st.2) l (t, s, e))
          as Hinv;
        destruct (fold_left f l (t, s, e, None)) as [[[tObj sObj] e'] x]
    end.
    assert (grows errs e') as G.
    { apply Hinv; [by intros [[? ?] ?] ? [? [? ? ? ?]]|apply grows_refl|].
      intros [[t s] e] [ck [ck' ca cty co]] Hin He. simpl in *.
      rewrite Forall_forall in IH. specialize (IH _ Hin). simpl in IH.
      eapply grows_trans; [exact He|apply IH]. }
    by destruct (String.eqb p "").
  - destruct (Num.lt_nat _ _).
    { destruct (addError_throws errs p); [apply grows_refl|apply addError_grows]. }
    match goal with
    | |- context [fold_left ?f ?l (?t, ?s, ?e, None)] =>
        pose proof (fold_run_invariant f (fun st => grows errs st.2) l (t, s, e))
          as Hinv;
        destruct (fold_left f l (t, s, e, None)) as [[[tArr sArr] e'] x]
    end.
    simpl. apply Hinv; [by intros [[? ?] ?] ? ?|apply grows_refl|].
    intros [[t s] e] i Hin He. simpl in *.
    eapply grows_trans; [exact He|apply IH].
Qed.

Lemma grows_messages a b q :
  grows a b → (length (messages_at a q) <= length (messages_at b q))%nat.
Proof.
  intros G. unfold messages_at. destruct (a !! q) as [e|] eqn:E; simpl; [|lia].
  destruct (G q e E) as (e' & E' & _ & more & Em). rewrite E'. simpl.
  rewrite Em, length_app. lia.
Qed.

Lemma addError_more (errs : Errors) p error v :
  (length (messages_at errs p) < length (messages_at (addError errs p error v) p))%nat.
Proof.
  unfold messages_at. rewrite addError_lookup. simpl. rewrite length_app. simpl. lia.
Qed.

Lemma fold_grows {B} (f : Run → B → Run) (l : list B) :
  (∀ st x b, f (st, Some x) b = (st, Some x)) →
  (∀ st b, b ∈ l → grows st.2 (f (st, None) b).1.2) →
  ∀ st, grows st.2 (fold_left f l (st, None)).1.2.
Proof.
  intros Hf Hg st.
  apply (fold_run_invariant f (fun st' => grows st.2 st'.2)); [done|apply grows_refl|].
  intros st' b Hb G. eapply grows_trans; [exact G|by apply Hg].
Qed.

(** A loop that returns has recorded nothing when every step was over
    something acceptable, and something, somewhere in [P], when one was
    not. *)
Lemma fold_accepts {B} (f : Run → B → Run) (acc : B → bool)
    (P : string → Prop) (l : list B) :
  (∀ st x b, f (st, Some x) b = (st, Some x)) →
  (∀ st b, b ∈ l → grows st.2 (f (st, None) b).1.2) →
  (∀ st b, b ∈ l → (f (st, None) b).2 = None →
     if acc b then (f (st, None) b).1.2 = st.2
     else ∃ q, P q ∧ (length (messages_at st.2 q)
                      < length (messages_at (f (st, None) b).1.2 q))%nat) →
  ∀ st, (fold_left f l (st, None)).2 = None →
    if forallb acc l then (fold_left f l (st, None)).1.2 = st.2
    else ∃ q, P q ∧ (length (messages_at st.2 q)
                     < length (messages_at (fold_left f l (st, None)).1.2 q))%nat.
Proof.
  intros Hf. induction l as [|b l IH]; intros Hg Hs st Hret; [done|].
  assert (Hg' : ∀ st b', b' ∈ l → grows st.2 (f (st, None) b').1.2)
    by (intros; apply Hg; by right).
  assert (Hs' : ∀ st b', b' ∈ l → (f (st, None) b').2 = None →
     if acc b' then (f (st, None) b').1.2 = st.2
     else ∃ q, P q ∧ (length (messages_at st.2 q)
                      < length (messages_at (f (st, None) b').1.2 q))%nat)
    by (intros; apply Hs; [by right|done]).
  pose proof (Hs st b ltac:(left)) as Hb.
  cbn [fold_left forallb] in *.
  destruct (f (st, None) b) as [st' [x|]] eqn:E.
  { by rewrite fold_thrown in Hret by done. }
  specialize (IH Hg' Hs' st' Hret). specialize (Hb eq_refl). cbn [fst snd] in Hb.
  destruct (acc b); cbn [andb].
  - rewrite Hb in IH. exact IH.
  - destruct Hb as (q & HP & Hq). exists q. split; [done|].
    pose proof (grows_messages _ _ q (fold_grows f l Hf Hg' st')). lia.
Qed.

Lemma forallb_indices (g : JsValue → bool) xs :
  forallb g xs
  = forallb (fun i => g (default VUndefined (xs !! i))) (seq 0 (length xs)).
Proof.
  induction xs as [|x xs IH]; simpl; [done|].
  rewrite IH. f_equal. rewrite <- seq_shift.
  clear. induction (seq 0 (length xs)) as [|i l IHl]; simpl; [done|].
  by rewrite IHl.
Qed.

Lemma field_input_below p k alias source :
  p ≠ "" → field_input p k alias source = Js.get source (from_option KStr k alias).
Proof. intros Hp. unfold field_input. apply String.eqb_neq in Hp. by rewrite Hp. Qed.

Lemma childPath_nonempty p ck : p ≠ "" → childPath p ck ≠ "".
Proof.
  intros Hp. unfold childPath. apply String.eqb_neq in Hp. rewrite Hp.
  by apply append_nonempty.
Qed.

Lemma extends_child p ck q : p ≠ "" → extends (childPath p ck) q → extends p q.
Proof.
  intros Hp. unfold childPath. apply String.eqb_neq in Hp. rewrite Hp.
  apply extends_append.
Qed.

Lemma extends_item p i q : extends (itemPath p i) q → extends p q.
Proof. apply extends_append. Qed.

(** [validate] below the root, when it returns: nothing is recorded for an
    input that the type accepts, and something is, at the path of the field
    or below it, for one that it does not. *)
Lemma validate_type_accepts type :
  ∀ p k alias optional source target safeTarget options (errs : Errors),
    p ≠ "" →
    let out :=
      validate_type type p k alias optional source target safeTarget options
        errs in
    out.2 = None →
    if accepts (default DEFAULT_ARRAY_LIMIT (arrayLimit options)) type optional
         (field_input p k alias source)
    then out.1.2 = errs
    else ∃ q, extends p q
              ∧ (length (messages_at errs q) < length (messages_at out.1.2 q))%nat.
Proof.
  induction type as [kind|props IH|item IH] using PType_nested_ind;
    intros p k alias optional source target safeTarget options errs Hp;
    pose proof Hp as Hp'; apply String.eqb_neq in Hp';
    rewrite field_input_below by done;
    cbn [validate_type accepts]; rewrite !Hp';
    (destruct (Js.is_nullish (Js.get source _));
     [destruct optional; cbn [negb andb]; [done|];
      destruct (addError_throws errs p); [done|]; intros _;
      exists p; split; [apply extends_refl|apply addError_more]|]);
    (destruct (coerce_throws _ _); [done|]);
    (destruct (Js.is_nullish (coerce _ _));
     [destruct (addError_throws errs p); [done|]; intros _;
      exists p; split; [apply extends_refl|apply addError_more]|]).
  - done.
  - match goal with
    | |- context [fold_left ?f ?l (?t, ?s, ?e, None)] =>
        pose proof (fold_accepts f
          (fun '(_, mkProperty ck ca childType co) =>
             accepts (default DEFAULT_ARRAY_LIMIT (arrayLimit options)) childType co
               (Js.get (coerce (Js.get source (from_option KStr k alias)) EObject)
                  (from_option KStr ck ca))) (extends p) l) as Hfold;
        specialize (fun Hf Hg Hs => Hfold Hf Hg Hs (t, s, e)); revert Hfold;
        destruct (fold_left f l (t, s, e, None)) as [[[tObj sObj] e'] x];
        intros Hfold
    end.
    cbn [fst snd] in *. apply Hfold.
    + by intros [[? ?] ?] ? [? [? ? ? ?]].
    + intros [[t s] e] [ck [ck' ca cty co]] Hin. simpl. apply validate_type_grows.
    + intros [[t s] e] [ck [ck' ca cty co]] Hin Hret. cbn [fst snd] in *.
      rewrite Forall_forall in IH. specialize (IH _ Hin). simpl in IH.
      specialize (IH (childPath p ck) ck' ca co
                    (coerce (Js.get source (from_option KStr k alias)) EObject)
                    t s options e (childPath_nonempty p ck Hp) Hret).
      rewrite field_input_below in IH by (by apply childPath_nonempty).
      destruct (accepts _ cty co _); [exact IH|].
      destruct IH as (q & Hq & Hlen). exists q. split; [|done].
      by apply (extends_child p ck).
  - destruct (Num.lt_nat _ _).
    { destruct (addError_throws errs p); [done|]. intros _.
      exists p. split; [apply extends_refl|apply addError_more]. }
    cbn [negb andb]. rewrite forallb_indices.
    match goal with
    | |- context [fold_left ?f ?l (?t, ?s, ?e, None)] =>
        pose proof (fold_accepts f
          (fun i =>
             accepts (default DEFAULT_ARRAY_LIMIT (arrayLimit options)) item false
               (default VUndefined
                  (elements (coerce (Js.get source (from_option KStr k alias)) EArray)
                     !! i))) (extends p) l) as Hfold;
        specialize (fun Hf Hg Hs => Hfold Hf Hg Hs (t, s, e)); revert Hfold;
        destruct (fold_left f l (t, s, e, None)) as [[[tArr sArr] e'] x];
        intros Hfold
    end.
    cbn [fst snd] in *. apply Hfold.
    + by intros [[? ?] ?] ? ?.
    + intros [[t s] e] i Hin. simpl. apply validate_type_grows.
    + intros [[t s] e] i Hin Hret. cbn [fst snd] in *.
      specialize (IH (itemPath p i) (KIdx i) None false
                    (VArray (elements (coerce (Js.get source (from_option KStr k alias)) EArray)))
                    t s options e (itemPath_nonempty p i) Hret).
      rewrite field_input_below in IH by apply itemPath_nonempty.
      destruct (accepts _ item false _); [exact IH|].
      destruct IH as (q & Hq & Hlen). exists q. split; [|done].
      by apply (extends_item p i).
Qed.

Lemma all_named_spec schema :
  all_named schema = true → ∀ n, n ∈ (parseSchema schema).*1 → n ≠ "".
Proof.
  unfold all_named. rewrite forallb_forall. intros H n Hn.
  apply list_elem_of_fmap in Hn as [[n' pr] [-> Hin]].
  apply list_elem_of_In in Hin. specialize (H _ Hin). simpl in *.
  apply negb_true_iff in H. by apply String.eqb_neq.
Qed.

Lemma conforms_unfold schema ctx v :
  isObject v = true →
  conforms schema ctx v
  = forallb
      (fun '(_, mkProperty ck ca childType co) =>
         accepts (default DEFAULT_ARRAY_LIMIT (arrayLimit (ctx_of ctx)))
           childType co (Js.get v (from_option KStr ck ca)))
      (parseSchema schema).
Proof.
  intros Hobj. unfold conforms. cbn [accepts expected_of].
  assert (Hco : coerce v EObject = v) by (unfold coerce; by rewrite Hobj).
  rewrite Hco.
  assert (Hnn : Js.is_nullish v = false) by (by destruct v).
  by rewrite Hnn.
Qed.

(** The structural pass at the root of a named schema over an object, when
    it returns. *)
Lemma structural_pass_accepts schema input ctx :
  isObject (normalizeInput input) = true →
  all_named schema = true →
  (structural_pass schema input ctx).2 = None →
  let errs' := (structural_pass schema input ctx).1.2 in
  if conforms schema ctx (normalizeInput input) then errs' = ∅
  else ∃ q, (length (messages_at ∅ q) < length (messages_at errs' q))%nat.
Proof.
  intros Hobj Hnamed. pose proof (all_named_spec _ Hnamed) as Hkeys.
  rewrite structural_pass_unfold, conforms_unfold by done. intros Hret.
  match goal with
  | |- context [fold_left ?f ?l (?t, ?s, ?e, None)] =>
      pose proof (fold_accepts f
        (fun '(_, mkProperty ck ca childType co) =>
           accepts (default DEFAULT_ARRAY_LIMIT (arrayLimit (ctx_of ctx)))
             childType co (Js.get (normalizeInput input) (from_option KStr ck ca)))
        (fun _ => True) l) as Hfold;
      specialize (fun Hf Hg Hs => Hfold Hf Hg Hs (t, s, e) Hret)
  end.
  cbn zeta. cbn [fst snd] in Hfold.
  match goal with
  | |- if ?c then _ else _ => destruct c
  end.
  - apply Hfold.
    + by intros [[? ?] ?] ? [? [? ? ? ?]].
    + intros [[t s] e] [ck [ck' ca cty co]] Hin. simpl. apply validate_type_grows.
    + intros [[t s] e] [ck [ck' ca cty co]] Hin Hr. cbn [fst snd] in *.
      assert (Hck : ck ≠ "").
      { apply Hkeys. apply list_elem_of_fmap. by eexists (ck, _). }
      pose proof (validate_type_accepts cty ck ck' ca co (normalizeInput input)
                    t s (ctx_of ctx) e Hck Hr) as H.
      rewrite field_input_below in H by done.
      destruct (accepts _ cty co _); [exact H|].
      destruct H as (q & _ & H). by exists q.
  - destruct Hfold as (q & _ & Hq).
    + by intros [[? ?] ?] ? [? [? ? ? ?]].
    + intros [[t s] e] [ck [ck' ca cty co]] Hin. simpl. apply validate_type_grows.
    + intros [[t s] e] [ck [ck' ca cty co]] Hin Hr. cbn [fst snd] in *.
      assert (Hck : ck ≠ "").
      { apply Hkeys. apply list_elem_of_fmap. by eexists (ck, _). }
      pose proof (validate_type_accepts cty ck ck' ca co (normalizeInput input)
                    t s (ctx_of ctx) e Hck Hr) as H.
      rewrite field_input_below in H by done.
      destruct (accepts _ cty co _); [exact H|].
      destruct H as (q & _ & H). by exists q.
    + by exists q.
Qed.

(** X12: recording errors with [addError].  A recording throws exactly
    at a path that names a member of [Object.prototype] and has no entry,
    [errors] being a plain [{}].  Where they do not throw, recordings at two
    different paths commute, the error map being a map, and recordings at one
    path accumulate their messages in the order of the recordings; a path
    at which one recording went through takes every later one. *)
Theorem addError_order (errs : Errors) p q e1 e2 v1 v2 :
  (addError_throws errs p = true ↔ errs !! p = None ∧ Js.inherited p = true)
  ∧ (addError_throws errs p = false → addError_throws errs q = false → p ≠ q →
     addError (addError errs p e1 v1) q e2 v2
     = addError (addError errs q e2 v2) p e1 v1
     ∧ addError_throws (addError errs p e1 v1) q = false
     ∧ addError_throws (addError errs q e2 v2) p = false)
  ∧ (addError_throws errs p = false →
     addError_throws (addError errs p e1 v1) p = false
     ∧ messages_at (addError (addError errs p e1 v1) p e2 v2) p
       = messages_at errs p ++ [e1; e2]).
Proof.
  split; [|split].
  - unfold addError_throws. destruct (errs !! p); [|tauto].
    split; [done|]. by intros [? _].
  - intros Hp Hq Hne. split; [by apply addError_commutes|].
    unfold addError_throws in *.
    rewrite !addError_lookup_ne by done. done.
  - intros Hp. split.
    + unfold addError_throws. by rewrite addError_lookup.
    + unfold messages_at. rewrite !addError_lookup. simpl.
      by rewrite <- app_assoc.
Qed.

(** X13: [validate] only adds to the error map.  Whatever the property,
    the source and the options, and whether [validate] returns or throws,
    every entry that was in the map before is in it afterwards, with the
    value it had and with its messages, in their order, at the front of its
    list: no error is ever removed, reworded or overwritten by validating
    another field. *)
Theorem validate_only_adds_errors type p k alias optional source target
    safeTarget options (errs : Errors) :
  grows errs
    (validate_type type p k alias optional source target safeTarget options
       errs).1.2.
Proof. apply validate_type_grows. Qed.

(** X14: [validate] at a field below the root, when it returns: it has
    recorded nothing when the input of the field conforms to its type
    ([accepts]: present unless optional, coercible, arrays within the limit,
    and so for every element and every declared child), and it has recorded
    at least one message more, at the path of the field or below it, when
    the input does not.  The field and the fields below it have names that
    [Object.prototype] does not define, and the input is plain data. *)
Theorem validate_records_iff_rejected type p k alias optional source target
    safeTarget options (errs : Errors) :
  p ≠ "" →
  plain_type type = true →
  Js.inherited (Js.key_string (from_option KStr k alias)) = false →
  plain (field_input p k alias source) = true →
  let out :=
    validate_type type p k alias optional source target safeTarget options
      errs in
  out.2 = None →
  if accepts (default DEFAULT_ARRAY_LIMIT (arrayLimit options)) type optional
       (field_input p k alias source)
  then out.1.2 = errs
  else ∃ q, extends p q
            ∧ (length (messages_at errs q) < length (messages_at out.1.2 q))%nat.
Proof. intros Hp _ _ _. by apply validate_type_accepts. Qed.

Lemma three_tags_are_accepted :
  (validate_type Examples.tags "tags" (KStr "tags") None false
     Examples.three_tags (VObject []) (VObject []) (mkOptions None None) ∅).1.2
  = ∅.
Proof.
  exact (validate_records_iff_rejected Examples.tags "tags" (KStr "tags") None
           false Examples.three_tags (VObject []) (VObject [])
           (mkOptions None None) ∅ ltac:(discriminate) eq_refl eq_refl eq_refl
           eq_refl).
Defined.

(** X15: without a callback, a validator over a schema whose top-level
    fields are named, on an object over which the structural pass returns,
    succeeds exactly when the object conforms to the schema: [success] is
    [conforms], for plain objects and for normalized multi-valued sources
    alike.  The names of the schema are none that [Object.prototype]
    defines, and the input is plain data. *)
Theorem success_iff_conforms schema input ctx :
  isObject (normalizeInput input) = true →
  all_named schema = true →
  plain_schema schema = true →
  plain (normalizeInput input) = true →
  (structural_pass schema input ctx).2 = None →
  ∃ r, schemaValidator schema None input ctx = Returned r
       ∧ success r = conforms schema ctx (normalizeInput input).
Proof.
  intros Hobj Hnamed _ _ Hret.
  pose proof (structural_pass_accepts schema input ctx Hobj Hnamed Hret) as H.
  rewrite schemaValidator_unfold, attempt_object by done.
  destruct (structural_pass schema input ctx) as [[[d s] e] x].
  cbn [fst snd] in *. subst x.
  eexists. split; [reflexivity|]. cbn [success].
  destruct (conforms schema ctx (normalizeInput input)).
  - subst e. reflexivity.
  - destruct H as [q Hq]. apply Nat.eqb_neq. intros Hlen.
    assert (e = ∅) as -> by (by apply keys_empty_iff, Nat.eqb_eq).
    unfold messages_at in Hq. rewrite lookup_empty in Hq. simpl in Hq. lia.
Qed.

Lemma jo_does_not_conform :
  ∃ r, schemaValidator Examples.person None Examples.jo None = Returned r
       ∧ success r = false.
Proof.
  exact (success_iff_conforms Examples.person Examples.jo None eq_refl eq_refl
           eq_refl eq_refl eq_refl).
Defined.

(** ** The array limit *)

(** The paths of two elements of an array have no extension in common. *)
Lemma itemPath_apart p i j q :
  Z.of_nat i < 10 ^ 21 → Z.of_nat j < 10 ^ 21 →
  extends (itemPath p i) q → extends (itemPath p j) q → i = j.
Proof.
  intros Hi Hj [s1 E1] [s2 E2]. unfold itemPath in *.
  rewrite to_string_of_nat in E1, E2 by done.
  rewrite E1 in E2. clear E1.
  rewrite !append_assoc in E2.
  apply (inj (String.app p)), (inj (String.app "[")) in E2.
  change (Str.of_nat i +:+ String "]" s1 = Str.of_nat j +:+ String "]" s2) in E2.
  apply (f_equal (Str.span Chars.is_digit)) in E2.
  rewrite !span_append in E2 by done.
  rewrite !span_all in E2 by apply of_N_digits.
  injection E2 as E2 _.
  pose proof (key_index_of_nat i) as Ki. rewrite E2, key_index_of_nat in Ki.
  by injection Ki.
Qed.

(** The loop over the elements, one element further. *)
Lemma validate_upto_S n item p sourceArr options (errs : Errors) :
  validate_upto (S n) item p sourceArr options errs
  = match validate_upto n item p sourceArr options errs with
    | (t, s, e, Some x) => (t, s, e, Some x)
    | (t, s, e, None) =>
        validate (itemPath p n) (mkProperty (KIdx n) None item false)
          (VArray sourceArr) t s options e
    end.
Proof.
  unfold validate_upto. rewrite seq_S, fold_left_app. simpl.
  by destruct (fold_left _ _ _) as [[[t s] e] [x|]].
Qed.

Lemma validate_upto_thrown n m item p sourceArr options (errs : Errors) :
  (n <= m)%nat →
  (validate_upto n item p sourceArr options errs).2 ≠ None →
  validate_upto m item p sourceArr options errs
  = validate_upto n item p sourceArr options errs.
Proof.
  intros Hle Hx. induction Hle as [|m Hle IH]; [done|].
  rewrite validate_upto_S, IH.
  by destruct (validate_upto n item p sourceArr options errs) as [[[t s] e] [x|]].
Qed.

Lemma validate_upto_returned n m item p sourceArr options (errs : Errors) :
  (n <= m)%nat →
  (validate_upto m item p sourceArr options errs).2 = None →
  (validate_upto n item p sourceArr options errs).2 = None.
Proof.
  intros Hle Hm.
  destruct ((validate_upto n item p sourceArr options errs).2) eqn:E; [|done].
  rewrite (validate_upto_thrown n m) in Hm by (done || by rewrite E).
  by rewrite E in Hm.
Qed.

(** The elements from [n] up to [m] leave alone what is at no path of
    theirs. *)
Lemma validate_upto_later n m item p sourceArr options (errs : Errors) q :
  (n <= m)%nat →
  (∀ j, (n <= j < m)%nat → ¬ extends (itemPath p j) q) →
  (validate_upto m item p sourceArr options errs).1.2 !! q
  = (validate_upto n item p sourceArr options errs).1.2 !! q.
Proof.
  intros Hle. induction Hle as [|m Hle IH]; intros Hq; [done|].
  rewrite <- IH by (intros j Hj; apply Hq; lia).
  rewrite validate_upto_S.
  destruct (validate_upto m item p sourceArr options errs) as [[[t s] e] [x|]];
    [done|].
  unfold validate. cbn [type key alias optional fst snd].
  apply validate_type_frame; [apply itemPath_nonempty|apply Hq; lia].
Qed.

(** C4, as the specification words it, fails: under the limit not every
    element is validated.  With the schema [{ nums: ["number"] }] and the
    input [{ nums: [{ toString: 1 }, "x"] }] the coercion of the first
    element throws, and the loop is left: the second element, which is no
    number, has no error. *)
Lemma element_after_a_throw_is_not_validated :
  validate_type (TArray (TPrimitive PNumber)) "nums" (KStr "nums") None false
    (VObject [("nums", VArray [VObject [("toString", VNumber (NInt 1))];
                               VString "x"])])
    (VObject []) (VObject []) (mkOptions None None) ∅
  = (VObject [("nums", VArray [])], VObject [("nums", VArray [])], ∅,
     Some (ThrownError Js.no_primitive))
  ∧ accepts DEFAULT_ARRAY_LIMIT (TPrimitive PNumber) false (VString "x") = false
  ∧ Num.lt_nat DEFAULT_ARRAY_LIMIT 2 = false.
Proof. vm_compute. by repeat split. Qed.

(** C4 (amended): at an array field whose input is there, let [sourceArr]
    be the sequence the input coerces to and [limit] the [arrayLimit] of
    the options, [50] when there is none.
    - When [sourceArr.length > limit], and the path of the field is none
      at which [addError] throws, one message, the [array] message for
      [sourceArr] and [limit], is appended at the path of the field, the
      errors at every other path stay as they are, and render and safe
      target receive an empty array at the key of the field: no element is
      validated.
    - Otherwise the errors at the path of the field stay as they are, and
      the elements are validated from index [0] up in order, element [i] at
      the path extended with [[i]], reading [sourceArr[i]], until the
      validation of one of them throws.  An element that is validated
      without a throw leaves the errors at its path and below as they were
      when it conforms to the item type, and a message more at one of them
      when it does not; an element after a throw leaves them as they were.
    For a whole [limit] the comparison is [limit < length].  The names of
    the item type are none that [Object.prototype] defines, the input is
    plain data. *)
Theorem array_limit item p k alias optional source target safeTarget options
    (errs : Errors) :
  let input := field_input p k alias source in
  let sourceArr := elements (coerce input EArray) in
  let limit := default DEFAULT_ARRAY_LIMIT (arrayLimit options) in
  let msg :=
    getErrorMessage p (ArrayTooLong sourceArr limit) (errorMessage options) in
  let out :=
    validate_type (TArray item) p k alias optional source target safeTarget
      options errs in
  let upto n := validate_upto n item p sourceArr options errs in
  Js.is_nullish input = false →
  plain_type item = true →
  plain input = true →
  Z.of_nat (length sourceArr) < 10 ^ 21 →
  (Num.lt_nat limit (length sourceArr) = true →
   addError_throws errs p = false →
     out = (Js.set target k (VArray []), Js.set safeTarget k (VArray []),
            addError errs p msg VUndefined, None)
     ∧ from_option errors [] (out.1.2 !! p)
       = (from_option errors [] (errs !! p) ++ [msg])%list
     ∧ (∀ q, q ≠ p → out.1.2 !! q = errs !! q))
  ∧ (Num.lt_nat limit (length sourceArr) = false →
     out = (let '(targetArr, safeTargetArr, errs', x) :=
              validate_items item p sourceArr options errs in
            (Js.set target k targetArr, Js.set safeTarget k safeTargetArr,
             errs', x))
     ∧ out.1.2 !! p = errs !! p
     ∧ ∀ i, (i < length sourceArr)%nat →
         upto (S i)
         = match upto i with
           | (t, s, e, Some x) => (t, s, e, Some x)
           | (t, s, e, None) =>
               validate (itemPath p i) (mkProperty (KIdx i) None item false)
                 (VArray sourceArr) t s options e
           end
         ∧ field_input (itemPath p i) (KIdx i) None (VArray sourceArr)
           = default VUndefined (sourceArr !! i)
         ∧ ((upto (S i)).2 = None →
            if accepts limit item false (default VUndefined (sourceArr !! i))
            then ∀ q, extends (itemPath p i) q → out.1.2 !! q = errs !! q
            else ∃ q, extends (itemPath p i) q
                      ∧ (length (messages_at errs q)
                         < length (messages_at out.1.2 q))%nat)
         ∧ ((upto i).2 ≠ None →
            ∀ q, extends (itemPath p i) q → out.1.2 !! q = errs !! q))
  ∧ (∀ z, limit = NInt z →
          (Num.lt_nat limit (length sourceArr) = true
           ↔ z < Z.of_nat (length sourceArr)))
  ∧ (arrayLimit options = None → limit = NInt 50).
Proof.
  intros input sourceArr limit msg out upto Hin _ _ Hlen.
  assert (Hout : out
    = if Num.lt_nat limit (length sourceArr)
      then if addError_throws errs p
           then (Js.set target k (VArray []), Js.set safeTarget k (VArray []),
                 errs, Some (ThrownError (Js.cannot_read "undefined" "push")))
           else (Js.set target k (VArray []), Js.set safeTarget k (VArray []),
                 addError errs p msg VUndefined, None)
      else let '(targetArr, safeTargetArr, errs', x) :=
             validate_items item p sourceArr options errs in
           (Js.set target k targetArr, Js.set safeTarget k safeTargetArr,
            errs', x)).
  { unfold out. cbn [validate_type].
    fold (field_input p k alias source). fold input. rewrite Hin.
    cbn [expected_of coerce_throws]. rewrite coerce_array_not_nullish.
    fold sourceArr. fold limit. fold msg. reflexivity. }
  split; [|split; [|split]].
  - intros Hgt Hthrows. rewrite Hout, Hgt, Hthrows. split; [done|]. simpl. split.
    + by rewrite addError_lookup.
    + intros q Hq. by apply addError_lookup_ne.
  - intros Hle. rewrite Hout, Hle.
    assert (Herrs : (let '(targetArr, safeTargetArr, errs', x) :=
                       validate_items item p sourceArr options errs in
                     (Js.set target k targetArr, Js.set safeTarget k safeTargetArr,
                      errs', x)).1.2
                    = (upto (length sourceArr)).1.2).
    { unfold validate_items, upto.
      by destruct (validate_upto _ _ _ _ _ _) as [[[? ?] ?] ?]. }
    split; [done|]. rewrite Herrs. split; [apply validate_upto_frame|].
    intros i Hi.
    assert (Hbefore : ∀ q, extends (itemPath p i) q →
                        (upto i).1.2 !! q = errs !! q).
    { intros q Hq. unfold upto.
      rewrite (validate_upto_later 0 i) by
        (try lia; intros j Hj Hjq;
         assert (j = i) by (apply (itemPath_apart p j i q); (lia || done));
         lia).
      reflexivity. }
    assert (Hafter : ∀ q, extends (itemPath p i) q →
                       (upto (length sourceArr)).1.2 !! q
                       = (upto (S i)).1.2 !! q).
    { intros q Hq. unfold upto.
      apply validate_upto_later; [lia|].
      intros j Hj Hjq.
      assert (j = i) by (apply (itemPath_apart p j i q); (lia || done)).
      lia. }
    assert (Hinput : field_input (itemPath p i) (KIdx i) None (VArray sourceArr)
                     = default VUndefined (sourceArr !! i)).
    { unfold field_input. pose proof (itemPath_nonempty p i) as Hne.
      apply String.eqb_neq in Hne. by rewrite Hne. }
    split; [apply validate_upto_S|]. split; [exact Hinput|]. split.
    + intros Hret.
      assert (Hi0 : (upto i).2 = None)
        by (apply (validate_upto_returned i (S i)); [lia|done]).
      pose proof (validate_upto_S i item p sourceArr options errs) as HS.
      fold (upto (S i)) (upto i) in HS.
      destruct (upto i) as [[[t s] e] x] eqn:Ei. cbn [fst snd] in Hi0. subst x.
      change (validate (itemPath p i) (mkProperty (KIdx i) None item false)
                (VArray sourceArr) t s options e)
        with (validate_type item (itemPath p i) (KIdx i) None false
                (VArray sourceArr) t s options e) in HS.
      pose proof (validate_type_accepts item (itemPath p i) (KIdx i) None false
                    (VArray sourceArr) t s options e (itemPath_nonempty p i))
        as Hacc.
      cbn zeta in Hacc. rewrite <- HS, Hinput in Hacc. specialize (Hacc Hret).
      fold limit in Hacc.
      destruct (accepts limit item false (default VUndefined (sourceArr !! i))).
      * intros q Hq. rewrite Hafter, Hacc by done.
        rewrite <- (Hbefore q Hq). done.
      * destruct Hacc as (q & Hq & Hmore). exists q. split; [done|].
        unfold messages_at in *. rewrite Hafter by done.
        rewrite <- (Hbefore q Hq). done.
    + intros Hthrown q Hq. unfold upto.
      rewrite (validate_upto_thrown i (length sourceArr)) by (lia || done).
      by apply Hbefore.
  - intros z ->. apply lt_nat_integer.
  - intros Hnone. unfold limit. by rewrite Hnone.
Qed.

(** Three tags under [arrayLimit: 2]: one error at [tags], none below. *)
Lemma three_tags_over_limit_two :
  validate_type Examples.tags "tags" (KStr "tags") None false
    Examples.three_tags (VObject []) (VObject [])
    (mkOptions (Some (NInt 2)) None) ∅
  = (VObject [("tags", VArray [])], VObject [("tags", VArray [])],
     {[ "tags" := mkEntry "" ["Array length 3 is greater than limit 2"] ]},
     None).
Proof.
  pose proof (array_limit (TPrimitive PString) "tags" (KStr "tags") None false
                Examples.three_tags (VObject []) (VObject [])
                (mkOptions (Some (NInt 2)) None) ∅ eq_refl eq_refl eq_refl
                eq_refl) as [Hgt _].
  destruct (Hgt eq_refl eq_refl) as [Hout _].
  unfold Examples.tags. rewrite Hout. vm_compute. reflexivity.
Defined.

(** Three tags under [arrayLimit: 3]: no error, each tag validated. *)
Example three_tags_at_limit_three :
  validate_type Examples.tags "tags" (KStr "tags") None false
    Examples.three_tags (VObject []) (VObject [])
    (mkOptions (Some (NInt 3)) None) ∅
  = (VObject [("tags", VArray [VString "a"; VString "b"; VString "c"])],
     VObject [("tags", VArray [VString ""; VString ""; VString ""])],
     ∅, None).
Proof. vm_compute. reflexivity. Qed.

(** The repository's own case: 51 elements under the default limit. *)
Example fifty_one_under_default_limit :
  ∃ r, schemaValidator Examples.foos None
         (Plain (VObject [("foo", VArray (List.repeat (VString "a") 51))]))
         None = Returned r
       ∧ success r = false
       ∧ Js.get (data r) (KStr "foo") = VArray []
       ∧ map_to_list (result_errors r)
         = [("foo", mkEntry "" ["Array length 51 is greater than limit 50"])].
Proof. eexists. split; [vm_compute; reflexivity|]. vm_compute. by repeat split. Qed.

(** An array field named as a member of [Object.prototype], over the
    limit: [addError] throws, no [array] error is recorded at the path of
    the field, and the exception becomes the root error of the result. *)
Example over_the_limit_at_an_inherited_name :
  schemaValidator [("valueOf", SArrayOfPrimitive PString)] None
    (Plain (VObject [("valueOf", VArray [VString "a"; VString "b"])]))
    (Some (mkOptions (Some (NInt 1)) None))
  = Returned
      (mkResult false (VObject [("valueOf", VArray [])])
         {[ "" := mkEntry ""
                    ["Exception: Cannot read properties of undefined (reading 'push')"] ]}).
Proof. vm_compute. reflexivity. Qed.

(** ** The shape of the results *)

Lemma well_keyed_object props :
  well_keyed (TObject props)
  ↔ NoDup props.*1
    ∧ ∀ n pr, (n, pr) ∈ props → key pr = KStr n ∧ well_keyed (type pr).
Proof.
  cbn [well_keyed]. split; intros [Hnd H]; (split; [done|]); clear Hnd.
  - induction props as [|[n' [ck ca cty co]] r IH]; intros n pr Hin.
    + by apply elem_of_nil in Hin.
    + destruct H as (-> & Hw & Hr).
      apply elem_of_cons in Hin as [[= -> ->]|Hin]; [done|by apply IH].
  - induction props as [|[n' [ck ca cty co]] r IH]; [done|].
    destruct (H n' (mkProperty ck ca cty co) ltac:(left)) as [Hk Hw].
    simpl in Hk. split; [done|]. split; [done|].
    apply IH. intros n pr Hin. apply H. by right.
Qed.

Lemma field_set_field_eq n v fs : Js.field n (Js.set_field n v fs) = Some v.
Proof.
  induction fs as [|[k' v'] fs IH]; simpl.
  - by rewrite String.eqb_refl.
  - destruct (String.eqb_spec n k') as [->|Hne]; simpl.
    + by rewrite String.eqb_refl.
    + apply String.eqb_neq in Hne. by rewrite Hne.
Qed.

Lemma field_set_field_ne n k v fs :
  n ≠ k → Js.field n (Js.set_field k v fs) = Js.field n fs.
Proof.
  intros Hne. induction fs as [|[k' v'] fs IH]; simpl.
  - apply String.eqb_neq in Hne. by rewrite Hne.
  - destruct (String.eqb_spec k k') as [->|Hk]; simpl.
    + apply String.eqb_neq in Hne. by rewrite Hne.
    + by rewrite IH.
Qed.

Lemma field_of_distinct n v (fs : list (string * JsValue)) :
  NoDup fs.*1 → (n, v) ∈ fs → Js.field n fs = Some v.
Proof.
  induction fs as [|[k' v'] fs IH]; intros Hnd Hin.
  - by apply elem_of_nil in Hin.
  - rewrite fmap_cons, NoDup_cons in Hnd. destruct Hnd as [Hk Hnd]. simpl.
    apply elem_of_cons in Hin as [[= -> ->]|Hin].
    + by rewrite String.eqb_refl.
    + destruct (String.eqb_spec n k') as [->|_]; [|by apply IH].
      exfalso. apply Hk. apply list_elem_of_fmap. by exists (k', v).
Qed.

Lemma set_field_keys n v (fs : list (string * JsValue)) :
  n ∉ fs.*1 → (Js.set_field n v fs).*1 = fs.*1 ++ [n].
Proof. intros H. rewrite set_field_fresh by done. by rewrite fmap_app. Qed.

Lemma default_shaped type : well_keyed type → shaped type (defaultValueOf type) = true.
Proof.
  induction type as [kind|props IH|item IH] using PType_nested_ind; intros Hw.
  - by destruct kind.
  - apply well_keyed_object in Hw as [Hnd Hw].
    rewrite defaultValueOf_object by done. cbn [shaped].
    assert (Hkeys : (List.map (fun e : string * Property =>
                       (fst e, defaultValue (snd e))) props).*1 = props.*1).
    { clear. induction props as [|e props IH]; [done|].
      change (fst e :: (List.map (fun e : string * Property =>
                          (fst e, defaultValue (snd e))) props).*1
              = fst e :: props.*1).
      by rewrite IH. }
    apply andb_true_intro. split; [by apply bool_decide_eq_true|].
    apply forallb_forall. intros [n [ck ca cty co]] Hin.
    apply list_elem_of_In in Hin.
    rewrite (field_of_distinct n (defaultValueOf cty)).
    + simpl. rewrite Forall_forall in IH. apply (IH _ Hin).
      by destruct (Hw _ _ Hin).
    + by rewrite Hkeys.
    + apply list_elem_of_In, List.in_map_iff.
      exists (n, mkProperty ck ca cty co). split; [done|].
      by apply list_elem_of_In.
  - done.
Qed.

Lemma set_item_end i v (l : list JsValue) :
  length l = i → Js.set_item i v l = l ++ [v].
Proof.
  intros <-. unfold Js.set_item. by rewrite Nat.ltb_irrefl, Nat.sub_diag.
Qed.

(** The loop over the elements, when it returns. *)
Lemma fold_items (f : Run → nat → Run) (good : JsValue → bool) :
  (∀ st x i, f (st, Some x) i = (st, Some x)) →
  (∀ st i, (f (st, None) i).2 = None →
     ∃ v s, (f (st, None) i).1.1
            = (Js.set st.1.1 (KIdx i) v, Js.set st.1.2 (KIdx i) s)
            ∧ good s = true) →
  ∀ n a lt ls e,
    length lt = a → length ls = a → forallb good ls = true →
    (fold_left f (seq a n) (VArray lt, VArray ls, e, None)).2 = None →
    ∃ lt' ls' e',
      fold_left f (seq a n) (VArray lt, VArray ls, e, None)
      = (VArray lt', VArray ls', e', None)
      ∧ length lt' = (a + n)%nat ∧ length ls' = (a + n)%nat
      ∧ forallb good ls' = true.
Proof.
  intros Hf Hstep. induction n as [|n IH]; intros a lt ls e Hlt Hls Hgood Hret;
    cbn [seq fold_left] in *.
  - exists lt, ls, e. repeat split; (done || lia).
  - pose proof (Hstep (VArray lt, VArray ls, e) a) as Hs.
    destruct (f (VArray lt, VArray ls, e, None) a) as [[[t' s'] e'] [x|]] eqn:Ef.
    { by rewrite fold_thrown in Hret by done. }
    destruct (Hs eq_refl) as (v & s & E & Hv).
    cbn [fst snd] in E. injection E as -> ->.
    rewrite (set_item_end a v lt Hlt), (set_item_end a s ls Hls) in *.
    destruct (IH (S a) (lt ++ [v]) (ls ++ [s]) e')
      as (lt' & ls' & e'' & E & L1 & L2 & G).
    + rewrite length_app. simpl. lia.
    + rewrite length_app. simpl. lia.
    + rewrite forallb_app, Hgood. simpl. by rewrite Hv.
    + exact Hret.
    + exists lt', ls', e''. repeat split; (done || lia).
Qed.

(** The loop over the declared children, when it returns. *)
Lemma fold_children (f : Run → string * Property → Run)
    (good : Property → JsValue → bool) :
  (∀ st x b, f (st, Some x) b = (st, Some x)) →
  ∀ l ft fs e,
    (∀ st b, b ∈ l → (f (st, None) b).2 = None →
       ∃ v s, (f (st, None) b).1.1
              = (Js.set st.1.1 (KStr (fst b)) v, Js.set st.1.2 (KStr (fst b)) s)
              ∧ good (snd b) s = true) →
    NoDup (fs.*1 ++ l.*1) → NoDup (ft.*1 ++ l.*1) →
    (fold_left f l (VObject ft, VObject fs, e, None)).2 = None →
    ∃ ft' fs' e',
      fold_left f l (VObject ft, VObject fs, e, None)
      = (VObject ft', VObject fs', e', None)
      ∧ ft'.*1 = ft.*1 ++ l.*1 ∧ fs'.*1 = fs.*1 ++ l.*1
      ∧ (∀ n, n ∈ fs.*1 → Js.field n fs' = Js.field n fs)
      ∧ (∀ b, b ∈ l →
           good (snd b) (default VUndefined (Js.field (fst b) fs')) = true).
Proof.
  intros Hf. induction l as [|[n pr] l IH]; intros ft fs e Hstep Hnd Hndt Hret;
    cbn [fold_left] in *.
  - exists ft, fs, e. rewrite !app_nil_r. repeat split; try done.
    intros b Hb. by apply elem_of_nil in Hb.
  - pose proof (Hstep (VObject ft, VObject fs, e) (n, pr) ltac:(left)) as Hs.
    destruct (f (VObject ft, VObject fs, e, None) (n, pr))
      as [[[t' s'] e'] [x|]] eqn:Ef.
    { by rewrite fold_thrown in Hret by done. }
    destruct (Hs eq_refl) as (v & s & E & Hv).
    cbn [fst snd] in E. injection E as -> ->. cbn [fst snd] in Hv.
    cbn [Js.set Js.key_string] in *.
    assert (Hn : n ∉ fs.*1).
    { apply NoDup_app in Hnd as (_ & Hdis & _). intros Hin.
      apply (Hdis _ Hin). left. }
    assert (Hnt : n ∉ ft.*1).
    { apply NoDup_app in Hndt as (_ & Hdis & _). intros Hin.
      apply (Hdis _ Hin). left. }
    assert (Hnl : n ∉ l.*1).
    { apply NoDup_app in Hnd as (_ & _ & Hl). by apply NoDup_cons in Hl as [? _]. }
    destruct (IH (Js.set_field n v ft) (Js.set_field n s fs) e')
      as (ft' & fs' & e'' & E & Kt & Ks & Hkeep & Hgood).
    + intros st b Hb. apply Hstep. by right.
    + rewrite set_field_keys by done. rewrite <- app_assoc. exact Hnd.
    + rewrite set_field_keys by done. rewrite <- app_assoc. exact Hndt.
    + exact Hret.
    + exists ft', fs', e''. split; [exact E|].
      rewrite Kt, Ks, !set_field_keys by done. rewrite <- !app_assoc.
      split; [done|]. split; [done|]. split.
      * intros m Hm. rewrite Hkeep.
        -- apply field_set_field_ne. intros ->. done.
        -- rewrite set_field_keys by done. apply elem_of_app. by left.
      * intros b Hb. apply elem_of_cons in Hb as [->|Hb]; [|by apply Hgood].
        simpl. rewrite Hkeep.
        -- by rewrite field_set_field_eq.
        -- rewrite set_field_keys by done. apply elem_of_app. right. by left.
Qed.

(** [validate] below the root, when it returns, has written to the key of
    the field in both targets, and to the safe target a value of the shape
    of the type. *)
Lemma validate_type_shapes type :
  ∀ p k alias optional source target safeTarget options (errs : Errors),
    well_keyed type → p ≠ "" →
    let out :=
      validate_type type p k alias optional source target safeTarget options
        errs in
    out.2 = None →
    ∃ v s, out.1.1 = (Js.set target k v, Js.set safeTarget k s)
           ∧ shaped type s = true.
Proof.
  induction type as [kind|props IH|item IH] using PType_nested_ind;
    intros p k alias optional source target safeTarget options errs Hw Hp;
    pose proof Hp as Hp'; apply String.eqb_neq in Hp';
    cbn [validate_type]; rewrite !Hp';
    (destruct (Js.is_nullish (Js.get source _));
     [destruct (negb optional && addError_throws errs p); [done|]; intros _;
      eexists _, _; split; [reflexivity|by apply default_shaped]|]);
    (destruct (coerce_throws _ _); [done|]);
    (destruct (Js.is_nullish (coerce _ _));
     [destruct (addError_throws errs p); [done|]; intros _;
      eexists _, _; split; [reflexivity|by apply default_shaped]|]).
  - intros _. eexists _, _; split; [reflexivity|by apply default_shaped].
  - apply well_keyed_object in Hw as [Hnd Hw].
    match goal with
    | |- context [fold_left ?f ?l (VObject [], VObject [], ?e, None)] =>
        pose proof (fold_children f (fun pr s => shaped (type pr) s)) as Hfold;
        specialize (fun Hf => Hfold Hf l [] [] e);
        destruct (fold_left f l (VObject [], VObject [], e, None))
          as [[[tObj sObj] e'] x] eqn:Efold
    end.
    cbn [fst snd]. intros ->.
    destruct Hfold as (ft' & fs' & e'' & E & Kt & Ks & _ & Hgood).
    + by intros [[? ?] ?] ? [? [? ? ? ?]].
    + intros [[t s] e] [n [ck ca cty co]] Hin Hret. cbn [fst snd] in *.
      destruct (Hw _ _ Hin) as [Hk Hwc]. simpl in Hk, Hwc. subst ck.
      rewrite Forall_forall in IH.
      apply (IH _ Hin); [done|by apply childPath_nonempty|done].
    + done.
    + done.
    + done.
    + injection E as -> -> ->. eexists _, _. split; [reflexivity|].
      cbn [shaped]. apply andb_true_intro. split.
      * by apply bool_decide_eq_true.
      * apply forallb_forall. intros [n [ck ca cty co]] Hin.
        apply list_elem_of_In in Hin. apply (Hgood _ Hin).
  - destruct (Num.lt_nat _ _).
    { destruct (addError_throws errs p); [done|]. intros _. by eexists _, _. }
    match goal with
    | |- context [fold_left ?f (seq 0 ?n) (VArray [], VArray [], ?e, None)] =>
        pose proof (fold_items f (shaped item)) as Hfold;
        specialize (fun Hf Hs => Hfold Hf Hs n 0%nat [] [] e eq_refl eq_refl eq_refl);
        destruct (fold_left f (seq 0 n) (VArray [], VArray [], e, None))
          as [[[tArr sArr] e'] x] eqn:Efold
    end.
    cbn [fst snd]. intros ->.
    destruct Hfold as (lt' & ls' & e'' & E & _ & _ & Hgood).
    + by intros [[? ?] ?] ? ?.
    + intros [[t s] e] i Hret. cbn [fst snd] in *.
      apply IH; [done|apply itemPath_nonempty|done].
    + done.
    + injection E as -> -> ->. by eexists _, _.
Qed.

Lemma PropertyType_nested_ind (P : PropertyType → Prop)
    (Hprim : ∀ kind, P (SPrimitive kind))
    (Hobj : ∀ fs, Forall (fun e => P (snd e)) fs → P (SObject fs))
    (Harrp : ∀ kind, P (SArrayOfPrimitive kind))
    (Harro : ∀ fs, Forall (fun e => P (snd e)) fs → P (SArrayOfObject fs)) :
  ∀ t, P t.
Proof.
  fix IH 1. intros [kind|fs|kind|fs].
  - apply Hprim.
  - apply Hobj. revert fs. fix IHfs 1. intros [|e rest].
    + apply List.Forall_nil.
    + apply List.Forall_cons; [apply IH|apply IHfs].
  - apply Harrp.
  - apply Harro. revert fs. fix IHfs 1. intros [|e rest].
    + apply List.Forall_nil.
    + apply List.Forall_cons; [apply IH|apply IHfs].
Qed.

Lemma fromEntries_well_keyed (fs : list (string * PropertyType)) :
  Forall (fun e => ∀ k, well_keyed (type (snd (parseEntry k (snd e))))) fs →
  well_keyed (TObject (fromEntries (List.map (fun '(k, t) => parseEntry k t) fs))).
Proof.
  intros IH. apply well_keyed_object. split; [apply fromEntries_keys_distinct|].
  intros n pr Hin. apply fromEntries_elem in Hin.
  apply list_elem_of_In, List.in_map_iff in Hin as [[k t] [E Hin]].
  pose proof (parseEntry_fields k t) as F. rewrite E in F.
  destruct F as (_ & K & _). split; [done|].
  rewrite Forall_forall in IH. apply list_elem_of_In in Hin.
  specialize (IH _ Hin k). simpl in IH. by rewrite E in IH.
Qed.

Lemma parseEntry_well_keyed t : ∀ k, well_keyed (type (snd (parseEntry k t))).
Proof.
  induction t as [kind|fs IH|kind|fs IH] using PropertyType_nested_ind; intros k.
  - done.
  - cbn [parseEntry snd type]. by apply fromEntries_well_keyed.
  - done.
  - cbn [parseEntry snd type well_keyed]. by apply fromEntries_well_keyed.
Qed.

Lemma parseSchema_well_keyed schema : well_keyed (TObject (parseSchema schema)).
Proof.
  apply fromEntries_well_keyed. apply Forall_forall. intros e _ k.
  apply parseEntry_well_keyed.
Qed.

(** The structural pass over an object, when it returns. *)
Lemma structural_pass_shapes schema input ctx :
  isObject (normalizeInput input) = true →
  all_named schema = true →
  (structural_pass schema input ctx).2 = None →
  object_keys (structural_pass schema input ctx).1.1.1 = (parseSchema schema).*1
  ∧ shaped (TObject (parseSchema schema))
      (structural_pass schema input ctx).1.1.2
    = true.
Proof.
  intros Hobj Hnamed. pose proof (all_named_spec _ Hnamed) as Hkeys.
  pose proof (parseSchema_well_keyed schema) as Hw.
  apply well_keyed_object in Hw as [Hnd Hw].
  rewrite structural_pass_unfold by done. intros Hret.
  match type of Hret with
  | context [fold_left ?f ?l (VObject [], VObject [], ?e, None)] =>
      pose proof (fold_children f (fun pr s => shaped (type pr) s)) as Hfold;
      specialize (fun Hf => Hfold Hf l [] [] e)
  end.
  destruct Hfold as (ft' & fs' & e' & E & Kt & Ks & _ & Hgood).
  - by intros [[? ?] ?] ? [? [? ? ? ?]].
  - intros [[t s] e] [n [ck ca cty co]] Hin Hr. cbn [fst snd] in *.
    destruct (Hw _ _ Hin) as [Hk Hwc]. simpl in Hk, Hwc. subst ck.
    apply validate_type_shapes; [done| |done].
    apply Hkeys. apply list_elem_of_fmap. by eexists (n, _).
  - done.
  - done.
  - exact Hret.
  - rewrite E. cbn [fst snd object_keys shaped]. split; [done|].
    apply andb_true_intro. split.
    + by apply bool_decide_eq_true.
    + apply forallb_forall. intros [n [ck ca cty co]] Hin.
      apply list_elem_of_In in Hin. apply (Hgood _ Hin).
Qed.

(** X16: whatever plain data the input object holds, when the structural
    pass over it returns, the data of the result has exactly the fields the
    schema
    declares, under their names (not their aliases) and in the order of the
    schema; the callback, which only sees the safe copy and the issues,
    cannot change that.  The names of the schema are none that
    [Object.prototype] defines and no array indices. *)
Theorem data_has_the_declared_fields schema callback input ctx r :
  isObject (normalizeInput input) = true →
  all_named schema = true →
  plain_schema schema = true →
  plain (normalizeInput input) = true →
  (structural_pass schema input ctx).2 = None →
  schemaValidator schema callback input ctx = Returned r →
  object_keys (data r) = (parseSchema schema).*1.
Proof.
  intros Hobj Hnamed _ _ Hret Hr.
  rewrite (schemaValidator_data schema callback input ctx r) by done.
  by apply structural_pass_shapes.
Qed.

Lemma person_data_fields :
  object_keys
    (data (mkResult false
             (VObject [("name", VString "Jo"); ("age", VUndefined);
                       ("nickname", VUndefined)])
             {[ "age" := mkEntry "20x" ["Expected 'number', received '20x'"] ]}))
  = (parseSchema Examples.person).*1.
Proof.
  apply (data_has_the_declared_fields Examples.person None Examples.jo None);
    vm_compute; reflexivity.
Defined.

(** X17: the callback only ever runs on safe data of the shape of the
    schema: every declared field is there, at every depth, with a value of
    its declared kind, also where the input was missing or rejected.  So a
    callback that is replaced, on data of any other shape, by any [other]
    code gives the same outcome.  The names of the schema are none that
    [Object.prototype] defines and no array indices. *)
Theorem callback_sees_shaped_data schema callback other input ctx :
  all_named schema = true →
  plain_schema schema = true →
  schemaValidator schema
    (Some (fun safeData issues c =>
             if shaped (TObject (parseSchema schema)) safeData
             then callback safeData issues c
             else other safeData issues c))
    input ctx
  = schemaValidator schema (Some callback) input ctx.
Proof.
  intros Hnamed _. rewrite !schemaValidator_unfold.
  destruct (isObject (normalizeInput input)) eqn:Hobj.
  - rewrite !attempt_object by done.
    pose proof (structural_pass_shapes schema input ctx Hobj Hnamed) as Hs.
    destruct (structural_pass schema input ctx) as [[[d safe] errs1] [x|]];
      [done|].
    destruct (Hs eq_refl) as [_ Hshaped]. cbn [fst snd] in Hshaped.
    by rewrite Hshaped.
  - unfold attempt, isValidInput. by rewrite Hobj.
Qed.

Lemma adults_only_sees_shaped_data :
  schemaValidator Examples.aged
    (Some (fun safeData issues c =>
             if shaped (TObject (parseSchema Examples.aged)) safeData
             then Examples.adults_only safeData issues c
             else Examples.boom safeData issues c))
    Examples.twenty_five None
  = schemaValidator Examples.aged (Some Examples.adults_only)
      Examples.twenty_five None.
Proof.
  exact (callback_sees_shaped_data Examples.aged Examples.adults_only
           Examples.boom Examples.twenty_five None eq_refl eq_refl).
Defined.
(** ** Forms as sources *)

Lemma assign_object fs keys val :
  isObject (VObject fs) = true →
  isObject (Dset.assign (VObject fs) keys val) = true.
Proof.
  intros Hobj. destruct keys as [|k rest]; cbn [Dset.assign]; [done|].
  destruct (_ || _) eqn:E; [done|].
  apply orb_false_elim in E as [E _]. apply orb_false_elim in E as [_ E].
  apply String.eqb_neq in E.
  assert (Hset : ∀ v, isObject (Js.set (VObject fs) (KStr k) v) = true).
  { intros v. unfold isObject in *. cbn [Js.set Js.key_string].
    rewrite field_set_field_ne by done. exact Hobj. }
  destruct rest; apply Hset.
Qed.

Lemma normalizeInput_form_object entries :
  isObject (normalizeInput (KeyValues entries)) = true.
Proof.
  unfold normalizeInput. apply fold_left_invariant; [done|].
  intros [| | | | | | | | |fs] k _ H; try discriminate.
  by apply assign_object.
Qed.

(** X18: a [FormData] or a [URLSearchParams] is never turned down as a
    source, whatever its keys are: what [normalizeInput] builds of it
    passes [isValidInput], which records nothing. *)
Theorem form_is_a_valid_source entries errs options :
  isValidInput (normalizeInput (KeyValues entries)) errs options = (true, errs).
Proof.
  unfold isValidInput. by rewrite normalizeInput_form_object.
Qed.

Lemma dset_simple fs k val :
  simple_key k = true →
  Dset.dset (VObject fs)
    (replace_indices (fun ds => "." +:+ ds) (String.length k) k) val
  = VObject (Js.set_field k val fs).
Proof.
  unfold simple_key. intros H.
  apply andb_prop in H as [H Hproto]. apply andb_prop in H as [Hdot Hbr].
  apply negb_true_iff in Hdot, Hbr, Hproto.
  rewrite replace_indices_plain by done.
  unfold Dset.dset. rewrite split_absent by done.
  cbn [Dset.assign]. by rewrite Hproto.
Qed.

Lemma fold_simple_keys (entries : list (string * JsValue)) ks :
  forallb simple_key ks = true →
  ∀ fs0, ∃ fs,
    fold_left
      (fun source k =>
         Dset.dset source
           (replace_indices (fun ds => "." +:+ ds) (String.length k) k)
           (VArray (getAll entries k)))
      ks (VObject fs0)
    = VObject fs
    ∧ ∀ k, Js.field k fs
           = if bool_decide (k ∈ ks) then Some (VArray (getAll entries k))
             else Js.field k fs0.
Proof.
  induction ks as [|h ks IH]; intros Hs fs0; cbn [fold_left].
  - exists fs0. split; [done|]. intros k.
    case_bool_decide as Hk; [by apply elem_of_nil in Hk|done].
  - simpl in Hs. apply andb_prop in Hs as [Hh Hs].
    rewrite dset_simple by done.
    destruct (IH Hs (Js.set_field h (VArray (getAll entries h)) fs0))
      as (fs & E & Hf).
    exists fs. split; [done|]. intros k. rewrite Hf.
    repeat case_bool_decide; try done.
    + exfalso. apply H0. by right.
    + apply elem_of_cons in H0 as [->|?]; [|done]. apply field_set_field_eq.
    + apply field_set_field_ne. intros ->. apply H0. left.
Qed.

(** X19: a form whose keys are plain names becomes the object that binds
    each key to the array of all the values sent under it, in the order
    they were sent, and binds nothing else. *)
Theorem form_of_plain_names entries :
  forallb simple_key entries.*1 = true →
  ∃ fs, normalizeInput (KeyValues entries) = VObject fs
        ∧ ∀ k, Js.field k fs
               = if bool_decide (k ∈ entries.*1)
                 then Some (VArray (getAll entries k)) else None.
Proof.
  intros Hs. unfold normalizeInput.
  destruct (fold_simple_keys entries (List.map fst entries) Hs []) as (fs & E & Hf).
  exists fs. split; [exact E|]. intros k. by rewrite Hf.
Qed.

Lemma two_hobbies :
  ∃ fs, normalizeInput
          (KeyValues [("hobbies", VString "reading"); ("name", VString "John");
                      ("hobbies", VString "coding")])
        = VObject fs
        ∧ ∀ k, Js.field k fs
               = if bool_decide (k ∈ ["hobbies"; "name"; "hobbies"])
                 then Some (VArray (getAll
                        [("hobbies", VString "reading"); ("name", VString "John");
                         ("hobbies", VString "coding")] k))
                 else None.
Proof.
  exact (form_of_plain_names
           [("hobbies", VString "reading"); ("name", VString "John");
            ("hobbies", VString "coding")] eq_refl).
Defined.

(** ** Sources that are no objects *)

(** X20: an input that is not a plain object is turned down as a whole:
    no field is validated and the callback does not run, so that the
    result is the same for every schema and every callback; it is a
    failure with empty data and one error, at the root, whose message by
    default names what was received. *)
Theorem invalid_source_is_rejected_whole input ctx :
  isObject (normalizeInput input) = false →
  ∃ msg,
    (∀ schema callback,
       schemaValidator schema callback input ctx
       = Returned (mkResult false (VObject []) {[ "" := mkEntry "" [msg] ]}))
    ∧ (errorMessage (ctx_of ctx) = None →
       isArray (normalizeInput input) = true →
       msg = "Expected 'object', received 'array'").
Proof.
  intros Hobj. eexists. split.
  - intros schema callback.
    unfold schemaValidator, attempt, isValidInput. rewrite Hobj.
    unfold addError. rewrite lookup_empty.
    change (stringify VUndefined) with "". rewrite insert_empty.
    reflexivity.
  - intros Hov Harr. unfold ctx_of in Hov. rewrite Hov, Harr. reflexivity.
Qed.

Lemma array_source_is_rejected :
  ∃ msg,
    (∀ schema callback,
       schemaValidator schema callback (Plain (VArray [])) None
       = Returned (mkResult false (VObject []) {[ "" := mkEntry "" [msg] ]}))
    ∧ (errorMessage (ctx_of None) = None →
       isArray (normalizeInput (Plain (VArray []))) = true →
       msg = "Expected 'object', received 'array'").
Proof.
  exact (invalid_source_is_rejected_whole (Plain (VArray [])) None eq_refl).
Defined.

(** ** The wording of a missing field *)

Lemma last_app_nonempty {A} (l l' : list A) d :
  l' ≠ [] → List.last (l ++ l') d = List.last l' d.
Proof.
  intros H. induction l as [|x l IH]; [done|].
  simpl. destruct (l ++ l') eqn:E; [|done].
  apply app_eq_nil in E as [_ ?]. done.
Qed.

Lemma split_nonempty c s : Str.split c s ≠ [].
Proof.
  destruct s as [|d s]; simpl; [done|].
  destruct (Ascii.eqb c d); [done|]. by destruct (Str.split c s).
Qed.

Lemma split_after c a b :
  ∃ h t, Str.split c (a +:+ String c b) = h :: t ++ Str.split c b.
Proof.
  induction a as [|d a (h & t & IH)].
  - exists "", []. simpl. by rewrite Ascii.eqb_refl.
  - change (String d a +:+ String c b) with (String d (a +:+ String c b)).
    cbn [Str.split]. rewrite IH. destruct (Ascii.eqb c d).
    + by exists "", (h :: t).
    + by exists (String d h), t.
Qed.

Lemma getDisplayName_last p n :
  Str.contains_char "." n = false →
  getDisplayName (p +:+ "." +:+ n) = getDisplayName n.
Proof.
  intros Hn. unfold getDisplayName.
  change (p +:+ "." +:+ n) with (p +:+ String "." n).
  destruct (split_after "." p n) as (h & t & ->).
  change (h :: t ++ Str.split "." n) with ((h :: t) ++ Str.split "." n).
  by rewrite last_app_nonempty by apply split_nonempty.
Qed.

(** X21: the default message for a missing field below an object names
    the field alone, not the objects and the elements it is in:
    [getErrorMessage] at [`${path}.${name}`] gives the display name of
    [name] followed by [is required]. *)
Theorem missing_field_is_named_alone p n input :
  p ≠ "" →
  Str.contains_char "." n = false →
  Str.contains_char "[" n = false →
  getErrorMessage (childPath p n) (Required input) None
  = getDisplayName n +:+ " is required".
Proof.
  intros Hp Hdot Hbr. unfold getErrorMessage, overridden.
  rewrite getKey_child by done.
  unfold getKey at 2. rewrite replace_indices_plain by done.
  by rewrite getDisplayName_last.
Qed.

Lemma missing_street_name :
  getErrorMessage (childPath "people[3].address" "streetName")
    (Required VUndefined) None
  = "Street Name is required".
Proof.
  rewrite (missing_field_is_named_alone "people[3].address" "streetName"
             VUndefined) by done.
  reflexivity.
Defined.

(** ** What a form shows after a validation *)

Lemma stringify_nullish v : Js.is_nullish v = true → stringify v = "".
Proof. by destruct v. Qed.

Lemma stringify_string s : stringify (VString s) = s.
Proof. done. Qed.

Lemma validate_leaf kind p k alias optional source target safeTarget options
    (errs : Errors) :
  p ≠ "" →
  let input := Js.get source (from_option KStr k alias) in
  let out :=
    validate_type (TPrimitive kind) p k alias optional source target
      safeTarget options errs in
  out.2 = None →
  ∃ s errs',
    out = (Js.set target k (leaf_data kind input), Js.set safeTarget k s, errs',
           None)
    ∧ (∀ q, q ≠ p → errs' !! q = errs !! q)
    ∧ (errs !! p = None → Js.is_nullish (leaf_data kind input) = true →
       from_option value "" (errs' !! p) = stringify input).
Proof.
  intros Hp input. pose proof Hp as Hp'. apply String.eqb_neq in Hp'.
  cbn [validate_type]. rewrite !Hp'. fold input. unfold leaf_data.
  destruct (Js.is_nullish input) eqn:Hin.
  - destruct (negb optional && addError_throws errs p) eqn:Hth; [done|].
    intros _. eexists _, _. split; [reflexivity|]. split.
    + intros q Hq. destruct optional; [done|]. by apply addError_lookup_ne.
    + intros Hfresh _. rewrite (stringify_nullish _ Hin).
      destruct optional; [by rewrite Hfresh|].
      rewrite addError_fresh by done. simpl. by apply stringify_nullish.
  - cbn [expected_of is_array_type].
    destruct (coerce_throws input (EPrimitive kind)); [done|].
    destruct (Js.is_nullish (coerce input (EPrimitive kind))) eqn:Hco.
    + destruct (addError_throws errs p); [done|].
      intros _. eexists _, _. split; [reflexivity|]. split.
      * intros q Hq. by apply addError_lookup_ne.
      * intros Hfresh _. by rewrite addError_fresh by done.
    + intros _. eexists _, _. split; [reflexivity|]. split; [done|].
      intros _ Hnull. by rewrite Hnull in Hco.
Qed.

Lemma fold_flat (f : Run → string * Property → Run) source options :
  (∀ st x b, f (st, Some x) b = (st, Some x)) →
  (∀ t s e n ck ca cty co,
     f (t, s, e, None) (n, mkProperty ck ca cty co)
     = validate_type cty n ck ca co source t s options e) →
  ∀ l,
    (∀ n pr, (n, pr) ∈ l →
       n ≠ "" ∧ key pr = KStr n ∧ ∃ kind, type pr = TPrimitive kind) →
    NoDup l.*1 →
    ∀ ft fs e,
      (fold_left f l (VObject ft, VObject fs, e, None)).2 = None →
      ∃ ft' fs' e',
        fold_left f l (VObject ft, VObject fs, e, None)
        = (VObject ft', VObject fs', e', None)
        ∧ (∀ q, q ∉ l.*1 → Js.field q ft' = Js.field q ft ∧ e' !! q = e !! q)
        ∧ (∀ n pr kind, (n, pr) ∈ l → type pr = TPrimitive kind →
             e !! n = None →
             let input := Js.get source (from_option KStr (key pr) (alias pr)) in
             Js.field n ft' = Some (leaf_data kind input)
             ∧ (Js.is_nullish (leaf_data kind input) = true →
                from_option value "" (e' !! n) = stringify input)).
Proof.
  intros Hsticky Hf.
  induction l as [|[m [ck ca cty co]] l IH]; intros Hl Hnd ft fs e Hret.
  - exists ft, fs, e. split; [done|]. split; [done|].
    intros n pr kind Hin. by apply elem_of_nil in Hin.
  - destruct (Hl m _ ltac:(left)) as (Hm & Hk & kind_m & Hty).
    simpl in Hk, Hty. subst ck cty.
    cbn [fold_left] in *. rewrite Hf in *.
    pose proof (validate_leaf kind_m m (KStr m) ca co source (VObject ft)
                  (VObject fs) options e Hm) as Hleaf. cbv zeta in Hleaf.
    destruct (validate_type (TPrimitive kind_m) m (KStr m) ca co source
                (VObject ft) (VObject fs) options e)
      as [[[t1 s1] e1] [x|]] eqn:Eleaf.
    { by rewrite fold_thrown in Hret by done. }
    destruct (Hleaf eq_refl) as (s & e1' & E & Hframe & Hown).
    injection E as -> -> ->. cbn [Js.set Js.key_string] in *.
    apply NoDup_cons in Hnd as [Hm_l Hnd].
    destruct (IH (fun n pr H => Hl n pr (proj2 (elem_of_cons _ _ _) (or_intror H))) Hnd
                (Js.set_field m
                   (leaf_data kind_m (Js.get source (from_option KStr (KStr m) ca)))
                   ft)
                (Js.set_field m s fs) e1' Hret)
      as (ft' & fs' & e' & E' & Hout & Hin).
    exists ft', fs', e'. split; [exact E'|]. split.
    + intros q Hq. apply not_elem_of_cons in Hq as [Hqm Hq].
      destruct (Hout q Hq) as [-> ->]. split.
      * by apply field_set_field_ne.
      * by apply Hframe.
    + intros n pr kind Hmem Hty Hfresh. cbv zeta.
      apply elem_of_cons in Hmem as [[= -> ->]|Hmem].
      * simpl in Hty. injection Hty as <-.
        destruct (Hout m Hm_l) as [-> ->]. split.
        -- apply field_set_field_eq.
        -- by apply Hown.
      * apply (Hin n pr kind Hmem Hty).
        rewrite Hframe; [done|]. intros ->. apply Hm_l.
        apply list_elem_of_fmap. by exists (m, pr).
Qed.

Lemma flat_parsed schema n pr :
  flat schema = true → (n, pr) ∈ parseSchema schema →
  ∃ kind, type pr = TPrimitive kind.
Proof.
  unfold flat. rewrite forallb_forall. intros Hflat Hin.
  apply fromEntries_elem in Hin.
  apply list_elem_of_In, List.in_map_iff in Hin as [[k t] [E Hin]].
  specialize (Hflat _ Hin). simpl in Hflat.
  destruct t as [kind| | |]; try discriminate.
  exists kind. simpl in E. by injection E as <- <-.
Qed.

(** No field of a plain schema has a name that [Object.prototype] defines. *)
Lemma plain_schema_names schema n :
  plain_schema schema = true → n ∈ (parseSchema schema).*1 →
  Js.inherited n = false.
Proof.
  unfold plain_schema. cbn [plain_type]. rewrite forallb_forall.
  intros Hplain Hin. apply list_elem_of_fmap in Hin as [[m [ck ca cty co]] [-> Hin]].
  apply list_elem_of_In in Hin. specialize (Hplain _ Hin). cbn beta iota in Hplain.
  apply andb_prop in Hplain as [Hplain _]. apply andb_prop in Hplain as [Hplain _].
  apply andb_prop in Hplain as [Hplain _]. unfold plain_name in Hplain.
  apply andb_prop in Hplain as [Hplain _]. by apply negb_true_iff in Hplain.
Qed.

Lemma flat_pass schema input ctx n pr kind :
  isObject (normalizeInput input) = true →
  flat schema = true → all_named schema = true →
  plain_schema schema = true →
  (n, pr) ∈ parseSchema schema → type pr = TPrimitive kind →
  (structural_pass schema input ctx).2 = None →
  let sent := field_input n (key pr) (alias pr) (normalizeInput input) in
  ∃ ft,
    (structural_pass schema input ctx).1.1.1 = VObject ft
    ∧ isObject (VObject ft) = true
    ∧ Js.field n ft = Some (leaf_data kind sent)
    ∧ (Js.is_nullish (leaf_data kind sent) = true →
       from_option value ""
         ((structural_pass schema input ctx).1.2 !! n) = stringify sent).
Proof.
  intros Hobj Hflat Hnamed Hplain Hin Hty.
  pose proof (all_named_spec _ Hnamed) as Hkeys.
  pose proof (parseSchema_well_keyed schema) as Hw.
  apply well_keyed_object in Hw as [Hnd Hw].
  assert (Hn : n ≠ "").
  { apply Hkeys, list_elem_of_fmap. by exists (n, pr). }
  rewrite field_input_below by done.
  rewrite structural_pass_unfold by done. intros Hret.
  match type of Hret with
  | context [fold_left ?f ?l (VObject [], VObject [], ?e, None)] =>
      pose proof (fold_flat f (normalizeInput input) (ctx_of ctx)) as Hfold;
      specialize (fun Hs Hf => Hfold Hs Hf l)
  end.
  destruct Hfold with (ft := @nil (string * JsValue))
                      (fs := @nil (string * JsValue)) (e := (∅ : Errors))
    as (ft' & fs' & e' & E & Hout & Hfield).
  - by intros [[? ?] ?] ? [? [? ? ? ?]].
  - done.
  - intros m pm Hm. destruct (Hw _ _ Hm) as [Hk _]. split; [|split].
    + apply Hkeys, list_elem_of_fmap. by exists (m, pm).
    + done.
    + by apply (flat_parsed schema m).
  - done.
  - exact Hret.
  - rewrite E. exists ft'. split; [done|]. cbn [fst snd]. split.
    + unfold isObject. destruct (Hout "constructor") as [-> _]; [|done].
      intros Hc. by pose proof (plain_schema_names _ _ Hplain Hc).
    + by apply (Hfield n pr kind).
Qed.

(** X22: after the validation of a flat schema of plain names has
    returned, the form helper shows for each field what belongs in its
    input element: the accepted value as a string, or, where the input was
    rejected, the input as it was sent (nothing for a missing input, or one
    that is no primitive).  The input is plain data, and the numbers of
    what was sent for the field, and the accepted one, are held exactly. *)
Theorem form_shows_what_was_sent schema input ctx n pr kind :
  isObject (normalizeInput input) = true →
  flat schema = true → all_named schema = true →
  plain_schema schema = true →
  (n, pr) ∈ parseSchema schema → type pr = TPrimitive kind →
  Num.isNaN (Num.of_string n) = true →
  existsb (String.eqb n) ["push"; "path"; "value"; "errors"] = false →
  let sent := field_input n (key pr) (alias pr) (normalizeInput input) in
  plain (normalizeInput input) = true →
  exact sent = true → exact (leaf_data kind sent) = true →
  (structural_pass schema input ctx).2 = None →
  ∃ r, schemaValidator schema None input ctx = Returned r
       ∧ ∃ t, navigate (result_errors r) (form_helper (data r)) [n] = Some t
              ∧ path t = n
              ∧ get (result_errors r) t "value" = AValue (shown kind sent).
Proof.
  intros Hobj Hflat Hnamed Hplain Hin Hty Hnan Hname sent _ _ _ Hret.
  destruct (flat_pass schema input ctx n pr kind Hobj Hflat Hnamed Hplain Hin
              Hty Hret)
    as (ft & Hdata & Hft & Hfield & Hval).
  fold sent in Hfield, Hval.
  rewrite schemaValidator_unfold, attempt_object by done.
  destruct (structural_pass schema input ctx) as [[[d safe] errs1] x].
  cbn [fst snd] in *. subst x d. eexists. split; [reflexivity|].
  cbn [data result_errors].
  unfold form_helper, proxy. cbn [navigate].
  rewrite get_field by done. rewrite Hfield.
  eexists. split; [reflexivity|]. split; [reflexivity|].
  cbn [default]. unfold childPath. cbn [String.eqb].
  unfold shown.
  destruct (leaf_data kind sent) eqn:Hd; try reflexivity.
  - unfold get. cbn. rewrite <- Hval by done.
    by destruct (_ !! n).
  - unfold get. cbn. rewrite <- Hval by done.
    by destruct (_ !! n).
Qed.

Lemma form_shows_the_rejected_age :
  ∃ r, schemaValidator Examples.person None Examples.jo None = Returned r
       ∧ ∃ t, navigate (result_errors r) (form_helper (data r)) ["age"] = Some t
              ∧ path t = "age"
              ∧ get (result_errors r) t "value" = AValue "20x".
Proof.
  exact (form_shows_what_was_sent Examples.person Examples.jo None "age"
           (mkProperty (KStr "age") None (TPrimitive PNumber) false) PNumber
           eq_refl eq_refl eq_refl eq_refl
           ltac:(right; left) eq_refl eq_refl eq_refl eq_refl eq_refl eq_refl
           eq_refl).
Defined.
